(** * domish: a shallow embedding of the markup parser and of the node tree

    The development follows the source modules:
    - [xmlish]: fragments, entity expansion, the attribute parser, the
      tokenizer built on the pattern [RE_TAG], and the tree builder [parse];
    - [domish]: the node classes, their mutation methods, the serializer
      and the selector engine.

    A JavaScript string is a sequence of UTF-16 code units: [list N].
    Indices that the source lets go negative ([indexOf] returning [-1]) are
    in [Z]. *)

From Stdlib Require Import Ascii String ZArith NArith Lia List Bool.
From stdpp Require Import base option list gmap strings.
Import ListNotations.

Abbreviation str := (list N).

(** String and character literals denote their code units. *)
Definition js (s : string) : str := map N_of_ascii (list_ascii_of_string s).
Coercion js : string >-> list.
Coercion N_of_ascii : ascii >-> N.

(** ** Characters *)

Definition DQ : N := 34.
Definition SQ : N := 39.
Definition LF : N := 10.
Definition CR : N := 13.

Definition chr_eqb (a b : N) : bool := (a =? b)%N.

(** [\s], and the characters [trim] strips: WhiteSpace and LineTerminator. *)
Definition is_space (c : N) : bool :=
  (((9 <=? c) && (c <=? 13)) || (c =? 32) || (c =? 160) || (c =? 5760)
   || ((8192 <=? c) && (c <=? 8202)) || (c =? 8232) || (c =? 8233)
   || (c =? 8239) || (c =? 8287) || (c =? 12288) || (c =? 65279))%N.

(** [\d] *)
Definition is_digit (c : N) : bool := ((48 <=? c) && (c <=? 57))%N.

Definition is_upper (c : N) : bool := ((65 <=? c) && (c <=? 90))%N.
Definition is_lower (c : N) : bool := ((97 <=? c) && (c <=? 122))%N.
Definition is_letter (c : N) : bool := is_upper c || is_lower c.

(** [\w] *)
Definition is_word (c : N) : bool :=
  is_digit c || is_letter c || (c =? 95)%N.

(** [.] without the [s] flag: anything but a line terminator. *)
Definition is_line_terminator (c : N) : bool :=
  ((c =? 10) || (c =? 13) || (c =? 8232) || (c =? 8233))%N.

Fixpoint str_eqb (a b : str) : bool :=
  match a, b with
  | [], [] => true
  | x :: a', y :: b' => chr_eqb x y && str_eqb a' b'
  | _, _ => false
  end.

(** ** String methods *)

Fixpoint trimStart (s : str) : str :=
  match s with
  | c :: s' => if is_space c then trimStart s' else s
  | [] => []
  end.

Definition trimEnd (s : str) : str := rev (trimStart (rev s)).

Definition trim (s : str) : str := trimEnd (trimStart s).

(** Index arguments are clamped to [0, length]. *)
Definition clamp (n : Z) (len : nat) : nat :=
  Z.to_nat (Z.min (Z.max n 0) (Z.of_nat len)).

(** [s.substring(a, b)]: the arguments are clamped, and swapped when
    [a > b]. *)
Definition substring (s : str) (a b : Z) : str :=
  let i := clamp a (length s) in
  let j := clamp b (length s) in
  take (Nat.max i j - Nat.min i j) (drop (Nat.min i j) s).

(** [s.substring(a)] *)
Definition substring_from (s : str) (a : Z) : str :=
  drop (clamp a (length s)) s.

Fixpoint find_first (p : N -> bool) (s : str) : option nat :=
  match s with
  | [] => None
  | c :: s' => if p c then Some 0 else S <$> find_first p s'
  end.

(** [s.indexOf(c, from)] for a one-character needle, [-1] when absent. *)
Definition indexOf (s : str) (c : N) (from : Z) : Z :=
  let k := clamp from (length s) in
  match find_first (chr_eqb c) (drop k s) with
  | Some j => Z.of_nat (k + j)
  | None => (-1)%Z
  end.

Fixpoint starts_with (p s : str) : bool :=
  match p, s with
  | [], _ => true
  | x :: p', y :: s' => chr_eqb x y && starts_with p' s'
  | _ :: _, [] => false
  end.

(** [s.endsWith(p)] *)
Definition ends_with (p s : str) : bool := starts_with (rev p) (rev s).

(** The longest prefix of characters satisfying [p]: a greedy [p*]. *)
Fixpoint span (p : N -> bool) (s : str) : str :=
  match s with
  | c :: s' => if p c then c :: span p s' else []
  | [] => []
  end.

(** The offset of the first occurrence of [needle]. *)
Fixpoint find_sub (needle s : str) : option nat :=
  if starts_with needle s then Some 0
  else match s with
       | [] => None
       | _ :: s' => S <$> find_sub needle s'
       end.

Definition lower_chr (c : N) : N := if is_upper c then (c + 32)%N else c.
Definition upper_chr (c : N) : N := if is_lower c then (c - 32)%N else c.

(** Case mapping, on the ASCII letters only.  [String.prototype.toLowerCase]
    also maps the upper-case letters outside ASCII; the tokenizer puts none
    in a tag name, whose characters are in [\w] or [-]. *)
Definition toLowerCase (s : str) : str := map lower_chr s.
Definition toUpperCase (s : str) : str := map upper_chr s.

(** [s.replace(/c/g, by)] for a one-character pattern. *)
Fixpoint replace_chr (c : N) (by_ : str) (s : str) : str :=
  match s with
  | [] => []
  | x :: s' =>
      if chr_eqb x c then by_ ++ replace_chr c by_ s'
      else x :: replace_chr c by_ s'
  end.

(** ** Plain objects used as dictionaries

    The keys of a JavaScript object are enumerated with the array indices
    first, in increasing order, then the other keys in insertion order;
    assigning to an existing key keeps its place. *)

Fixpoint digits_value (s : str) (acc : N) : option N :=
  match s with
  | [] => Some acc
  | c :: s' =>
      if is_digit c then digits_value s' (acc * 10 + (c - 48))%N
      else None
  end.

Definition array_index (k : str) : option N :=
  match k with
  | [] => None
  | c :: k' =>
      if chr_eqb c "0"%char && negb (str_eqb k' []) then None
      else if 10 <? length k then None
      else match digits_value k 0%N with
           | Some n => if (n <=? 4294967294)%N then Some n else None
           | None => None
           end
  end.

Section object.
Context {V : Type}.

Definition object := list (str * V).

Fixpoint obj_get (k : str) (o : object) : option V :=
  match o with
  | [] => None
  | (k', v) :: o' => if str_eqb k k' then Some v else obj_get k o'
  end.

Fixpoint obj_update (k : str) (v : V) (o : object) : object :=
  match o with
  | [] => []
  | (k', v') :: o' =>
      if str_eqb k k' then (k', v) :: o' else (k', v') :: obj_update k v o'
  end.

Fixpoint obj_insert_index (n : N) (k : str) (v : V) (o : object) : object :=
  match o with
  | [] => [(k, v)]
  | (k', v') :: o' =>
      match array_index k' with
      | Some n' =>
          if (n <? n')%N then (k, v) :: o
          else (k', v') :: obj_insert_index n k v o'
      | None => (k, v) :: o
      end
  end.

(** [o[k] = v] *)
Definition obj_set (k : str) (v : V) (o : object) : object :=
  match obj_get k o with
  | Some _ => obj_update k v o
  | None =>
      match array_index k with
      | Some n => obj_insert_index n k v o
      | None => o ++ [(k, v)]
      end
  end.

(** A [Map]: keys in insertion order, whatever they look like. *)
Definition map_set (k : str) (v : V) (o : object) : object :=
  match obj_get k o with
  | Some _ => obj_update k v o
  | None => o ++ [(k, v)]
  end.

Fixpoint map_delete (k : str) (o : object) : object :=
  match o with
  | [] => []
  | (k', v) :: o' =>
      if str_eqb k k' then map_delete k o' else (k', v) :: map_delete k o'
  end.
End object.
Arguments object : clear implicits.

(** ** xmlish: the attribute parser *)

(** [text.match(RE_ATTR_SEP)] with [RE_ATTR_SEP = /[=\s]/]: the index of the
    first [=] or white space, and the character found. *)
Definition is_attr_sep (c : N) : bool := chr_eqb c "="%char || is_space c.

Definition RE_ATTR_SEP_match (text : str) : option (nat * N) :=
  match find_first is_attr_sep text with
  | Some i => match text !! i with Some c => Some (i, c) | None => None end
  | None => None
  end.

(** Attribute values are a string or [null]. *)
Definition attr_map := object (option str).

(** [if (name) attributes[name] = v] *)
Definition set_named (name : str) (v : option str) (attributes : attr_map)
  : attr_map :=
  match name with [] => attributes | _ => obj_set name v attributes end.

(** [parseAttributes(text, attributes)].  The source recurses on the rest of
    the text and mutates [attributes] in place; the object is threaded
    through.  [None] is a recursion that did not finish within [fuel]
    calls. *)
Fixpoint parseAttributes (fuel : nat) (text : str) (attributes : attr_map)
  : option attr_map :=
  match fuel with
  | 0 => None
  | S fuel =>
      match text with
      | [] => Some attributes
      | _ =>
          match RE_ATTR_SEP_match text with
          | None =>
              let spaceIndex := indexOf text " "%char 0 in
              if (spaceIndex =? -1)%Z then
                Some (set_named (trim text) None attributes)
              else
                let name := trim (substring text 0 spaceIndex) in
                parseAttributes fuel
                  (trim (substring_from text (spaceIndex + 1)))
                  (set_named name None attributes)
          | Some (index, m0) =>
              if chr_eqb m0 "="%char then
                let name := trim (substring text 0 (Z.of_nat index)) in
                if length text <=? index + 1 then
                  Some (obj_set name (Some []) attributes)
                else
                  let chr := text !! (index + 1) in
                  let end_ :=
                    if bool_decide (chr = Some SQ) then
                      indexOf text SQ (Z.of_nat index + 2)
                    else if bool_decide (chr = Some DQ) then
                      indexOf text DQ (Z.of_nat index + 2)
                    else indexOf text " "%char (Z.of_nat index) in
                  let value :=
                    if (end_ =? -1)%Z then
                      trim (substring_from text (Z.of_nat index + 1))
                    else substring text (Z.of_nat index + 1) (end_ + 1) in
                  let attributes :=
                    match name with
                    | [] => attributes
                    | _ =>
                        if bool_decide (value !! 0 = Some SQ)
                           || bool_decide (value !! 0 = Some DQ)
                        then
                          obj_set name
                            (Some (substring value 1
                                     (Z.of_nat (length value) - 1)))
                            attributes
                        else obj_set name (Some (trim value)) attributes
                    end in
                  parseAttributes fuel
                    (trim (substring_from text (end_ + 1))) attributes
              else
                let name := trim (substring text 0 (Z.of_nat index)) in
                parseAttributes fuel
                  (trim (substring_from text (Z.of_nat index + 1)))
                  (set_named name None attributes)
          end
      end
  end.

(** [parseAttributes(attrs, attrs_map)] as the tokenizer calls it.  A run
    that finishes makes at most one call per character of [text] and one
    more; [None] stands for the recursion that never returns (the call stack
    overflows). *)
Definition parseAttributes_run (text : str) (attributes : attr_map)
  : option attr_map :=
  parseAttributes (S (length text)) text attributes.

(** ** Patterns with the [g] flag

    A pattern is embedded as the function that matches it at the head of a
    suffix of the text and returns the length of the match with its groups;
    none of the patterns of the source looks behind or matches the empty
    string.  [exec] searches from [lastIndex] on and leaves [lastIndex]
    after the match, or at [0] when there is none. *)
Section regexp.
Context {G : Type} (pattern : str -> option (nat * G)).

Fixpoint scan (s : str) (i : nat) : option (nat * nat * G) :=
  match pattern s with
  | Some (len, g) => Some (i, len, g)
  | None =>
      match s with
      | [] => None
      | _ :: s' => scan s' (S i)
      end
  end.

Definition exec (text : str) (lastIndex : nat)
  : option (nat * nat * G) * nat :=
  if length text <? lastIndex then (None, 0)
  else match scan (drop lastIndex text) lastIndex with
       | Some (i, len, g) => (Some (i, len, g), i + len)
       | None => (None, 0)
       end.
End regexp.

(** ** xmlish: entities *)

Inductive EntityGroups :=
| EntityCode (code : str)
| EntityName (name : str).

(** [RE_ENTITY = /&(?:#(?<code>\d+)|(?<name>[a-z]+));/gi] *)
Definition RE_ENTITY (s : str) : option (nat * EntityGroups) :=
  match s with
  | c :: r =>
      if chr_eqb c "&"%char then
        match r with
        | h :: r' =>
            if chr_eqb h "#"%char then
              let d := span is_digit r' in
              match d, drop (length d) r' with
              | _ :: _, e :: _ =>
                  if chr_eqb e ";"%char then Some (length d + 3, EntityCode d)
                  else None
              | _, _ => None
              end
            else
              let n := span is_letter r in
              match n, drop (length n) r with
              | _ :: _, e :: _ =>
                  if chr_eqb e ";"%char then Some (length n + 2, EntityName n)
                  else None
              | _, _ => None
              end
        | [] => None
        end
      else None
  | [] => None
  end.

(** [ENTITIES[name]]: the five entries of the table, and the one property
    with a lower-case name that the object inherits, [constructor], a
    function, which [join] turns into its source text. *)
Definition ENTITIES (name : str) : option str :=
  if str_eqb name "amp" then Some ("&" : str)
  else if str_eqb name "lt" then Some ("<" : str)
  else if str_eqb name "gt" then Some (">" : str)
  else if str_eqb name "quot" then Some [DQ]
  else if str_eqb name "apos" then Some [SQ]
  else if str_eqb name "constructor"
       then Some ("function Object() { [native code] }" : str)
  else None.

(** [String.fromCodePoint(c)] for [c <= 0x10ffff] *)
Definition fromCodePoint (c : N) : str :=
  if (c <=? 65535)%N then [c]
  else [(55296 + N.shiftr (c - 65536) 10)%N;
        (56320 + N.land (c - 65536) 1023)%N].

Definition entity_text (m0 : str) (g : EntityGroups) : str :=
  match g with
  | EntityName name =>
      match ENTITIES (toLowerCase name) with
      | Some t => t
      | None => m0
      end
  | EntityCode code =>
      match digits_value code 0%N with
      | Some c => if (1114111 <? c)%N then m0 else fromCodePoint c
      | None => m0
      end
  end.

(** The loop of [iexpandEntities]: [o] is the end of the previous match. *)
Fixpoint iexpandEntities_loop (fuel : nat) (text : str) (o lastIndex : nat)
  : list str :=
  match fuel with
  | 0 => []
  | S fuel =>
      match exec RE_ENTITY text lastIndex with
      | (Some (start, len, g), lastIndex') =>
          (if o <? start then [take (start - o) (drop o text)] else [])
          ++ [entity_text (take len (drop start text)) g]
          ++ iexpandEntities_loop fuel text (start + len) lastIndex'
      | (None, _) =>
          if o <? length text then [drop o text] else []
      end
  end.

Definition iexpandEntities (text : str) : list str :=
  match text with
  | [] => []
  | _ =>
      if length text <? 3 then [text]
      else iexpandEntities_loop (S (length text)) text 0 0
  end.

Definition expandEntities (text : str) : str := concat (iexpandEntities text).

(** ** domish: the tree that [parse] builds

    [parse] creates every node it handles and only ever appends a node it
    has just created to the innermost open element: no node has an earlier
    parent and none is shared, so the object graph is embedded as the tree
    it denotes.  An element carries what the builder gives it: a name and
    the [Map] of its attributes in the default namespace (the [style]
    dictionary and the namespaced attributes stay empty).  A template
    element keeps what is appended to it in [content], and has no child. *)
#[warnings="-register-all"]
Inductive Node :=
| Document (childNodes : list Node)
| DocumentFragment (childNodes : list Node)
| Element (nodeName : str) (attributes : object str) (childNodes : list Node)
| TemplateElement (nodeName : str) (attributes : object str)
    (content : list Node)
| TextNode (data : str)
| Comment (data : str).

Definition ELEMENT_NODE : N := 1.
Definition TEXT_NODE : N := 3.
Definition COMMENT_NODE : N := 8.
Definition DOCUMENT_NODE : N := 9.
Definition DOCUMENT_FRAGMENT_NODE : N := 11.

Definition nodeType (n : Node) : N :=
  match n with
  | Document _ => DOCUMENT_NODE
  | DocumentFragment _ => DOCUMENT_FRAGMENT_NODE
  | Element _ _ _ | TemplateElement _ _ _ => ELEMENT_NODE
  | TextNode _ => TEXT_NODE
  | Comment _ => COMMENT_NODE
  end.

Definition nodeName (n : Node) : str :=
  match n with
  | Document _ => "#document"
  | DocumentFragment _ => "document-fragment"
  | Element name _ _ | TemplateElement name _ _ => name
  | TextNode _ => "#text"
  | Comment _ => "#comment"
  end.

Definition childNodes (n : Node) : list Node :=
  match n with
  | Document cs | DocumentFragment cs | Element _ _ cs => cs
  | TemplateElement _ _ _ | TextNode _ | Comment _ => []
  end.

Definition node_attributes (n : Node) : object str :=
  match n with
  | Element _ a _ | TemplateElement _ a _ => a
  | _ => []
  end.

(** [element.setAttribute(name, value)] *)
Definition setAttribute (name value : str) (attributes : object str)
  : object str := map_set name value attributes.

(** [element.getAttribute(name)], [null] as [None] *)
Definition getAttribute (n : Node) (name : str) : option str :=
  obj_get name (node_attributes n).

Definition hasAttribute (n : Node) (name : str) : bool :=
  match obj_get name (node_attributes n) with Some _ => true | None => false end.

(** [document.createElement(name)] *)
Definition createElement (name : str) (attributes : object str) : Node :=
  if str_eqb name "template" || str_eqb name "TEMPLATE"
  then TemplateElement name attributes []
  else Element name attributes [].

(** ** domish: serialization *)

Definition tags (names : list str) : list str :=
  flat_map (fun v => [v; toLowerCase v; toUpperCase v]) names.

Definition HTML_EMPTY : list str :=
  tags ["area" : str; "base" : str; "basefont" : str; "br" : str;
        "col" : str; "frame" : str; "hr" : str; "img" : str; "input" : str;
        "isindex" : str; "link" : str; "meta" : str; "param" : str].

Definition HTML_NOEMPTY : list str := tags ["slot" : str].

Definition has (table : list str) (name : str) : bool :=
  existsb (str_eqb name) table.

(** The options of the serializer: [comments] and [doctype] count as set
    unless they are [false], [html] counts when it is truthy. *)
Record Options := {
  opt_comments : bool;
  opt_doctype : bool;
  opt_html : bool
}.

(** [{}] *)
Definition no_options : Options :=
  {| opt_comments := true; opt_doctype := true; opt_html := false |}.

(** [{ ...options, html: true }] *)
Definition with_html (o : Options) : Options :=
  {| opt_comments := opt_comments o; opt_doctype := opt_doctype o;
     opt_html := true |}.

Definition XML_PROLOG : str :=
  ("<?xml version='1.0' charset='utf-8' ?>" : str) ++ [LF].

Definition escape_text (data : str) : str :=
  replace_chr "<"%char "&lt;"
    (replace_chr ">"%char "&gt;" (replace_chr "&"%char "&amp;" data)).

(** The chunks for the attributes other than [style], in the order of the
    [Map]. *)
Definition attribute_chunks (attributes : object str) : list str :=
  flat_map
    (fun kv : str * str =>
       if str_eqb (fst kv) "style" then []
       else [(" " : str) ++ fst kv ++ "=" ++ [DQ] ++ snd kv ++ [DQ]])
    attributes.

(** The [style] attribute comes after the others, when it has a value. *)
Definition style_chunks (attributes : object str) : list str :=
  match obj_get ("style" : str) attributes with
  | Some (c :: v) => [(" style=" : str) ++ [DQ] ++ (c :: v) ++ [DQ]]
  | _ => []
  end.

(** The [empty] of the source: [Some true] for a void element, [Some false]
    for a name that is never void, [None] for [undefined]. *)
Definition html_empty (o : Options) (name : str) : option bool :=
  if opt_html o then
    if has HTML_NOEMPTY name then Some false
    else if has HTML_EMPTY name then Some true
    else None
  else None.

Definition element_chunks (o : Options) (name : str)
  (attributes : object str) (children : list Node)
  (inner : list str) : list str :=
  let empty := html_empty o name in
  [("<" : str) ++ name] ++ attribute_chunks attributes
  ++ style_chunks attributes
  ++ (if opt_html o && bool_decide (empty = Some true) then [(" >" : str)]
      else if bool_decide (children = @nil Node)
              && negb (bool_decide (empty = Some false))
           then [(" />" : str)]
      else [(">" : str)] ++ inner ++ [("</" : str) ++ name ++ ">"]).

(** [node.iterXMLLines(options)]: the chunks, in order. *)
Fixpoint iterXMLLines (o : Options) (n : Node) : list str :=
  match n with
  | Document cs =>
      (if opt_doctype o then [XML_PROLOG] else [])
      ++ concat (map (iterXMLLines o) cs)
  | DocumentFragment cs => concat (map (iterXMLLines o) cs)
  | Element name attributes cs =>
      element_chunks o name attributes cs (concat (map (iterXMLLines o) cs))
  | TemplateElement name attributes _ =>
      element_chunks o name attributes [] []
  | TextNode data => [escape_text data]
  | Comment data =>
      if opt_comments o
      then [("<!--" : str) ++ replace_chr ">"%char "&gt;" data ++ "-->"]
      else []
  end.

Definition toXMLLines (o : Options) (n : Node) : list str := iterXMLLines o n.

Definition toXML (o : Options) (n : Node) : str := concat (toXMLLines o n).

Definition toHTML (o : Options) (n : Node) : str :=
  concat (toXMLLines (with_html o) n).

(** ** domish: selectors *)

(** [[\w\d_-]] *)
Definition is_namechar (c : N) : bool :=
  is_word c || is_digit c || chr_eqb c "_"%char || chr_eqb c "-"%char.

(** [RE_QUERY = /((?<type>[.#]?)(?<name>[\w\d_-]+))|(\[(?<attributes>[^\]]+)\])/g] *)
Definition RE_QUERY (s : str) : option (nat * unit) :=
  match s with
  | c :: r =>
      let body := if chr_eqb c "."%char || chr_eqb c "#"%char then r else s in
      match span is_namechar body with
      | (_ :: _) as name => Some (length s - length body + length name, ())
      | [] =>
          if chr_eqb c "["%char then
            let a := span (fun x => negb (chr_eqb x "]"%char)) r in
            match a, drop (length a) r with
            | _ :: _, _ :: _ => Some (length a + 2, ())
            | _, _ => None
            end
          else None
      end
  | [] => None
  end.

(** [query.match(RE_QUERY)]: with the [g] flag, the array of the matched
    substrings ([null] as the empty list: the constructor treats both
    alike). *)
Fixpoint match_all (fuel : nat) (text : str) (lastIndex : nat) : list str :=
  match fuel with
  | 0 => []
  | S fuel =>
      match exec RE_QUERY text lastIndex with
      | (Some (i, len, _), lastIndex') =>
          take len (drop i text) :: match_all fuel text lastIndex'
      | (None, _) => []
      end
  end.

Record SelectorAttributes := {
  sa_name : str;
  sa_operator : option str;
  sa_value : option str
}.

Record Selector := {
  sel_type : str;
  sel_name : str;
  sel_attributes : option SelectorAttributes
}.

(** The named groups that the constructor reads off each element of the
    array: [type], [name], and [attributes] run through [RE_QUERY_ATTR]. *)
Record QueryGroups := {
  qg_type : option str;
  qg_name : option str;
  qg_attributes : option SelectorAttributes
}.

(** The selector built from [match.groups], [undefined] as [None]. *)
Definition selector_of (groups : option QueryGroups) : Selector :=
  {| sel_type :=
       match groups with
       | Some g =>
           match qg_attributes g with
           | Some _ => "@"
           | None => default [] (qg_type g)
           end
       | None => []
       end;
     sel_name := default [] (groups ≫= qg_name);
     sel_attributes := groups ≫= qg_attributes |}.

(** The elements of the array are strings: they have no [groups]. *)
Definition groups_of_string (m : str) : option QueryGroups := None.

(** [new Query(query).selectors] *)
Definition Query (query : str) : list Selector :=
  map (fun m => selector_of (groups_of_string m))
    (match_all (S (length query)) query 0).

(** [s.split(" ")] *)
Fixpoint split_on (c : N) (s : str) (cur : str) : list str :=
  match s with
  | [] => [cur]
  | x :: s' =>
      if chr_eqb x c then cur :: split_on c s' [] else split_on c s' (cur ++ [x])
  end.

(** [element.classList.contains(value)] *)
Definition classList_contains (n : Node) (value : str) : bool :=
  existsb (str_eqb value)
    (split_on " "%char (default [] (getAttribute n "class")) []).

(** [q.match(node)]; [None] when the source throws on an unsupported
    selector type. *)
Fixpoint Query_match (selectors : list Selector) (node : Node) : option bool :=
  match selectors with
  | [] => Some true
  | s :: rest =>
      if negb (nodeType node =? ELEMENT_NODE)%N then Some false
      else if str_eqb (sel_type s) [] then
        if negb (str_eqb (nodeName node) (sel_name s))
           && negb (str_eqb (toLowerCase (nodeName node))
                      (toLowerCase (sel_name s)))
        then Some false
        else Query_match rest node
      else if str_eqb (sel_type s) "." then
        if negb (classList_contains node (sel_name s)) then Some false
        else Query_match rest node
      else if str_eqb (sel_type s) "#" then
        if negb (bool_decide (getAttribute node "id" = Some (sel_name s)))
        then Some false
        else Query_match rest node
      else if str_eqb (sel_type s) "@" then
        match sel_attributes s with
        | Some a =>
            if negb (hasAttribute node (sa_name a)) then Some false
            else Some true
        | None => Some true
        end
      else None
  end.

(** [node.iterWalk(callback)] with the callback of [querySelectorAll], which
    never returns [false]: the node, then its children's walks, in order.
    The result is the [matched] array after the walk. *)
Fixpoint iterWalk (q : list Selector) (n : Node) (matched : list Node)
  : option (list Node) :=
  match Query_match q n with
  | None => None
  | Some b =>
      let matched := if b then matched ++ [n] else matched in
      let children :=
        fix children (cs : list Node) (matched : list Node)
          : option (list Node) :=
          match cs with
          | [] => Some matched
          | c :: cs' =>
              match iterWalk q c matched with
              | Some matched => children cs' matched
              | None => None
              end
          end in
      match n with
      | Document cs | DocumentFragment cs | Element _ _ cs =>
          children cs matched
      | TemplateElement _ _ _ | TextNode _ | Comment _ => Some matched
      end
  end.

(** [query.split(/\s+/)] *)
Fixpoint split_spaces (s : str) (cur : str) (in_sep : bool) : list str :=
  match s with
  | [] => [cur]
  | x :: s' =>
      if is_space x then
        if in_sep then split_spaces s' [] true
        else cur :: split_spaces s' [] true
      else split_spaces s' (cur ++ [x]) false
  end.

Fixpoint walk_scope (q : list Selector) (scope : list Node)
  (matched : list Node) : option (list Node) :=
  match scope with
  | [] => Some matched
  | n :: scope' => matched ← iterWalk q n matched; walk_scope q scope' matched
  end.

(** The loop of [querySelectorAll] over the steps of the query. *)
Fixpoint querySelectorAll_steps (query : str) (steps : list str)
  (scope : list Node) : option (list Node) :=
  match steps with
  | [] => Some (match query with [] => [] | _ => scope end)
  | qs :: steps' =>
      scope ← (match qs with
               | [] => Some scope
               | _ => walk_scope (Query query) scope []
               end);
      match scope with
      | [] => Some []
      | _ => querySelectorAll_steps query steps' scope
      end
  end.

Definition querySelectorAll (this : Node) (query : str)
  : option (list Node) :=
  querySelectorAll_steps query (split_spaces query [] false) [this].

(** [querySelector]: [undefined] as [None]. *)
Definition querySelector (this : Node) (query : str)
  : option (option Node) :=
  head <$> querySelectorAll this query.

(** ** xmlish: fragments and markers *)

Record Fragment := {
  source : str;
  f_start : Z;
  f_end : Z
}.

(** [fragment.slice(start, end)], [end] defaulting to [null] *)
Definition slice (f : Fragment) (start : Z) (end_ : option Z) : Fragment :=
  let i := if (0 <=? start)%Z then (f_start f + start)%Z
           else (f_end f + start)%Z in
  let j := match end_ with
           | Some e =>
               if negb (e =? 0)%Z && (0 <=? e)%Z then (f_start f + e)%Z
               else (f_end f + e)%Z
           | None => f_end f
           end in
  {| source := source f; f_start := Z.min i j; f_end := Z.max i j |}.

Definition rawtext (f : Fragment) : str :=
  substring (source f) (f_start f) (f_end f).

(** The named groups of [RE_TAG] that the tokenizer reads. *)
Record TagGroups := {
  g_DOCTYPE : option str;
  g_COMMENT : option str;
  g_CDATA : option str;
  g_closing : option str;
  g_qualname : option str;
  g_ns : option str;
  g_name : option str;
  g_attrs : option str
}.

Definition no_groups : TagGroups :=
  {| g_DOCTYPE := None; g_COMMENT := None; g_CDATA := None;
     g_closing := None; g_qualname := None; g_ns := None; g_name := None;
     g_attrs := None |}.

Record RegExpExecArray := {
  index : nat;
  m0 : str;
  groups : TagGroups
}.

Record MatchFragment := {
  mf_match : option RegExpExecArray;
  mf_fragment : Fragment
}.

Inductive MarkerType := Content | Start | End_ | Inline.

Record Marker := {
  type : MarkerType;
  fragment : Fragment;
  name : option str;
  attributes : attr_map
}.

Definition marker_text (m : Marker) : str := rawtext (fragment m).

(** ** xmlish: the pattern [RE_TAG]

    The pattern is the alternation of four branches, tried in this order at
    each position:
    - [<!DOCTYPE\s+[^>]+>\r?\n];
    - [<!--([\r\n]|.)*?-->];
    - [<![CDATA[([\r\n]|.)*?]]>];
    - [<], an optional [/] (group [closing]), the qualified name (group
      [qualname]: an optional prefix, group [ns], of word characters then
      characters of [[dw_-]] and a colon, and the name, group [name], of
      one or more characters of [[dw_-]]), optional attribute text (group
      [attrs]: white space, then characters other than [>]), optional white
      space, an optional [/], and [>].
    The source assembles the text of the pattern from string pieces.  The
    first three are string literals with doubled backslashes.  The fourth
    is a template literal whose escapes [\d], [\w] and [\-] are not
    doubled: in the text of the pattern they are the characters [d], [w]
    and [-], so the class of the name is [[dw_-]] and the prefix is
    [\w+[dw_-]*].  The same piece leaves the group [qualname] open, a
    text that the constructor of the pattern does not accept; the group is
    closed here after [name], which is how the tokenizer uses it.
    Each branch is written as the function deciding the match that the
    backtracking search finds at the head of [s]. *)

(** [<!DOCTYPE], a run of characters other than [>] that begins with white
    space and has two characters or more, [>], and a line end. *)
Definition match_DOCTYPE (s : str) : option (nat * TagGroups) :=
  if starts_with "<!DOCTYPE" s then
    let r := drop 9 s in
    let x := span (fun c => negb (chr_eqb c ">"%char)) r in
    match x with
    | w :: _ :: _ =>
        if is_space w then
          match drop (length x) r with
          | a :: b :: c :: _ =>
              if chr_eqb a ">"%char && chr_eqb b CR && chr_eqb c LF
              then Some (9 + length x + 3,
                         {| g_DOCTYPE := Some (take (9 + length x + 3) s);
                            g_COMMENT := None; g_CDATA := None;
                            g_closing := None; g_qualname := None;
                            g_ns := None; g_name := None; g_attrs := None |})
              else if chr_eqb a ">"%char && chr_eqb b LF
              then Some (9 + length x + 2,
                         {| g_DOCTYPE := Some (take (9 + length x + 2) s);
                            g_COMMENT := None; g_CDATA := None;
                            g_closing := None; g_qualname := None;
                            g_ns := None; g_name := None; g_attrs := None |})
              else None
          | [a; b] =>
              if chr_eqb a ">"%char && chr_eqb b LF
              then Some (9 + length x + 2,
                         {| g_DOCTYPE := Some (take (9 + length x + 2) s);
                            g_COMMENT := None; g_CDATA := None;
                            g_closing := None; g_qualname := None;
                            g_ns := None; g_name := None; g_attrs := None |})
              else None
          | _ => None
          end
        else None
    | _ => None
    end
  else None.

(** The interior of a comment or of a CDATA section: the shortest run of
    [([\r\n]|.)] up to the closing delimiter; [.] leaves out U+2028 and
    U+2029. *)
Definition is_interior (c : N) : bool :=
  negb (chr_eqb c 8232 || chr_eqb c 8233).

Definition match_delimited (opening closing : str) (s : str) : option nat :=
  if starts_with opening s then
    match find_sub closing (drop (length opening) s) with
    | Some j =>
        if forallb is_interior (take j (drop (length opening) s))
        then Some (length opening + j + length closing)
        else None
    | None => None
    end
  else None.

Definition match_COMMENT (s : str) : option (nat * TagGroups) :=
  match match_delimited "<!--" "-->" s with
  | Some len =>
      Some (len, {| g_DOCTYPE := None; g_COMMENT := Some (take len s);
                    g_CDATA := None; g_closing := None; g_qualname := None;
                    g_ns := None; g_name := None; g_attrs := None |})
  | None => None
  end.

Definition match_CDATA (s : str) : option (nat * TagGroups) :=
  match match_delimited "<![CDATA[" "]]>" s with
  | Some len =>
      Some (len, {| g_DOCTYPE := None; g_COMMENT := None;
                    g_CDATA := Some (take len s); g_closing := None;
                    g_qualname := None; g_ns := None; g_name := None;
                    g_attrs := None |})
  | None => None
  end.

(** [[dw_-]], the class of the tag names. *)
Definition is_tagchar (c : N) : bool :=
  chr_eqb c "d"%char || chr_eqb c "w"%char || chr_eqb c "_"%char
  || chr_eqb c "-"%char.

(** The prefix, group [ns], and its colon at the head of [r]: the longest
    run of word characters, then the longest run of [[dw_-]], and a colon.  A
    shorter run cannot be followed by the colon, which is in neither
    class. *)
Definition match_ns (r : str) : option str :=
  let w := span is_word r in
  let d := span is_tagchar (drop (length w) r) in
  match w, drop (length w + length d) r with
  | _ :: _, colon :: _ =>
      if chr_eqb colon ":"%char then Some (w ++ d) else None
  | _, _ => None
  end.

(** The qualified name at the head of [r]: the prefix and the name, and the
    number of characters taken.  The name is the longest run of [[dw_-]].
    When the prefix matches and the rest of the pattern does not, the
    search goes back to a name without prefix; that name ends within the
    prefix or at its colon, where the rest of the pattern, which begins
    with white space, [/] or [>], does not match either. *)
Definition match_qualname (r : str) : option (option str * str * nat) :=
  match match_ns r with
  | Some ns =>
      match span is_tagchar (drop (length ns + 1) r) with
      | [] => None
      | (_ :: _) as nm => Some (Some ns, nm, length ns + 1 + length nm)
      end
  | None =>
      match span is_tagchar r with
      | [] => None
      | (_ :: _) as nm => Some (None, nm, length nm)
      end
  end.

(** What follows the name: the attribute text, from the first white space
    up to the next [>], or nothing but an optional [/] before the [>]. *)
Definition match_tag_end (r : str) : option (option str * nat) :=
  match r with
  | c :: r' =>
      if is_space c then
        let a := span (fun x => negb (chr_eqb x ">"%char)) r in
        match drop (length a) r with
        | _ :: _ => Some (Some a, length a + 1)
        | [] => None
        end
      else if chr_eqb c ">"%char then Some (None, 1)
      else if chr_eqb c "/"%char then
        match r' with
        | d :: _ => if chr_eqb d ">"%char then Some (None, 2) else None
        | [] => None
        end
      else None
  | [] => None
  end.

Definition match_tag (s : str) : option (nat * TagGroups) :=
  match s with
  | lt :: r0 =>
      if chr_eqb lt "<"%char then
        let closing := starts_with "/" r0 in
        let r1 := if closing then drop 1 r0 else r0 in
        match match_qualname r1 with
        | Some (ns, nm, k) =>
            match match_tag_end (drop k r1) with
            | Some (attrs, e) =>
                Some (length s - length r1 + k + e,
                      {| g_DOCTYPE := None; g_COMMENT := None;
                         g_CDATA := None;
                         g_closing := if closing then Some ("/" : str)
                                      else None;
                         g_qualname := Some (take k r1);
                         g_ns := ns; g_name := Some nm; g_attrs := attrs |})
            | None => None
            end
        | None => None
        end
      else None
  | [] => None
  end.

Definition RE_TAG (s : str) : option (nat * TagGroups) :=
  match match_DOCTYPE s with
  | Some m => Some m
  | None =>
      match match_COMMENT s with
      | Some m => Some m
      | None =>
          match match_CDATA s with
          | Some m => Some m
          | None => match_tag s
          end
      end
  end.

(** [RE_TAG.exec(text)]; [RE_TAG] is one object of the module, and its
    [lastIndex] is state that every tokenization reads and writes. *)
Definition RE_TAG_exec (text : str) (lastIndex : nat)
  : option RegExpExecArray * nat :=
  match exec RE_TAG text lastIndex with
  | (Some (i, len, g), lastIndex') =>
      (Some {| index := i; m0 := take len (drop i text); groups := g |},
       lastIndex')
  | (None, lastIndex') => (None, lastIndex')
  end.

(** ** xmlish: the generator [Fragment.IterMatches(RE_TAG, text)]

    A generator runs between two [yield]s each time its consumer asks for
    the next element: it is embedded as its states between calls and the
    step from one to the next, which threads [lastIndex]. *)
Inductive IterState :=
| AtLoop (offset : nat)
| Pending (m : RegExpExecArray) (offset : nat)
| Finished.

Definition matched_fragment (text : str) (m : RegExpExecArray)
  : MatchFragment :=
  {| mf_match := Some m;
     mf_fragment := {| source := text; f_start := Z.of_nat (index m);
                       f_end := Z.of_nat (index m + length (m0 m)) |} |}.

Definition unmatched_fragment (text : str) (a b : nat) : MatchFragment :=
  {| mf_match := None;
     mf_fragment := {| source := text; f_start := Z.of_nat a;
                       f_end := Z.of_nat b |} |}.

Definition IterMatches_next (text : str) (st : IterState) (lastIndex : nat)
  : option MatchFragment * IterState * nat :=
  match st with
  | AtLoop offset =>
      match text with
      | [] => (None, Finished, lastIndex)
      | _ =>
          match RE_TAG_exec text lastIndex with
          | (Some m, lastIndex') =>
              if negb (offset =? index m) then
                (Some (unmatched_fragment text offset (index m)),
                 Pending m offset, lastIndex')
              else
                (Some (matched_fragment text m),
                 AtLoop (Nat.max (offset + 1) (index m + length (m0 m))),
                 lastIndex')
          | (None, lastIndex') =>
              if offset <? length text then
                (Some (unmatched_fragment text offset (length text)),
                 Finished, lastIndex')
              else (None, Finished, lastIndex')
          end
      end
  | Pending m offset =>
      (Some (matched_fragment text m),
       AtLoop (Nat.max (offset + 1) (index m + length (m0 m))), lastIndex)
  | Finished => (None, Finished, lastIndex)
  end.

(** ** xmlish: the generator [iterMarkers(text)] *)

Definition mk_marker (t : MarkerType) (f : Fragment) (n : option str)
  (a : attr_map) : Marker :=
  {| type := t; fragment := f; name := n; attributes := a |}.

Definition truthy (s : option str) : bool :=
  match s with Some (_ :: _) => true | _ => false end.

(** The markers for one element of [IterMatches]; [None] when
    [parseAttributes] does not return. *)
Definition markers_of (mf : MatchFragment) : option (list Marker) :=
  let f := mf_fragment mf in
  match mf_match mf with
  | None => Some [mk_marker Content f None []]
  | Some m =>
      let g := groups m in
      if truthy (g_CDATA g) then
        Some [mk_marker Start (slice f 0 (Some 9%Z)) (Some ("!CDATA" : str)) [];
              mk_marker Content (slice f 9 (Some (-3)%Z)) None [];
              mk_marker End_ (slice f (-3) None) (Some ("!CDATA" : str)) []]
      else if truthy (g_DOCTYPE g) then
        Some [mk_marker Start (slice f 0 (Some 10%Z))
                (Some ("!DOCTYPE" : str)) [];
              mk_marker Content (slice f 10 (Some (-2)%Z)) None [];
              mk_marker End_ (slice f (-2) None) (Some ("!DOCTYPE" : str)) []]
      else if truthy (g_COMMENT g) then
        Some [mk_marker Start (slice f 0 (Some 4%Z))
                (Some ("!COMMENT" : str)) [];
              mk_marker Content (slice f 4 (Some (-3)%Z)) None [];
              mk_marker End_ (slice f (-3) None) (Some ("!COMMENT" : str)) []]
      else
        let is_closing := truthy (g_closing g) in
        let is_self_closing := ends_with "/>" (m0 m) in
        match (if truthy (g_attrs g)
               then parseAttributes_run (default [] (g_attrs g)) []
               else Some []) with
        | None => None
        | Some attrs_map =>
            if is_closing then Some [mk_marker End_ f (g_qualname g) attrs_map]
            else if is_self_closing
                 then Some [mk_marker Inline f (g_qualname g) attrs_map]
            else Some [mk_marker Start f (g_qualname g) attrs_map]
        end
  end.

(** The state of the generator: the markers of the current construct that
    are still to come, and the state of the inner generator. *)
Record MarkerGen := {
  mg_queue : list Marker;
  mg_inner : IterState
}.

Inductive Next :=
| Yield (m : Marker)
| Done
| Throw.

Definition iterMarkers_start : MarkerGen :=
  {| mg_queue := []; mg_inner := AtLoop 0 |}.

Definition iterMarkers_next (text : str) (g : MarkerGen) (lastIndex : nat)
  : Next * MarkerGen * nat :=
  match mg_queue g with
  | m :: q => (Yield m, {| mg_queue := q; mg_inner := mg_inner g |}, lastIndex)
  | [] =>
      match IterMatches_next text (mg_inner g) lastIndex with
      | (None, st, lastIndex') =>
          (Done, {| mg_queue := []; mg_inner := st |}, lastIndex')
      | (Some mf, st, lastIndex') =>
          match markers_of mf with
          | Some (m :: q) =>
              (Yield m, {| mg_queue := q; mg_inner := st |}, lastIndex')
          | Some [] => (Done, {| mg_queue := []; mg_inner := st |}, lastIndex')
          | None => (Throw, {| mg_queue := []; mg_inner := st |}, lastIndex')
          end
      end
  end.

(** ** xmlish: the tree builder [parse]

    The stack holds the open containers, the innermost first, each with the
    children it has so far; the element that the source appends to its
    parent when it opens is attached, as a value, when it closes, at the end
    of its parent's children, where the source put it: nothing is appended
    to the parent while the element is open. *)
Inductive Open :=
| OpenDocument
| OpenElement (nodeName : str) (attributes : object str)
| OpenTemplate (nodeName : str) (attributes : object str).

Definition Frame : Type := Open * list Node.

Definition close_frame (f : Frame) : Node :=
  match f with
  | (OpenDocument, cs) => Document cs
  | (OpenElement n a, cs) => Element n a cs
  | (OpenTemplate n a, cs) => TemplateElement n a cs
  end.

(** [current.appendChild(node)] *)
Definition appendChild (node : Node) (stack : list Frame) : list Frame :=
  match stack with
  | (o, cs) :: rest => (o, cs ++ [node]) :: rest
  | [] => []
  end.

(** The attributes of a marker copied onto a new element, [null] as the
    empty string. *)
Definition copy_attributes (attributes : attr_map) : object str :=
  fold_left (fun m kv => setAttribute (fst kv) (default [] (snd kv)) m)
    attributes [].

Definition open_frame (name : str) (attributes : attr_map) : Frame :=
  if str_eqb name "template" || str_eqb name "TEMPLATE"
  then (OpenTemplate name (copy_attributes attributes), [])
  else (OpenElement name (copy_attributes attributes), []).

(** One turn of the loop of [parse]. *)
Definition parse_marker (marker : Marker) (stack : list Frame)
  : list Frame :=
  match type marker with
  | Content =>
      let text := expandEntities (marker_text marker) in
      match trim text with
      | [] => stack
      | _ => appendChild (TextNode text) stack
      end
  | Start =>
      let name := default [] (name marker) in
      if starts_with "!" name
      then appendChild (Comment (rawtext (fragment marker))) stack
      else open_frame name (attributes marker) :: stack
  | End_ =>
      match stack with
      | f :: ((_ :: _) as rest) => appendChild (close_frame f) rest
      | _ => stack
      end
  | Inline =>
      let name := default [] (name marker) in
      appendChild (close_frame (open_frame name (attributes marker))) stack
  end.

(** The document at the end of the input: the elements still open hold what
    they have. *)
Fixpoint finish_from (closed : Node) (rest : list Frame) : Node :=
  match rest with
  | [] => closed
  | (o, cs) :: rest' => finish_from (close_frame (o, cs ++ [closed])) rest'
  end.

Definition finish (stack : list Frame) : option Node :=
  match stack with
  | [] => None
  | f :: rest => Some (finish_from (close_frame f) rest)
  end.

Inductive Outcome :=
| Returned (doc : Node) (lastIndex : nat)
| Thrown (lastIndex : nat)
| OutOfFuel.

Fixpoint parse_loop (fuel : nat) (text : str) (g : MarkerGen)
  (lastIndex : nat) (stack : list Frame) : Outcome :=
  match fuel with
  | 0 => OutOfFuel
  | S fuel =>
      match iterMarkers_next text g lastIndex with
      | (Yield marker, g', lastIndex') =>
          parse_loop fuel text g' lastIndex' (parse_marker marker stack)
      | (Done, _, lastIndex') =>
          match finish stack with
          | Some doc => Returned doc lastIndex'
          | None => OutOfFuel
          end
      | (Throw, _, lastIndex') => Thrown lastIndex'
      end
  end.

(** [parse(text)], run with [RE_TAG.lastIndex] as the previous use of the
    pattern left it; the outcome carries the value it leaves. *)
Definition parse_from (lastIndex : nat) (text : str) : Outcome :=
  parse_loop (2 * length text + 4) text iterMarkers_start lastIndex
    [(OpenDocument, [])].

(** [parse(text)] when the pattern is at rest. *)
Definition parse (text : str) : Outcome := parse_from 0 text.

Definition returned (o : Outcome) : option Node :=
  match o with Returned doc _ => Some doc | _ => None end.


(** ** domish: the node classes as objects

    The mutation methods work on objects that have an identity, a parent
    link and shared children: they are embedded over a store of objects.  A
    reference that the store does not hold makes a method stuck ([None], or
    [Stuck]): the source has no such reference. *)
Module Dom.

Abbreviation ref := nat.

(** The fields that [AttributeNode] adds to [Node]. *)
Record AttributeFields := {
  a_name : str;
  a_namespace : option str;
  a_ownerElement : option ref;
  a_value : option str
}.

(** The fields that [Element] adds to [Node]; [e_content] is the
    [content] fragment of a [TemplateElement]. *)
Record ElementFields := {
  e_namespace : option str;
  e_style : object str;
  e_attributes : object ref;
  e_attributesNS : object (object ref);
  e_content : option ref
}.

Record Object := {
  nodeName : str;
  nodeType : N;
  childNodes : list ref;
  parentNode : option ref;
  data : str;
  attribute : option AttributeFields;
  element : option ElementFields
}.

Abbreviation Store := (gmap ref Object).

Definition ATTRIBUTE_NODE : N := 2.

Definition set_childNodes (cs : list ref) (o : Object) : Object :=
  {| nodeName := nodeName o; nodeType := nodeType o; childNodes := cs;
     parentNode := parentNode o; data := data o;
     attribute := attribute o; element := element o |}.

Definition set_parentNode (p : option ref) (o : Object) : Object :=
  {| nodeName := nodeName o; nodeType := nodeType o;
     childNodes := childNodes o; parentNode := p; data := data o;
     attribute := attribute o; element := element o |}.

Definition set_attribute (a : AttributeFields) (o : Object) : Object :=
  {| nodeName := nodeName o; nodeType := nodeType o;
     childNodes := childNodes o; parentNode := parentNode o;
     data := data o; attribute := Some a; element := element o |}.

Definition set_element (e : ElementFields) (o : Object) : Object :=
  {| nodeName := nodeName o; nodeType := nodeType o;
     childNodes := childNodes o; parentNode := parentNode o;
     data := data o; attribute := attribute o; element := Some e |}.

(** [new Node(name, type)] *)
Definition new_Node (name : str) (type : N) : Object :=
  {| nodeName := name; nodeType := type; childNodes := [];
     parentNode := None; data := []; attribute := None; element := None |}.

(** The [content] of a template element, the only class that overrides
    [appendChild]. *)
Definition template_content (o : Object) : option ref :=
  element o ≫= e_content.

(** [array.indexOf(x)], by identity *)
Fixpoint index_of (x : ref) (l : list ref) : option nat :=
  match l with
  | [] => None
  | y :: l' => if Nat.eqb x y then Some 0 else S <$> index_of x l'
  end.

(** [array.splice(i, 0, x)] *)
Definition insert_at (i : nat) (x : ref) (l : list ref) : list ref :=
  take i l ++ x :: drop i l.

(** What a method leaves: its value and the store, or the error it throws
    with the store as it is then. *)
Inductive Result (A : Type) :=
| Ok (a : A) (h : Store)
| Err (message : str) (h : Store)
| Stuck.
Arguments Ok {A}.
Arguments Err {A}.
Arguments Stuck {A}.

(** [this.removeChild(child)] *)
Definition removeChild (h : Store) (this child : ref) : option Store :=
  t ← h !! this;
  match index_of child (childNodes t) with
  | Some i =>
      let h1 := <[this := set_childNodes (delete i (childNodes t)) t]> h in
      c ← h1 !! child;
      Some (<[child := set_parentNode None c]> h1)
  | None => Some h
  end.

(** The branch of [appendChild] for a node that is not a fragment. *)
Definition append_node (h : Store) (this node : ref) : option Store :=
  n ← h !! node;
  h1 ← match parentNode n with
        | Some p =>
            h' ← removeChild h p node;
            n' ← h' !! node;
            Some (<[node := set_parentNode None n']> h')
        | None => Some h
        end;
  t ← h1 !! this;
  let h2 := <[this := set_childNodes (childNodes t ++ [node]) t]> h1 in
  n2 ← h2 !! node;
  Some (<[node := set_parentNode (Some this) n2]> h2).

(** [this.appendChild(node)]; the method returns [this].  A template
    element hands the node to its [content]; a fragment is replaced by
    its children, one call each. *)
Fixpoint appendChild (fuel : nat) (h : Store) (this node : ref)
  : Result ref :=
  match fuel with
  | 0 => Stuck
  | S fuel =>
      match h !! this, h !! node with
      | Some t, Some n =>
          match template_content t with
          | Some content =>
              match appendChild fuel h content node with
              | Ok _ h' => Ok this h'
              | r => r
              end
          | None =>
              if (nodeType n =? DOCUMENT_FRAGMENT_NODE)%N then
                (fix each (children : list ref) (h : Store) : Result ref :=
                   match children with
                   | [] => Ok this h
                   | c :: children' =>
                       match appendChild fuel h this c with
                       | Ok _ h' => each children' h'
                       | r => r
                       end
                   end) (childNodes n) h
              else
                match append_node h this node with
                | Some h' => Ok this h'
                | None => Stuck
                end
          end
      | _, _ => Stuck
      end
  end.

Definition NotFoundError_reference : str :=
  "NotFoundError: The reference node is not a child of this node".
Definition NotFoundError_attribute : str :=
  "NotFoundError: The attribute node is not owned by this element".
Definition InUseAttributeError : str :=
  "InUseAttributeError: The attribute node is already in use by another element".

(** The branch of [insertBefore] for a node that is not a fragment, [i]
    being the index of the reference node found beforehand. *)
Definition insert_node (h : Store) (this newNode : ref) (i : nat)
  : option Store :=
  n ← h !! newNode;
  h1 ← match parentNode n with
        | Some p => removeChild h p newNode
        | None => Some h
        end;
  t ← h1 !! this;
  let h2 := <[this := set_childNodes (insert_at i newNode (childNodes t)) t]> h1 in
  n2 ← h2 !! newNode;
  Some (<[newNode := set_parentNode (Some this) n2]> h2).

(** [this.insertBefore(newNode, referenceNode)] *)
Fixpoint insertBefore (fuel : nat) (h : Store) (this newNode : ref)
  (referenceNode : option ref) : Result ref :=
  match referenceNode with
  | None => appendChild fuel h this newNode
  | Some reference =>
      match fuel with
      | 0 => Stuck
      | S fuel =>
          match h !! this, h !! newNode with
          | Some t, Some n =>
              match index_of reference (childNodes t) with
              | None => Err NotFoundError_reference h
              | Some i =>
                  if (nodeType n =? DOCUMENT_FRAGMENT_NODE)%N then
                    (fix each (children : list ref) (h : Store)
                       : Result ref :=
                       match children with
                       | [] => Ok newNode h
                       | c :: children' =>
                           match insertBefore fuel h this c referenceNode
                           with
                           | Ok _ h' => each children' h'
                           | r => r
                           end
                       end) (childNodes n) h
                  else
                    match insert_node h this newNode i with
                    | Some h' => Ok newNode h'
                    | None => Stuck
                    end
              end
          | _, _ => Stuck
          end
      end
  end.

(** *** Attributes *)

(** A reference that the store does not hold yet. *)
Definition new_ref (h : Store) : ref := fresh (dom h).

(** [new AttributeNode(name, namespace, ownerElement)] *)
Definition new_AttributeNode (name : str) (namespace : option str)
  (ownerElement : option ref) : Object :=
  set_attribute
    {| a_name := name; a_namespace := namespace;
       a_ownerElement := ownerElement; a_value := None |}
    (new_Node name ATTRIBUTE_NODE).

(** A namespace counts when it is a non-empty string. *)
Definition namespace_of (a : AttributeFields) : option str :=
  match a_namespace a with
  | Some (c :: ns) => Some (c :: ns)
  | _ => None
  end.

(** [attr.value = value]: the node records the value and puts itself in
    the map of its owner that its namespace selects. *)
Definition set_value (h : Store) (attr : ref) (value : str)
  : option Store :=
  o ← h !! attr;
  a ← attribute o;
  let a' := {| a_name := a_name a; a_namespace := a_namespace a;
               a_ownerElement := a_ownerElement a;
               a_value := Some value |} in
  let h1 := <[attr := set_attribute a' o]> h in
  match a_ownerElement a with
  | Some owner =>
      w ← h1 !! owner;
      e ← element w;
      let e' :=
        match namespace_of a with
        | Some ns =>
            {| e_namespace := e_namespace e; e_style := e_style e;
               e_attributes := e_attributes e;
               e_attributesNS :=
                 map_set ns
                   (map_set (a_name a) attr
                      (default [] (obj_get ns (e_attributesNS e))))
                   (e_attributesNS e);
               e_content := e_content e |}
        | None =>
            {| e_namespace := e_namespace e; e_style := e_style e;
               e_attributes := map_set (a_name a) attr (e_attributes e);
               e_attributesNS := e_attributesNS e;
               e_content := e_content e |}
        end in
      Some (<[owner := set_element e' w]> h1)
  | None => Some h1
  end.

(** [attr.value] *)
Definition get_value (h : Store) (attr : ref) : option str :=
  o ← h !! attr;
  a ← attribute o;
  match a_ownerElement a with
  | Some owner =>
      w ← h !! owner;
      e ← element w;
      let found :=
        match namespace_of a with
        | Some ns => obj_get ns (e_attributesNS e) ≫= obj_get (a_name a)
        | None => obj_get (a_name a) (e_attributes e)
        end in
      match found with
      | Some r =>
          o' ← h !! r;
          a' ← attribute o';
          Some (default [] (a_value a'))
      | None => Some []
      end
  | None => Some (default [] (a_value a))
  end.

(** [element.setAttribute(name, value)] *)
Definition setAttribute (h : Store) (this : ref) (name value : str)
  : option Store :=
  let attrNode := new_ref h in
  let h1 := <[attrNode := new_AttributeNode name None (Some this)]> h in
  h2 ← set_value h1 attrNode value;
  w ← h2 !! this;
  e ← element w;
  Some (<[this := set_element
                    {| e_namespace := e_namespace e; e_style := e_style e;
                       e_attributes := map_set name attrNode (e_attributes e);
                       e_attributesNS := e_attributesNS e;
                       e_content := e_content e |} w]> h2).

(** [element.setAttributeNS(ns, name, value)] *)
Definition setAttributeNS (h : Store) (this : ref) (ns name value : str)
  : option Store :=
  w ← h !! this;
  e ← element w;
  let e1 :=
    match obj_get ns (e_attributesNS e) with
    | Some _ => e
    | None =>
        {| e_namespace := e_namespace e; e_style := e_style e;
           e_attributes := e_attributes e;
           e_attributesNS := map_set ns [] (e_attributesNS e);
           e_content := e_content e |}
    end in
  let h0 := <[this := set_element e1 w]> h in
  let attrNode := new_ref h0 in
  let h1 := <[attrNode := new_AttributeNode name (Some ns) (Some this)]> h0 in
  h2 ← set_value h1 attrNode value;
  w2 ← h2 !! this;
  e2 ← element w2;
  Some (<[this := set_element
                    {| e_namespace := e_namespace e2;
                       e_style := e_style e2;
                       e_attributes := e_attributes e2;
                       e_attributesNS :=
                         match obj_get ns (e_attributesNS e2) with
                         | Some m =>
                             map_set ns (map_set name attrNode m)
                               (e_attributesNS e2)
                         | None => e_attributesNS e2
                         end;
                       e_content := e_content e2 |} w2]> h2).

(** [element.hasAttribute(name)] *)
Definition hasAttribute (h : Store) (this : ref) (name : str)
  : option bool :=
  w ← h !! this;
  e ← element w;
  Some (bool_decide (is_Some (obj_get name (e_attributes e)))).

(** [element.getAttributeNode(name)], [null] as [None] *)
Definition getAttributeNode (h : Store) (this : ref) (name : str)
  : option (option ref) :=
  w ← h !! this;
  e ← element w;
  Some (obj_get name (e_attributes e)).

(** [element.getAttribute(name)], [null] as [None] *)
Definition getAttribute (h : Store) (this : ref) (name : str)
  : option (option str) :=
  w ← h !! this;
  e ← element w;
  match obj_get name (e_attributes e) with
  | Some attr => v ← get_value h attr; Some (Some v)
  | None => Some None
  end.

(** The loop of [removeAttribute] over the namespace maps: the name goes
    from each, and a map left empty goes from the outer map. *)
Definition remove_from_namespaces (name : str)
  (attributesNS : object (object ref)) : object (object ref) :=
  flat_map
    (fun entry : str * object ref =>
       match map_delete name (snd entry) with
       | [] => []
       | m => [(fst entry, m)]
       end)
    attributesNS.

(** [element.removeAttribute(name)] *)
Definition removeAttribute (h : Store) (this : ref) (name : str)
  : option Store :=
  w ← h !! this;
  e ← element w;
  Some (<[this := set_element
                    {| e_namespace := e_namespace e;
                       e_style := if str_eqb name "style" then []
                                  else e_style e;
                       e_attributes := map_delete name (e_attributes e);
                       e_attributesNS :=
                         remove_from_namespaces name (e_attributesNS e);
                       e_content := e_content e |} w]> h).

End Dom.


(** ** Inputs and observations used in the statements *)

Definition selectors_markup : str :=
  ("<div class=" : str) ++ [DQ] ++ ("a b" : str) ++ [DQ]
  ++ ("><span id=" : str) ++ [DQ] ++ ("x" : str) ++ [DQ] ++ ("/></div>" : str).

Definition selectors_span : Node :=
  Element "span" [("id" : str, "x" : str)] [].

Definition selectors_div : Node :=
  Element "div" [("class" : str, "a b" : str)] [selectors_span].

Definition img_markup : str := "<img src='x.png'/>".

Definition img_tag_opening : str :=
  ("<img src=" : str) ++ [DQ] ++ ("x.png" : str) ++ [DQ].

Definition img_escaped : str := "&lt;img src='x.png'/&gt;".

Definition img_element : Node :=
  Element "img" [("src" : str, "x.png" : str)] [].

(** [toHTML()] of the document parsed from [text], when [parse] returns. *)
Definition toHTML_of_parse (text : str) : option str :=
  match parse text with
  | Returned doc _ => Some (toHTML no_options doc)
  | _ => None
  end.


Definition comment_markup : str := "<d><!--w--><dd/></d>".

(** What the consumer of [iterMarkers] gets in at most [fuel] requests,
    and where it leaves [lastIndex]. *)
Fixpoint take_markers (fuel : nat) (text : str) (g : MarkerGen)
  (lastIndex : nat) : list Marker * MarkerGen * nat :=
  match fuel with
  | 0 => ([], g, lastIndex)
  | S fuel =>
      match iterMarkers_next text g lastIndex with
      | (Yield m, g', lastIndex') =>
          let '(ms, g'', lastIndex'') := take_markers fuel text g' lastIndex' in
          (m :: ms, g'', lastIndex'')
      | (_, g', lastIndex') => ([], g', lastIndex')
      end
  end.

Definition marker_summary (m : Marker) : MarkerType * str :=
  (type m, marker_text m).

(** A list without the first occurrence of [c]: what [removeChild] leaves
    of the children. *)
Definition remove_first (c : Dom.ref) (l : list Dom.ref) : list Dom.ref :=
  match Dom.index_of c l with
  | Some i => delete i l
  | None => l
  end.

(** A parent [0] with no child, a fragment [1] holding the node [2], and an
    element [3] holding the node [4]. *)
Definition sample_store : Dom.Store :=
  {[ 0 := Dom.new_Node "div" ELEMENT_NODE;
     1 := Dom.set_childNodes [2]
            (Dom.new_Node "document-fragment" DOCUMENT_FRAGMENT_NODE);
     2 := Dom.set_parentNode (Some 1) (Dom.new_Node "b" ELEMENT_NODE);
     3 := Dom.set_childNodes [4] (Dom.new_Node "p" ELEMENT_NODE);
     4 := Dom.set_parentNode (Some 3) (Dom.new_Node "i" ELEMENT_NODE) ]}.

(** The store that a method leaves when it returns. *)
Definition store_of {A : Type} (r : Dom.Result A) : option Dom.Store :=
  match r with
  | Dom.Ok _ h => Some h
  | _ => None
  end.

Definition parent_in (h : option Dom.Store) (x : Dom.ref)
  : option (option Dom.ref) :=
  h ≫= (fun h => Dom.parentNode <$> h !! x).

Definition children_in (h : option Dom.Store) (x : Dom.ref)
  : option (list Dom.ref) :=
  h ≫= (fun h => Dom.childNodes <$> h !! x).

(** [new Element(name)] *)
Definition new_Element (name : str) : Dom.Object :=
  Dom.set_element
    {| Dom.e_namespace := None; Dom.e_style := []; Dom.e_attributes := [];
       Dom.e_attributesNS := []; Dom.e_content := None |}
    (Dom.new_Node name ELEMENT_NODE).

Definition element_store : Dom.Store := {[ 0 := new_Element "a" ]}.

Definition XLINK : str := "http://www.w3.org/1999/xlink".

(** ** The round trip through the serializer *)

(** [{ doctype: false }] *)
Definition without_prolog : Options :=
  {| opt_comments := true; opt_doctype := false; opt_html := false |}.

(** Two lists related pairwise. *)
Fixpoint all2 {A : Type} (r : A -> A -> bool) (l l' : list A) : bool :=
  match l, l' with
  | [], [] => true
  | x :: l, y :: l' => r x y && all2 r l l'
  | _, _ => false
  end.

Definition strip_spaces (s : str) : str :=
  filter (fun c => is_space c = false) s.

Definition attributes_eqb (a b : object str) : bool :=
  all2 (fun x y => str_eqb (fst x) (fst y) && str_eqb (snd x) (snd y)) a b.

(** Structural equivalence: the same nodes with the same names and
    attributes, and the same text up to white space. *)
Fixpoint equivalent (a b : Node) : bool :=
  match a, b with
  | Document cs, Document cs' => all2 equivalent cs cs'
  | DocumentFragment cs, DocumentFragment cs' => all2 equivalent cs cs'
  | Element n at_ cs, Element n' at' cs' =>
      str_eqb n n' && attributes_eqb at_ at' && all2 equivalent cs cs'
  | TemplateElement n at_ cs, TemplateElement n' at' cs' =>
      str_eqb n n' && attributes_eqb at_ at' && all2 equivalent cs cs'
  | TextNode d, TextNode d' => str_eqb (strip_spaces d) (strip_spaces d')
  | Comment d, Comment d' => str_eqb (strip_spaces d) (strip_spaces d')
  | _, _ => false
  end.

(** [parse(toXML(parse(M), options))] is equivalent to [parse(M)]. *)
Definition round_trip (o : Options) (M : str) : Prop :=
  exists t t' li li',
    parse M = Returned t li /\ parse (toXML o t) = Returned t' li'
    /\ equivalent t t' = true.

(** The names that the tokenizer reads back whole: one or more characters
    of [[dw_-]], after at most one prefix of word characters then
    characters of [[dw_-]], which ends with a colon; [template] makes
    another class of element. *)
Definition good_name (name : str) : bool :=
  negb (str_eqb name "template" || str_eqb name "TEMPLATE")
  && match match_ns name with
     | Some ns =>
         match drop (length ns + 1) name with
         | (_ :: _) as nm => forallb is_tagchar nm
         | [] => false
         end
     | None =>
         match name with
         | _ :: _ => forallb is_tagchar name
         | [] => false
         end
     end.

(** The attribute names that the attribute parser reads back and that
    neither the object holding them nor the serializer moves. *)
Definition good_key (k : str) : bool :=
  negb (str_eqb k [])
  && forallb (fun c => negb (is_attr_sep c || chr_eqb c ">"%char)) k
  && negb (bool_decide (is_Some (array_index k)))
  && negb (str_eqb k "style").

(** The values that the serializer writes between double quotes as they
    are. *)
Definition good_value (v : str) : bool :=
  forallb (fun c => negb (chr_eqb DQ c || chr_eqb c ">"%char)) v.

Fixpoint distinct_keys (a : object str) : bool :=
  match a with
  | [] => true
  | (k, _) :: a' =>
      negb (bool_decide (is_Some (obj_get k a'))) && distinct_keys a'
  end.

Definition good_attributes (a : object str) : bool :=
  forallb (fun kv => good_key (fst kv) && good_value (snd kv)) a
  && distinct_keys a.

Definition is_text (n : Node) : bool :=
  match n with TextNode _ => true | _ => false end.

Fixpoint no_adjacent_text (cs : list Node) : bool :=
  match cs with
  | a :: cs' =>
      match cs' with
      | b :: _ => negb (is_text a && is_text b) && no_adjacent_text cs'
      | [] => true
      end
  | [] => true
  end.

(** The trees that come back from the serializer as they went: elements
    with a good name, good attributes and at least one child, text that is
    not blank, and no two Text nodes side by side. *)
Fixpoint good (n : Node) : bool :=
  match n with
  | TextNode d => negb (str_eqb (trim d) [])
  | Element name a cs =>
      good_name name && good_attributes a
      && negb (bool_decide (cs = @nil Node))
      && forallb good cs && no_adjacent_text cs
  | _ => false
  end.

Definition good_document (t : Node) : bool :=
  match t with
  | Document cs => forallb good cs && no_adjacent_text cs
  | _ => false
  end.

(** The tokens of the serialized text: text, opening tags, closing tags. *)
Inductive Item :=
| IText (d : str)
| IStart (name : str) (a : object str)
| IEnd (name : str).

Definition attribute_text (a : object str) : str :=
  concat (map (fun kv : str * str =>
                 (" " : str) ++ fst kv ++ ("=" : str) ++ [DQ] ++ snd kv ++ [DQ])
            a).

Definition render_item (i : Item) : str :=
  match i with
  | IText d => escape_text d
  | IStart name a => ("<" : str) ++ name ++ attribute_text a ++ (">" : str)
  | IEnd name => ("</" : str) ++ name ++ (">" : str)
  end.

Definition render (items : list Item) : str := concat (map render_item items).

Fixpoint items_of (n : Node) : list Item :=
  match n with
  | TextNode d => [IText d]
  | Element name a cs =>
      IStart name a :: concat (map items_of cs) ++ [IEnd name]
  | _ => []
  end.

Definition good_item (i : Item) : bool :=
  match i with
  | IText d => negb (str_eqb (trim d) [])
  | IStart name a => good_name name && good_attributes a
  | IEnd name => good_name name
  end.

Definition is_itext (i : Item) : bool :=
  match i with IText _ => true | _ => false end.

Fixpoint no_adjacent_itext (l : list Item) : bool :=
  match l with
  | a :: l' =>
      match l' with
      | b :: _ => negb (is_itext a && is_itext b) && no_adjacent_itext l'
      | [] => true
      end
  | [] => true
  end.

(** What the builder does with the marker of an item. *)
Definition build_item (i : Item) (stack : list Frame) : list Frame :=
  match i with
  | IText d => appendChild (TextNode d) stack
  | IStart name a => (OpenElement name a, []) :: stack
  | IEnd _ =>
      match stack with
      | f :: ((_ :: _) as rest) => appendChild (close_frame f) rest
      | _ => stack
      end
  end.

(** The marker that the tokenizer yields for an item. *)
Definition marker_for (i : Item) (m : Marker) : Prop :=
  match i with
  | IText d => type m = Content /\ marker_text m = escape_text d
  | IStart name_ a =>
      type m = Start /\ name m = Some name_
      /\ copy_attributes (attributes m) = a
  | IEnd name_ => type m = End_
  end.

(** The consumer of [iterMarkers] gets the markers [ms], then the end of
    the sequence, and [lastIndex] is [lastIndex'] then. *)
Inductive drains (text : str) : MarkerGen -> nat -> list Marker -> nat -> Prop :=
| drains_done g lastIndex g' lastIndex' :
    iterMarkers_next text g lastIndex = (Done, g', lastIndex') ->
    drains text g lastIndex [] lastIndex'
| drains_yield g lastIndex m g' lastIndex1 ms lastIndex' :
    iterMarkers_next text g lastIndex = (Yield m, g', lastIndex1) ->
    drains text g' lastIndex1 ms lastIndex' ->
    drains text g lastIndex (m :: ms) lastIndex'.

Definition round_trip_markup : str := "<d>w</d>".

Definition round_trip_sample : str :=
  "<d k='v' j='a b'>w<ns:dd>x &amp; y</ns:dd> z</d>".

(** The tree that [parse] builds for [round_trip_sample]. *)
Definition round_trip_sample_tree : Node :=
  Document
    [Element ("d" : str)
       [(("k" : str), ("v" : str)); (("j" : str), ("a b" : str))]
       [TextNode ("w" : str);
        Element ("ns:dd" : str) [] [TextNode ("x & y" : str)];
        TextNode (" z" : str)]].

(** The characters that the serializer escapes in text, and what it writes
    for each character. *)
Definition is_special (c : N) : bool :=
  chr_eqb c "&"%char || chr_eqb c ">"%char || chr_eqb c "<"%char.

Definition escape_chr (c : N) : str :=
  if chr_eqb c "&"%char then "&amp;"
  else if chr_eqb c ">"%char then "&gt;"
  else if chr_eqb c "<"%char then "&lt;"
  else [c].


(** The attribute text of the serializer after its leading space. *)
Definition attribute_body (a : object str) : str :=
  match a with
  | [] => []
  | (k, v) :: a' =>
      k ++ ("=" : str) ++ [DQ] ++ v ++ [DQ] ++ attribute_text a'
  end.

(** The map that [parseAttributes] builds from the attributes of an
    element. *)
Definition parsed_attributes (a : object str) : attr_map :=
  map (fun kv : str * str => (fst kv, Some (snd kv))) a.

(** The groups of the match of a tag. *)
Definition tag_groups_are (g : TagGroups) (closing : bool) (name : str)
  (attrs : option str) : Prop :=
  g_DOCTYPE g = None /\ g_COMMENT g = None /\ g_CDATA g = None
  /\ truthy (g_closing g) = closing /\ g_qualname g = Some name
  /\ g_attrs g = attrs.

(** The generator between two constructs, at offset [p]. *)
Definition at_loop (p : nat) : MarkerGen :=
  {| mg_queue := []; mg_inner := AtLoop p |}.


Definition starts_with_text (l : list Item) : bool :=
  match l with
  | i :: _ => is_itext i
  | [] => false
  end.

Definition ends_with_text (l : list Item) : bool := starts_with_text (rev l).

(** ** Further inputs and observations *)

(** A stack of open containers whose outermost one is the document. *)
Definition rooted (stack : list Frame) : bool :=
  match last stack with
  | Some (OpenDocument, _) => true
  | _ => false
  end.

Definition plain_text_sample : str := "a &amp; b > c".

Definition attributes_sample : object str :=
  [(("k" : str), ("v" : str)); (("j" : str), ("a b" : str))].

(** A bound on the calls that the consumer of [iterMarkers] still makes
    on a text of [n] characters: one for each marker in the queue, four
    at most for each match to come (the text before it and its markers),
    one for the text after the last match and one for the end. *)
Definition pending_calls (n : nat) (g : MarkerGen) (lastIndex : nat) : nat :=
  length (mg_queue g)
  + match mg_inner g with
    | AtLoop _ => 2 * (n - lastIndex) + 2
    | Pending _ _ => 2 * (n - lastIndex) + 5
    | Finished => 1
    end.

(** ** domish: the text of a tree *)

(** [node.data]: the text of a Text node or of a comment; the constructor
    of the other nodes leaves it empty. *)
Definition node_data (n : Node) : str :=
  match n with
  | TextNode d | Comment d => d
  | _ => []
  end.

(** [node.textContent] *)
Fixpoint textContent (n : Node) : str :=
  match n with
  | Document cs | DocumentFragment cs | Element _ _ cs =>
      match cs with
      | [] => node_data n
      | _ => concat (map textContent cs)
      end
  | TemplateElement _ _ _ | TextNode _ | Comment _ => node_data n
  end.

(** [this.nodeName && this.nodeName.toLowerCase() === "br"] *)
Definition is_br (name : str) : bool :=
  match name with
  | [] => false
  | _ => str_eqb (toLowerCase name) "br"
  end.

(** [node.iterText()]: the chunks, in order.  Documents, fragments and
    elements share one case of the source; a template element has no
    child node. *)
Fixpoint iterText (n : Node) : list str :=
  match n with
  | Document cs | DocumentFragment cs | Element _ _ cs =>
      if is_br (nodeName n) then [[LF]]
      else concat (map iterText cs)
  | TemplateElement name _ _ => if is_br name then [[LF]] else []
  | TextNode d => [escape_text d]
  | Comment _ => []
  end.

(** [node.toText()], which [node.innerText] returns. *)
Definition toText (n : Node) : str := concat (iterText n).

Definition innerText (n : Node) : str := toText n.

(** A tree without comments and without [br] elements. *)
Fixpoint text_only (n : Node) : bool :=
  match n with
  | Document cs | DocumentFragment cs => forallb text_only cs
  | Element name _ cs => negb (is_br name) && forallb text_only cs
  | TemplateElement name _ _ => negb (is_br name)
  | TextNode _ => true
  | Comment _ => false
  end.

Definition text_sample_tree : Node :=
  Element ("p" : str) []
    [TextNode ("a < b " : str);
     Element ("em" : str) [] [TextNode ("& c" : str)]].

(** ** Arrays of strings *)

(** [tokens.join(sep)] *)
Fixpoint join (sep : str) (l : list str) : str :=
  match l with
  | [] => []
  | x :: l' =>
      match l' with
      | [] => x
      | _ => x ++ sep ++ join sep l'
      end
  end.

(** ** domish: more of the node classes as objects *)
Module DomMore.
Export Dom.

(** [array[i]] for an integer [i]: [undefined], here [None], out of
    range. *)
Definition array_at (l : list ref) (i : Z) : option ref :=
  if (0 <=? i)%Z then l !! Z.to_nat i else None.

(** [array[i] = x]: the element is replaced, or added when [i] is the
    length; a greater index would leave holes, which no array of the
    module has ([None]). *)
Definition array_set (i : nat) (x : ref) (l : list ref)
  : option (list ref) :=
  if i <? length l then Some (<[i := x]> l)
  else if i =? length l then Some (l ++ [x])
  else None.

(** [node.firstChild], [null] as [None] *)
Definition firstChild (h : Store) (this : ref) : option (option ref) :=
  t ← h !! this;
  Some (childNodes t !! 0).

(** [node.lastChild] *)
Definition lastChild (h : Store) (this : ref) : option (option ref) :=
  t ← h !! this;
  let n := length (childNodes t) in
  Some (if 0 <? n then childNodes t !! (n - 1) else None).

(** [node.hasChildNodes()] *)
Definition hasChildNodes (h : Store) (this : ref) : option bool :=
  t ← h !! this;
  Some (0 <? length (childNodes t)).

(** [node._index]: the place of the node among the children of its
    parent, [-1] when it has no parent or is not among them. *)
Definition _index (h : Store) (this : ref) : option Z :=
  t ← h !! this;
  match parentNode t with
  | Some p =>
      po ← h !! p;
      Some (match index_of this (childNodes po) with
            | Some i => Z.of_nat i
            | None => (-1)%Z
            end)
  | None => Some (-1)%Z
  end.

(** [node._getSiblingAt(index, offset)] *)
Definition _getSiblingAt (h : Store) (this : ref) (index offset : Z)
  : option (option ref) :=
  t ← h !! this;
  match parentNode t with
  | Some p =>
      po ← h !! p;
      Some (array_at (childNodes po) (index + offset))
  | None => Some None
  end.

(** [node.nextSibling] *)
Definition nextSibling (h : Store) (this : ref) : option (option ref) :=
  i ← _index h this;
  _getSiblingAt h this i 1.

(** [node.previousSibling] *)
Definition previousSibling (h : Store) (this : ref)
  : option (option ref) :=
  i ← _index h this;
  _getSiblingAt h this i (-1).

(** [node._detach()] *)
Definition _detach (h : Store) (this : ref) : option Store :=
  t ← h !! this;
  match parentNode t with
  | Some p => removeChild h p this
  | None => Some h
  end.

(** [this.replaceChild(newChild, oldChild)] *)
Definition replaceChild (h : Store) (this newChild oldChild : ref)
  : option Store :=
  t ← h !! this;
  match index_of oldChild (childNodes t) with
  | Some i =>
      o ← h !! oldChild;
      let h1 := <[oldChild := set_parentNode None o]> h in
      h2 ← _detach h1 newChild;
      n ← h2 !! newChild;
      let h3 := <[newChild := set_parentNode (Some this) n]> h2 in
      t3 ← h3 !! this;
      cs ← array_set i newChild (childNodes t3);
      Some (<[this := set_childNodes cs t3]> h3)
  | None => Some h
  end.

(** *** Namespaced attributes *)

(** [element.getAttributeNS(ns, name)] *)
Definition getAttributeNS (h : Store) (this : ref) (ns name : str)
  : option (option str) :=
  w ← h !! this;
  e ← element w;
  match obj_get ns (e_attributesNS e) with
  | Some nsMap =>
      match obj_get name nsMap with
      | Some attr => v ← get_value h attr; Some (Some v)
      | None => Some None
      end
  | None => Some None
  end.

(** [element.hasAttributeNS(namespace, name)] *)
Definition hasAttributeNS (h : Store) (this : ref) (ns name : str)
  : option bool :=
  w ← h !! this;
  e ← element w;
  Some (match obj_get ns (e_attributesNS e) with
        | Some nsMap => bool_decide (is_Some (obj_get name nsMap))
        | None => false
        end).

(** [element.getAttributeNodeNS(ns, name)] *)
Definition getAttributeNodeNS (h : Store) (this : ref) (ns name : str)
  : option (option ref) :=
  w ← h !! this;
  e ← element w;
  Some (match obj_get ns (e_attributesNS e) with
        | Some nsMap => obj_get name nsMap
        | None => None
        end).

(** [element.removeAttributeNS(namespace, name)]: the name goes from the
    map of the namespace, which stays in the outer map even when empty. *)
Definition removeAttributeNS (h : Store) (this : ref) (ns name : str)
  : option Store :=
  w ← h !! this;
  e ← element w;
  match obj_get ns (e_attributesNS e) with
  | Some nsMap =>
      Some (<[this := set_element
                        {| e_namespace := e_namespace e;
                           e_style := e_style e;
                           e_attributes := e_attributes e;
                           e_attributesNS :=
                             obj_update ns (map_delete name nsMap)
                               (e_attributesNS e);
                           e_content := e_content e |} w]> h)
  | None => Some h
  end.

(** *** Token lists *)

Module TokenList.

(** [new TokenList(element, attribute)] *)
Record TokenList := {
  tl_element : ref;
  tl_attribute : str
}.

(** [this._get()] *)
Definition _get (h : Store) (this : TokenList) : option str :=
  v ← getAttribute h (tl_element this) (tl_attribute this);
  Some (default [] v).

(** [this._set(value)] *)
Definition _set (h : Store) (this : TokenList) (value : str)
  : option Store :=
  setAttribute h (tl_element this) (tl_attribute this) value.

(** [this.contains(value)] *)
Definition contains (h : Store) (this : TokenList) (value : str)
  : option bool :=
  s ← _get h this;
  Some (existsb (str_eqb value) (split_on " "%char s [])).

(** [this.add(value)] *)
Definition add (h : Store) (this : TokenList) (value : str)
  : option Store :=
  match contains h this value with
  | Some true => Some h
  | Some false =>
      v ← _get h this;
      _set h this (match v with
                   | [] => value
                   | _ => v ++ (" " : str) ++ value
                   end)
  | None => None
  end.

(** [this.remove(value)] *)
Definition remove (h : Store) (this : TokenList) (value : str)
  : option Store :=
  s ← _get h this;
  _set h this
    (join " "
       (filter (fun t => str_eqb t value = false)
          (split_on " "%char s []))).

(** [this.toggle(value)]: the value returned and the store *)
Definition toggle (h : Store) (this : TokenList) (value : str)
  : option (bool * Store) :=
  match contains h this value with
  | Some true => h' ← remove h this value; Some (false, h')
  | Some false => h' ← add h this value; Some (true, h')
  | None => None
  end.

End TokenList.

(** [element.classList] *)
Definition classList (this : ref) : TokenList.TokenList :=
  {| TokenList.tl_element := this; TokenList.tl_attribute := "class" |}.

End DomMore.

(** The element [0] of [element_store] with the class [a b]. *)
Definition class_store : Dom.Store :=
  default element_store (Dom.setAttribute element_store 0 "class" "a b").

(** A list [0] with the items [1] and [2], and an item [3] that has no
    parent. *)
Definition family_store : Dom.Store :=
  {[ 0 := Dom.set_childNodes [1; 2] (Dom.new_Node "ul" ELEMENT_NODE);
     1 := Dom.set_parentNode (Some 0) (Dom.new_Node "li" ELEMENT_NODE);
     2 := Dom.set_parentNode (Some 0) (Dom.new_Node "li" ELEMENT_NODE);
     3 := Dom.new_Node "li" ELEMENT_NODE ]}.

(** ** domish: style sheets *)

(** The start of [array.splice(start, ...)] on an array of [len]
    elements: a negative start counts from the end, and the result is
    clamped to the array. *)
Definition splice_start (len : nat) (start : Z) : nat :=
  if (start <? 0)%Z then Z.to_nat (Z.max (Z.of_nat len + start) 0)
  else Z.to_nat (Z.min start (Z.of_nat len)).

(** [sheet.deleteRule(index)], on the rules of the sheet *)
Definition deleteRule (index : Z) (cssRules : list str) : list str :=
  let a := splice_start (length cssRules) index in
  take a cssRules ++ drop (a + 1) cssRules.

(** [sheet.insertRule(rule, index)]; [index] defaults to [0] *)
Definition insertRule (rule : str) (index : Z) (cssRules : list str)
  : list str :=
  let a := splice_start (length cssRules) index in
  take a cssRules ++ rule :: drop a cssRules.

(** ** domish: names of CSS properties *)

(** The pattern [/[A-Za-z][a-z]*/g] of [toCSSPropertyName]. *)
Definition RE_PROPERTY (s : str) : option (nat * unit) :=
  match s with
  | c :: r => if is_letter c then Some (S (length (span is_lower r)), tt)
              else None
  | [] => None
  end.

(** The loop of [toCSSPropertyName]: the matches, in lower case. *)
Fixpoint property_words (fuel : nat) (name : str) (lastIndex : nat)
  : list str :=
  match fuel with
  | 0 => []
  | S fuel =>
      match exec RE_PROPERTY name lastIndex with
      | (Some (i, len, _), lastIndex') =>
          toLowerCase (take len (drop i name))
          :: property_words fuel name lastIndex'
      | (None, _) => []
      end
  end.

(** [toCSSPropertyName(name)]; the pattern is made anew at each call, and
    a match has one character at least. *)
Definition toCSSPropertyName (name : str) : str :=
  join "-" (property_words (S (length name)) name 0).

(** A name cut into pieces, each a gap of characters that are not letters
    followed by a word: a letter and a run of lower-case letters that the
    next piece does not go on with. *)
Definition is_property_word (w : str) : bool :=
  match w with
  | c :: r => is_letter c && forallb is_lower r
  | [] => false
  end.

Definition starts_lower (s : str) : bool :=
  match s with
  | c :: _ => is_lower c
  | [] => false
  end.

Fixpoint property_pieces (pieces : list (str * str)) : bool :=
  match pieces with
  | [] => true
  | (gap, w) :: rest =>
      forallb (fun c => negb (is_letter c)) gap
      && is_property_word w
      && match rest with
         | (gap', w') :: _ => negb (starts_lower (gap' ++ w'))
         | [] => true
         end
      && property_pieces rest
  end.

Definition pieces_text (pieces : list (str * str)) : str :=
  concat (map (fun p : str * str => fst p ++ snd p) pieces).

(** ** markish *)

(** [text.replace(/\s+/g, " ")]: each run of white space becomes one
    space; [in_run] tells that the previous character was white space. *)
Fixpoint replace_spaces (s : str) (in_run : bool) : str :=
  match s with
  | [] => []
  | c :: s' =>
      if is_space c then
        if in_run then replace_spaces s' true
        else 32%N :: replace_spaces s' true
      else c :: replace_spaces s' false
  end.

(** [strip(text)] *)
Definition strip (text : str) : str := trim (replace_spaces text false).

(** Every white space character is a space that follows a character
    that is not white space; [after_space] tells that the previous
    character was white space. *)
Fixpoint single_spaced (s : str) (after_space : bool) : bool :=
  match s with
  | [] => true
  | c :: s' =>
      if is_space c
      then chr_eqb c 32 && negb after_space && single_spaced s' true
      else single_spaced s' false
  end.

(** The pieces of words joined by [-]. *)
Definition kebab_pieces (ws : list str) : list (str * str) :=
  match ws with
  | [] => []
  | w :: rest => ([], w) :: map (fun w' : str => (("-" : str), w')) rest
  end.

(** A tree in which no element has a name of the tables [HTML_EMPTY] and
    [HTML_NOEMPTY]. *)
Fixpoint no_html_names (n : Node) : bool :=
  match n with
  | Document cs | DocumentFragment cs => forallb no_html_names cs
  | Element name _ cs =>
      negb (has HTML_EMPTY name) && negb (has HTML_NOEMPTY name)
      && forallb no_html_names cs
  | TemplateElement name _ _ =>
      negb (has HTML_EMPTY name) && negb (has HTML_NOEMPTY name)
  | TextNode _ | Comment _ => true
  end.

(** The element [0] of [element_store] with the attribute [href] in the
    namespace [XLINK]. *)
Definition xlink_store : Dom.Store :=
  default element_store
    (Dom.setAttributeNS element_store 0 XLINK "href" "#t").

(** ** The text that a tokenization still has to give *)

(** [m] is a match of [RE_TAG] in [text]. *)
Definition is_match (text : str) (m : RegExpExecArray) : Prop :=
  RE_TAG (drop (index m) text) = Some (length (m0 m), groups m)
  /\ m0 m = take (length (m0 m)) (drop (index m) text)
  /\ index m + length (m0 m) <= length text.

(** The text after the markers in the queue: from the offset of the inner
    generator on, or from the match that it is about to give. *)
Definition tail_text (text : str) (g : MarkerGen) : str :=
  match mg_inner g with
  | AtLoop offset => drop offset text
  | Pending m _ => drop (index m) text
  | Finished => []
  end.

(** The states that a tokenization goes through: the offset is never
    after the scan position, and a match about to be given is a match
    found after the offset. *)
Definition generator_ok (text : str) (g : MarkerGen) (lastIndex : nat)
  : Prop :=
  match mg_inner g with
  | AtLoop offset => offset <= lastIndex
  | Pending m offset =>
      mg_queue g = [] /\ is_match text m /\ offset <= index m
      /\ lastIndex = index m + length (m0 m)
  | Finished => True
  end.

(** An attribute name without a value: one character at least, none of
    them [=] or white space, and not [__proto__], which the plain object
    holding the attributes inherits as an accessor. *)
Definition bare_name (w : str) : bool :=
  negb (str_eqb w []) && forallb (fun c => negb (is_attr_sep c)) w
  && negb (str_eqb w "__proto__").

(** A template element [0] with its content fragment [1], and a
    paragraph [2] that has no parent. *)
Definition template_store : Dom.Store :=
  {[ 0 := Dom.set_element
            {| Dom.e_namespace := None; Dom.e_style := [];
               Dom.e_attributes := []; Dom.e_attributesNS := [];
               Dom.e_content := Some 1 |}
            (Dom.new_Node "template" ELEMENT_NODE);
     1 := Dom.new_Node "document-fragment" DOCUMENT_FRAGMENT_NODE;
     2 := Dom.new_Node "p" ELEMENT_NODE ]}.

(** ** markish: [markdown] *)

(** What [imarkdown] yields: a string, or one of the symbols [Space] and
    [LineBreak]. *)
Inductive MdItem :=
| MdText (s : str)
| MdSpace
| MdLineBreak.

(** The [container] of a context; no context has another one. *)
Inductive Container := ContainerUl | ContainerOl.

(** The fields of a context that [imarkdown] reads: [container],
    [index] ([None] when it is [undefined] or [NaN]) and [indent] ([0]
    when it is [undefined]). *)
Record MdContext := {
  md_container : option Container;
  md_index : option nat;
  md_indent : nat
}.

(** [{}] *)
Definition md_start : MdContext :=
  {| md_container := None; md_index := None; md_indent := 0 |}.

(** The decimal digits of a number. *)
Fixpoint decimal_digits (fuel n : nat) (acc : str) : str :=
  match fuel with
  | 0 => acc
  | S fuel =>
      let acc' := (48 + N.of_nat (n mod 10))%N :: acc in
      if n <? 10 then acc' else decimal_digits fuel (n / 10) acc'
  end.

Definition decimal (n : nat) : str := decimal_digits (S n) n [].

(** [`${v}`] for the value of [getAttribute] *)
Definition null_or (v : option str) : str := default ("null" : str) v.

(** [derive(context, { container, index: 0, indent: 1 + indent })] *)
Definition md_nested (c : Container) (context : MdContext) : MdContext :=
  {| md_container := Some c; md_index := Some 0;
     md_indent := 1 + md_indent context |}.

(** The cases of the element names: what is yielded before the children,
    the context for the children, whether the children are visited, and
    the suffix (empty when there is none). *)
Definition md_element (name : str) (node : Node) (context : MdContext)
  : list MdItem * MdContext * bool * str :=
  let prefix := concat (replicate (md_indent context) ("  " : str)) in
  if str_eqb name "ul" then
    ([MdLineBreak], md_nested ContainerUl context, true, [LF])
  else if str_eqb name "ol" then
    ([MdLineBreak; MdLineBreak], md_nested ContainerOl context, true, [LF])
  else if str_eqb name "li" then
    let index :=
      match md_container context with
      | Some ContainerOl =>
          match md_index context with
          | Some i => decimal (i + 1) ++ ("." : str)
          | None => ("NaN." : str)
          end
      | _ => ("-" : str)
      end in
    ([MdText (prefix ++ index ++ (" " : str))],
     {| md_container := md_container context;
        md_index := S <$> md_index context;
        md_indent := md_indent context |}, true, [])
  else if str_eqb name "p" then ([MdLineBreak], context, true, [LF])
  else if str_eqb name "br" then ([MdLineBreak], context, true, [])
  else if str_eqb name "strong" || str_eqb name "b" then
    ([MdText "**"], context, true, ("**" : str))
  else if str_eqb name "em" || str_eqb name "i" then
    ([MdText "_"], context, true, ("_" : str))
  else if str_eqb name "code" then
    ([MdText "`"], context, true, ("`" : str))
  else if str_eqb name "pre" then
    ([MdText "```"; MdLineBreak], context, true, ("```" : str))
  else if str_eqb name "blockquote" then
    ([MdText "> "], context, true, [LF])
  else if str_eqb name "h1" then ([MdText "# "], context, true, [LF])
  else if str_eqb name "h2" then ([MdText "## "], context, true, [LF])
  else if str_eqb name "h3" then ([MdText "### "], context, true, [LF])
  else if str_eqb name "h4" then ([MdText "#### "], context, true, [LF])
  else if str_eqb name "h5" then ([MdText "##### "], context, true, [LF])
  else if str_eqb name "h6" then ([MdText "###### "], context, true, [LF])
  else if str_eqb name "a" then
    ([MdText "["], context, true,
     ("](" : str) ++ null_or (getAttribute node "href") ++ (")" : str))
  else if str_eqb name "img" then
    ([MdText (("![" : str) ++ null_or (getAttribute node "alt")
              ++ ("](" : str) ++ null_or (getAttribute node "src")
              ++ (")" : str))], context, true, [])
  else if str_eqb name "table" then ([MdLineBreak], context, true, [LF])
  else if str_eqb name "thead" || str_eqb name "tbody"
          || str_eqb name "tfoot" then ([], context, false, [])
  else if str_eqb name "tr" then ([], context, true, [])
  else if str_eqb name "td" || str_eqb name "th" then
    ([], context, false, [])
  else ([], context, true, []).

Definition md_suffix (suffix : str) : list MdItem :=
  match suffix with
  | [] => []
  | _ => [MdText suffix]
  end.

(** [imarkdown(node, context)] for a node; documents and fragments have
    no case in the source, and give nothing. *)
Fixpoint imarkdown (node : Node) (context : MdContext) : list MdItem :=
  match node with
  | Element name _ cs =>
      let '(before, context', visit, suffix) :=
        md_element (toLowerCase name) node context in
      before
      ++ (if visit
          then concat (map (fun c => imarkdown c context') cs)
          else [])
      ++ md_suffix suffix
  | TemplateElement name _ _ =>
      let '(before, _, _, suffix) :=
        md_element (toLowerCase name) node context in
      before ++ md_suffix suffix
  | TextNode d =>
      match strip d with
      | [] => []
      | text => [MdText text; MdSpace]
      end
  | Document _ | DocumentFragment _ | Comment _ => []
  end.

(** [imarkdown(nodes)] for an array of nodes *)
Definition imarkdown_all (nodes : list Node) (context : MdContext)
  : list MdItem :=
  concat (map (fun c => imarkdown c context) nodes).

(** The loop of [markdown]: the strings pushed, [last] being the item
    before. *)
Fixpoint md_pushed (items : list MdItem) (last : option MdItem)
  : list str :=
  match items with
  | [] => []
  | item :: rest =>
      match item with
      | MdLineBreak => [[LF]]
      | MdSpace =>
          match last with
          | Some MdSpace | Some MdLineBreak => []
          | Some (MdText s) => if str_eqb s [LF] then [] else [(" " : str)]
          | None => [(" " : str)]
          end
      | MdText s => [s]
      end ++ md_pushed rest (Some item)
  end.

(** [s.replace(/\n{3,}/g, "\n\n")]; [run] counts the line feeds just
    before. *)
Fixpoint collapse_newlines (s : str) (run : nat) : str :=
  match s with
  | [] => []
  | c :: s' =>
      if chr_eqb c LF then
        if run <? 2 then c :: collapse_newlines s' (S run)
        else collapse_newlines s' (S run)
      else c :: collapse_newlines s' 0
  end.

Definition markdown_of (items : list MdItem) : str :=
  trim (collapse_newlines (concat (md_pushed items None)) 0).

(** [markdown(node)] for a node, and for an array of nodes *)
Definition markdown (node : Node) : str :=
  markdown_of (imarkdown node md_start).

Definition markdown_all (nodes : list Node) : str :=
  markdown_of (imarkdown_all nodes md_start).

(** No run of line feeds is longer than two, [run] line feeds coming just
    before. *)
Fixpoint newline_runs (s : str) (run : nat) : bool :=
  match s with
  | [] => true
  | c :: s' =>
      if chr_eqb c LF then (run <? 2) && newline_runs s' (S run)
      else newline_runs s' 0
  end.

Definition markdown_sample : list Node :=
  [Element ("h1" : str) [] [TextNode ("  The   title " : str)];
   Element ("ol" : str) []
     [Element ("li" : str) [] [TextNode ("one" : str)];
      Element ("li" : str) [] [TextNode ("two" : str)]]].

(** ** Keys that an assignment creates

    [attributes[name] = value] on the plain object that the tokenizer
    hands to [parseAttributes] creates the key [name], except for
    [__proto__], which the object inherits as an accessor: the facts about
    attribute names read from markup leave that name out. *)
Definition ordinary_keys (a : object str) : bool :=
  forallb (fun kv : str * str => negb (str_eqb (fst kv) "__proto__")) a.

Fixpoint ordinary_keys_tree (n : Node) : bool :=
  match n with
  | Document cs | DocumentFragment cs => forallb ordinary_keys_tree cs
  | Element _ a cs | TemplateElement _ a cs =>
      ordinary_keys a && forallb ordinary_keys_tree cs
  | TextNode _ | Comment _ => true
  end.

(** * Facts *)

(** ** The attribute parser *)

Lemma find_first_app_hit (p : N -> bool) (l1 l2 : str) (c : N) :
  forallb (fun x => negb (p x)) l1 = true -> p c = true ->
  find_first p (l1 ++ c :: l2) = Some (length l1).
Proof.
  induction l1 as [|x l1 IH]; simpl; intros Hall Hc.
  - by rewrite Hc.
  - apply andb_prop in Hall as [Hx Hall].
    apply negb_true_iff in Hx. rewrite Hx, (IH Hall Hc). done.
Qed.

Lemma find_first_none (p : N -> bool) (l : str) :
  forallb (fun x => negb (p x)) l = true -> find_first p l = None.
Proof.
  induction l as [|x l IH]; simpl; [done|]. intros Hall.
  apply andb_prop in Hall as [Hx Hall]. apply negb_true_iff in Hx.
  by rewrite Hx, (IH Hall).
Qed.

(** A call that recurses on its own text never returns. *)
Lemma parseAttributes_repeats (text : str) (f : attr_map -> attr_map) :
  (forall fuel a,
     parseAttributes (S fuel) text a = parseAttributes fuel text (f a)) ->
  forall fuel a, parseAttributes fuel text a = None.
Proof.
  intros Hstep fuel. induction fuel as [|fuel IH]; intros a; [done|].
  rewrite Hstep. apply IH.
Qed.

(** C1: [parseAttributes] does not return on [a=1], an unquoted value at the
    end of the input: whatever the number of calls allowed, the recursion is
    still running, each call recursing on the whole text again. *)
Theorem parseAttributes_unquoted_value_at_end (fuel : nat) (attributes : attr_map) :
  parseAttributes fuel "a=1" attributes = None.
Proof.
  revert fuel attributes.
  apply (parseAttributes_repeats _ (obj_set ("a" : str) (Some ("1" : str)))).
  intros fuel a. reflexivity.
Qed.

(** The step of the parser on a quoted value that is not closed: the text
    of the next call is the text of this one. *)
Lemma parseAttributes_unclosed_step (name rest : str) (q : N) :
  q = SQ \/ q = DQ ->
  forallb (fun c => negb (is_attr_sep c)) name = true ->
  forallb (fun c => negb (chr_eqb q c)) rest = true ->
  trim (name ++ ("=" : str) ++ q :: rest) = name ++ ("=" : str) ++ q :: rest ->
  exists f, forall fuel a,
    parseAttributes (S fuel) (name ++ ("=" : str) ++ q :: rest) a
    = parseAttributes fuel (name ++ ("=" : str) ++ q :: rest) (f a).
Proof.
  intros Hq Hname Hrest Htrim.
  set (text := name ++ ("=" : str) ++ q :: rest) in *.
  assert (Hsep : RE_ATTR_SEP_match text = Some (length name, 61%N)).
  { unfold RE_ATTR_SEP_match, text. change (("=" : str) ++ q :: rest) with (61%N :: q :: rest).
    rewrite (find_first_app_hit is_attr_sep name (q :: rest) 61%N Hname eq_refl).
    rewrite lookup_app_r by lia. by rewrite Nat.sub_diag. }
  assert (Hlen : length text = length name + 2 + length rest).
  { unfold text. rewrite length_app. simpl. lia. }
  assert (Hchr : text !! (length name + 1) = Some q).
  { unfold text. rewrite lookup_app_r by lia.
    replace (length name + 1 - length name) with 1 by lia. done. }
  assert (Hidx : indexOf text q (Z.of_nat (length name) + 2) = (-1)%Z).
  { unfold indexOf, clamp. rewrite Hlen.
    replace (Z.to_nat _) with (length name + 2) by lia.
    unfold text. rewrite drop_app_ge by lia.
    replace (length name + 2 - length name) with 2 by lia. simpl. rewrite drop_0.
    by rewrite (find_first_none _ _ Hrest). }
  assert (Hnext : trim (substring_from text (-1 + 1)) = text).
  { unfold substring_from, clamp.
    replace (Z.to_nat _) with 0 by lia. exact Htrim. }
  assert (Hend :
    (if bool_decide (Some q = Some SQ)
     then indexOf text SQ (Z.of_nat (length name) + 2)
     else if bool_decide (Some q = Some DQ)
          then indexOf text DQ (Z.of_nat (length name) + 2)
          else indexOf text " "%char (Z.of_nat (length name))) = (-1)%Z).
  { destruct Hq as [-> | ->]; [by rewrite bool_decide_eq_true_2|].
    rewrite bool_decide_eq_false_2 by (by unfold SQ, DQ).
    by rewrite bool_decide_eq_true_2. }
  clearbody text. destruct text as [|c t]; [simpl in Hlen; lia|].
  eexists (fun a => _). intros fuel a.
  cbn [parseAttributes]. rewrite Hsep. cbn [chr_eqb N.eqb Pos.eqb].
  replace (length (c :: t) <=? length name + 1) with false
    by (symmetry; apply Nat.leb_gt; lia).
  rewrite Hchr, Hend. cbn [Z.eqb Pos.eqb].
  rewrite Hnext. reflexivity.
Qed.

(** C9: on attribute text whose value opens with a quote that is never
    closed, [parseAttributes] does not return: whatever the number of calls
    allowed, the recursion is still running. *)
Theorem parseAttributes_unclosed_quote (name rest : str) (q : N)
  (fuel : nat) (attributes : attr_map) :
  q = SQ \/ q = DQ ->
  forallb (fun c => negb (is_attr_sep c)) name = true ->
  forallb (fun c => negb (chr_eqb q c)) rest = true ->
  trim (name ++ ("=" : str) ++ q :: rest) = name ++ ("=" : str) ++ q :: rest ->
  parseAttributes fuel (name ++ ("=" : str) ++ q :: rest) attributes = None.
Proof.
  intros Hq Hname Hrest Htrim.
  destruct (parseAttributes_unclosed_step name rest q Hq Hname Hrest Htrim)
    as [f Hf].
  by apply (parseAttributes_repeats _ f).
Qed.

Lemma parseAttributes_unclosed_quote_witness :
  parseAttributes 1000 (("a" : str) ++ ("=" : str) ++ SQ :: ("abc" : str)) [] = None.
Proof.
  apply (parseAttributes_unclosed_quote "a" "abc" SQ 1000 []).
  - by left.
  - reflexivity.
  - reflexivity.
  - reflexivity.
Defined.

(** ** The tokenizer and the tree builder on fixed inputs *)

(** Every selector that [Query] compiles is blank: no type, no name. *)
Lemma Query_blank (query : str) :
  Forall (fun s => s = selector_of None) (Query query).
Proof.
  unfold Query. apply Forall_forall. intros s Hs.
  apply list_elem_of_fmap in Hs as (m & -> & _). reflexivity.
Qed.

(** A blank selector rejects every node whose name is not empty. *)
Lemma Query_match_blank (s : Selector) (rest : list Selector) (n : Node) :
  s = selector_of None -> nodeName n <> [] ->
  Query_match (s :: rest) n = Some false.
Proof.
  intros -> Hname. cbn [Query_match].
  destruct (negb (nodeType n =? ELEMENT_NODE)%N); [done|].
  cbn [selector_of sel_type sel_name str_eqb].
  destruct (nodeName n) as [|c name]; [done|]. reflexivity.
Qed.

(** C3: the three queries of the claim find nothing:
    [querySelector("#x")] is [undefined], and [querySelectorAll(".a")] and
    [querySelectorAll("div span")] are empty.  This holds on the tree
    that the claim describes, a div of class [a b] holding a span of id
    [x]: the selectors compiled from a query are blank and match no
    element that has a name.  It holds as well on the tree that [parse]
    returns for the markup of the claim, which has no element: [div] and
    [span] are not names of the tag pattern and the markup is read as one
    Text node. *)
Theorem selectors_find_nothing :
  (querySelector (Document [selectors_div]) "#x" = Some None
   /\ querySelectorAll (Document [selectors_div]) ".a" = Some []
   /\ querySelectorAll (Document [selectors_div]) "div span" = Some [])
  /\ parse selectors_markup
     = Returned (Document [TextNode selectors_markup]) 0
  /\ querySelector (Document [TextNode selectors_markup]) "#x" = Some None
  /\ querySelectorAll (Document [TextNode selectors_markup]) ".a" = Some []
  /\ querySelectorAll (Document [TextNode selectors_markup]) "div span"
     = Some [].
Proof. vm_compute. auto 10. Qed.

(** C4: [toHTML()] of the document parsed from [<img src='x.png'/>] is not
    a tag: it is the XML prolog followed by the markup itself with its
    [<] and [>] escaped.  [img] is not a name of the tag pattern, so the
    markup is read as one Text node.  On the img element itself, built
    with its attribute [src], [toHTML()] gives the prolog and one tag that
    closes with a space and a bare [>]. *)
Theorem img_toHTML_is_escaped_text :
  parse img_markup = Returned (Document [TextNode img_markup]) 0
  /\ toHTML_of_parse img_markup = Some (XML_PROLOG ++ img_escaped)
  /\ toHTML no_options (Document [img_element])
     = XML_PROLOG ++ img_tag_opening ++ (" >" : str).
Proof. vm_compute. auto. Qed.

(** C5: a comment inside an open element.  The builder appends a Comment
    node holding the opening delimiter, then a Text node holding the
    interior, and the End marker of the comment closes the open element
    [d]: the element [dd] that follows lands in the document, not in [d]. *)
Theorem comment_interior_becomes_text_and_closes_parent :
  parse comment_markup
  = Returned
      (Document [Element "d" [] [Comment "<!--"; TextNode "w"];
                 Element "dd" [] []]) 0.
Proof. vm_compute. reflexivity. Qed.

(** The same on the markers, for every special construct met inside an open
    element: after the Start marker whose name begins with [!], the builder
    treats the Content marker as any text, and the End marker as any
    closing tag. *)
Lemma special_construct_markers (s c e : Marker) (top next : Frame)
  (rest : list Frame) :
  type s = Start -> starts_with "!" (default [] (name s)) = true ->
  type c = Content -> trim (expandEntities (marker_text c)) <> [] ->
  type e = End_ ->
  parse_marker e (parse_marker c (parse_marker s (top :: next :: rest)))
  = appendChild
      (close_frame
         (fst top,
          snd top ++ [Comment (rawtext (fragment s));
                       TextNode (expandEntities (marker_text c))]))
      (next :: rest).
Proof.
  intros Hs Hbang Hc Htext He. destruct top as [o cs].
  unfold parse_marker at 3. rewrite Hs, Hbang.
  unfold parse_marker at 2. rewrite Hc.
  destruct (trim (expandEntities (marker_text c))) eqn:Ht; [done|].
  unfold parse_marker. rewrite He. cbn [appendChild fst snd].
  by rewrite <- app_assoc.
Qed.

(** C6: the scan position of the tokenizer outlives a run.  [parse] of
    [<d w=1>] does not return (the attribute parser never does on [w=1])
    and leaves [lastIndex] at 7; the next [parse] of [<w>] starts its scan
    there, past the end of its text, finds no tag and returns one Text
    node, where a run on its own returns the element [w]. *)
Theorem tokenizer_scan_position_is_shared :
  parse "<d w=1>" = Thrown 7
  /\ parse "<w>" = Returned (Document [Element "w" [] []]) 0
  /\ parse_from 7 "<w>" = Returned (Document [TextNode "<w>"]) 0.
Proof. vm_compute. auto. Qed.

(** Two tokenizations interleaved: after the first marker of [<d><w>] has
    been taken, the markers of [<dd>] are one Content marker for the whole
    text, where a run on its own gives the Start marker of the tag. *)
Lemma interleaved_tokenizations :
  let '(_, _, lastIndex) := take_markers 1 "<d><w>" iterMarkers_start 0 in
  lastIndex = 3
  /\ map marker_summary
       (fst (fst (take_markers 10 "<dd>" iterMarkers_start lastIndex)))
     = [(Content, "<dd>" : str)]
  /\ map marker_summary
       (fst (fst (take_markers 10 "<dd>" iterMarkers_start 0)))
     = [(Start, "<dd>" : str)].
Proof. vm_compute. auto. Qed.

(** ** The mutation methods *)

Section dom_facts.
Import Dom.

Lemma index_of_None (c : ref) (l : list ref) :
  index_of c l = None <-> c ∉ l.
Proof.
  induction l as [|y l IH]; simpl.
  - split; [intros _; apply not_elem_of_nil | done].
  - destruct (Nat.eqb_spec c y) as [->|Hne].
    + split; [done | intros H; exfalso; apply H; left].
    + rewrite not_elem_of_cons. destruct (index_of c l); simpl.
      * split; [done | intros [_ H]; by apply IH in H].
      * split; [intros _; split; [done | by apply IH] | done].
Qed.

Lemma remove_first_cons (c y : ref) (l : list ref) :
  remove_first c (y :: l) = if Nat.eqb c y then l else y :: remove_first c l.
Proof.
  unfold remove_first. simpl. destruct (Nat.eqb c y); [done|].
  by destruct (index_of c l).
Qed.

Lemma remove_first_not_in (c : ref) (l : list ref) :
  NoDup l -> c ∉ remove_first c l.
Proof.
  induction l as [|y l IH]; intros Hnd.
  - apply not_elem_of_nil.
  - rewrite remove_first_cons. apply NoDup_cons in Hnd as [Hy Hnd].
    destruct (Nat.eqb_spec c y) as [->|Hne]; [done|].
    rewrite not_elem_of_cons. split; [done | by apply IH].
Qed.

Lemma count_occ_not_in (c : ref) (l : list ref) :
  c ∉ l -> count_occ Nat.eq_dec l c = 0.
Proof.
  intros H. apply count_occ_not_In. by rewrite <- list_elem_of_In.
Qed.

Lemma count_occ_snoc (c : ref) (l : list ref) :
  c ∉ l -> count_occ Nat.eq_dec (l ++ [c]) c = 1.
Proof.
  intros H. rewrite count_occ_app, (count_occ_not_in _ _ H). simpl.
  by destruct (Nat.eq_dec c c).
Qed.

(** What [removeChild] leaves at each reference: the children of [this]
    lose the first occurrence of [child], and [child] loses its parent
    if it was found. *)
Lemma removeChild_lookup (h : Store) (this child : ref) (t c : Object) :
  h !! this = Some t -> h !! child = Some c ->
  exists h', removeChild h this child = Some h'
    /\ (child ∉ childNodes t -> h' = h)
    /\ forall x xo, h !! x = Some xo ->
         exists xo', h' !! x = Some xo'
           /\ childNodes xo'
              = (if decide (x = this) then remove_first child (childNodes xo)
                 else childNodes xo)
           /\ parentNode xo'
              = (if decide (x = child /\ child ∈ childNodes t) then None
                 else parentNode xo)
           /\ nodeType xo' = nodeType xo
           /\ element xo' = element xo.
Proof.
  intros Ht Hc. unfold removeChild. rewrite Ht. simpl.
  destruct (index_of child (childNodes t)) as [i|] eqn:Hi.
  - assert (Hin : child ∈ childNodes t).
    { destruct (decide (child ∈ childNodes t)) as [|Hn]; [done|].
      apply index_of_None in Hn. congruence. }
    destruct (decide (child = this)) as [->|Hne].
    + rewrite lookup_insert_eq. simpl. eexists. split; [done|]. split; [done|].
      intros x xo Hx. destruct (decide (x = this)) as [->|Hx'].
      * rewrite lookup_insert_eq. eexists. split; [done|]. simpl.
        rewrite Ht in Hx. injection Hx as <-.
        unfold remove_first. rewrite Hi.
        rewrite decide_True by done. done.
      * rewrite !lookup_insert_ne by done. eexists. split; [done|].
        rewrite decide_False by (intros [? _]; done). done.
    + rewrite lookup_insert_ne by done. rewrite Hc. simpl.
      eexists. split; [done|]. split; [done|].
      intros x xo Hx. destruct (decide (x = child)) as [->|Hx'].
      * rewrite lookup_insert_eq. eexists. split; [done|]. simpl.
        rewrite Hc in Hx. injection Hx as <-.
        rewrite decide_False by done. rewrite decide_True by done. done.
      * rewrite lookup_insert_ne by done.
        destruct (decide (x = this)) as [->|Hx''].
        -- rewrite lookup_insert_eq. eexists. split; [done|]. simpl.
           rewrite Ht in Hx. injection Hx as <-.
           unfold remove_first. rewrite Hi.
           rewrite decide_False by (intros [? _]; done). done.
        -- rewrite lookup_insert_ne by done. eexists. split; [done|].
           rewrite decide_False by (intros [? _]; done). done.
  - assert (Hn : child ∉ childNodes t) by (by apply index_of_None).
    eexists. split; [done|]. split; [done|].
    intros x xo Hx. eexists. split; [done|].
    unfold remove_first.
    destruct (decide (x = this)) as [->|].
    + rewrite Ht in Hx. injection Hx as <-. rewrite Hi.
      rewrite decide_False by (intros [_ ?]; done). done.
    + rewrite decide_False by (intros [_ ?]; done). done.
Qed.

(** The first step of [appendChild] on a node that is not a fragment: the
    node leaves the children of its parent. *)
Lemma detach_lookup (h : Store) (node : ref) (n : Object) :
  h !! node = Some n ->
  (forall p, parentNode n = Some p -> is_Some (h !! p)) ->
  exists h1,
    match parentNode n with
    | Some p =>
        h' ← removeChild h p node;
        n' ← h' !! node;
        Some (<[node := set_parentNode None n']> h')
    | None => Some h
    end = Some h1
    /\ forall x xo, h !! x = Some xo ->
         exists xo', h1 !! x = Some xo'
           /\ childNodes xo'
              = (if decide (parentNode n = Some x)
                 then remove_first node (childNodes xo) else childNodes xo)
           /\ nodeType xo' = nodeType xo
           /\ element xo' = element xo.
Proof.
  intros Hn Hp. destruct (parentNode n) as [p|] eqn:Hpar.
  - destruct (Hp p eq_refl) as [po Hpo].
    destruct (removeChild_lookup h p node po n Hpo Hn) as (h' & -> & _ & Hl).
    simpl. destruct (Hl node n Hn) as (n' & Hn' & Hcs & _ & Hty & Hel).
    rewrite Hn'. simpl. eexists. split; [done|].
    intros x xo Hx. destruct (Hl x xo Hx) as (xo' & Hxo' & Hcs' & _ & Hty' & Hel').
    destruct (decide (x = node)) as [->|Hne].
    + rewrite lookup_insert_eq. eexists. split; [done|]. simpl.
      rewrite Hn in Hx. injection Hx as <-. rewrite Hcs, Hty, Hel.
      split; [|done].
      destruct (decide (node = p)) as [->|Hnp].
      * by rewrite decide_True.
      * rewrite decide_False; [done | congruence].
    + rewrite lookup_insert_ne by done. eexists. split; [done|].
      rewrite Hcs', Hty', Hel'. split; [|done].
      destruct (decide (x = p)) as [->|Hxp].
      * by rewrite decide_True.
      * rewrite decide_False; [done | congruence].
  - eexists. split; [done|]. intros x xo Hx. eexists. split; [done|].
    by rewrite decide_False.
Qed.

(** C7, amended: [N] is not a fragment and [A] is not a template element;
    [A] lists each child once, lists [N] only if [N]'s parent is [A], and
    the parent of [N], if any, is in the store.  Then [appendChild(A, N)]
    leaves [N] with parent [A] and exactly once among the children of [A],
    where it is the last; [N] is first detached from its parent: the
    children of a former parent other than [A] lose their first [N], so
    that a parent that listed [N] once lists it no more, and [A] itself,
    if it was the parent, loses its first [N] before [N] is added at the
    end.  For a node [B] that lists each child once, [removeChild(B, N)]
    takes [N] out of the children of [B], leaves [N] with no parent if it
    was a child of [B], and changes nothing if it was not. *)
Theorem appendChild_removeChild_links (fuel : nat) (h : Store)
  (A N B : ref) (a n b : Object) :
  h !! A = Some a -> h !! N = Some n -> h !! B = Some b ->
  nodeType n <> DOCUMENT_FRAGMENT_NODE ->
  template_content a = None ->
  NoDup (childNodes a) -> NoDup (childNodes b) ->
  (N ∈ childNodes a -> parentNode n = Some A) ->
  (forall p, parentNode n = Some p -> is_Some (h !! p)) ->
  (exists h' a' n',
     appendChild (S fuel) h A N = Ok A h'
     /\ h' !! A = Some a' /\ h' !! N = Some n'
     /\ parentNode n' = Some A
     /\ count_occ Nat.eq_dec (childNodes a') N = 1
     /\ childNodes a'
        = (if decide (parentNode n = Some A)
           then remove_first N (childNodes a) else childNodes a) ++ [N]
     /\ forall P p, parentNode n = Some P -> P <> A -> h !! P = Some p ->
          exists p', h' !! P = Some p'
            /\ childNodes p' = remove_first N (childNodes p)
            /\ (NoDup (childNodes p) -> N ∉ childNodes p'))
  /\ (exists h' b' n',
        removeChild h B N = Some h'
        /\ h' !! B = Some b' /\ h' !! N = Some n'
        /\ childNodes b' = remove_first N (childNodes b)
        /\ (N ∉ childNodes b')
        /\ (N ∈ childNodes b -> parentNode n' = None)
        /\ (N ∉ childNodes b -> h' = h)).
Proof.
  intros HA HN HB Hfrag Htpl Hnd Hndb Hin Hpar. split.
  - cbn [appendChild]. rewrite HA, HN, Htpl.
    destruct (N.eqb_spec (nodeType n) DOCUMENT_FRAGMENT_NODE) as [|_]; [done|].
    unfold append_node. rewrite HN. cbn [mbind option_bind].
    destruct (detach_lookup h N n HN Hpar) as (h1 & -> & Hl).
    cbn [mbind option_bind].
    destruct (Hl A a HA) as (a1 & Ha1 & Hcs1 & _ & _).
    rewrite Ha1. cbn [mbind option_bind].
    assert (Hnot : N ∉ childNodes a1).
    { rewrite Hcs1. destruct (decide (parentNode n = Some A)) as [|Hne].
      - by apply remove_first_not_in.
      - intros Hc. by apply Hne, Hin. }
    assert (Hformer : forall h' : Store,
               (forall x, x <> A -> x <> N ->  h' !! x = h1 !! x) ->
               (forall no, N <> A -> h1 !! N = Some no ->
                  exists no', h' !! N = Some no'
                              /\ childNodes no' = childNodes no) ->
               forall P p, parentNode n = Some P -> P <> A ->
                 h !! P = Some p ->
                 exists p', h' !! P = Some p'
                   /\ childNodes p' = remove_first N (childNodes p)
                   /\ (NoDup (childNodes p) -> N ∉ childNodes p')).
    { intros h' Hother Hself P p HP HPA Hp.
      destruct (Hl P p Hp) as (p1 & Hp1 & Hcsp & _ & _).
      rewrite decide_True in Hcsp by done.
      destruct (decide (P = N)) as [->|HPN].
      - destruct (Hself p1 HPA Hp1) as (p' & Hp' & Hcs').
        exists p'. split; [done|]. rewrite Hcs', Hcsp. split; [done|].
        intros Hndp. by apply remove_first_not_in.
      - exists p1. rewrite Hother by done. split; [done|]. split; [done|].
        intros Hndp. rewrite Hcsp. by apply remove_first_not_in. }
    destruct (decide (N = A)) as [->|Hne].
    + rewrite lookup_insert_eq. cbn [mbind option_bind].
      eexists _, _, _. split; [done|]. rewrite lookup_insert_eq.
      split; [done|]. split; [done|]. split; [done|].
      cbn [set_parentNode set_childNodes childNodes].
      split; [by apply count_occ_snoc|]. split; [by rewrite Hcs1|].
      apply Hformer.
      * intros x HxA _. by rewrite !lookup_insert_ne.
      * done.
    + rewrite lookup_insert_ne by done.
      destruct (Hl N n HN) as (n1 & Hn1 & _). rewrite Hn1.
      cbn [mbind option_bind].
      eexists _, _, _. split; [done|].
      rewrite lookup_insert_ne by done. rewrite lookup_insert_eq.
      split; [done|]. rewrite lookup_insert_eq. split; [done|].
      split; [done|]. cbn [set_childNodes childNodes].
      split; [by apply count_occ_snoc|]. split; [by rewrite Hcs1|].
      apply Hformer.
      * intros x HxA HxN. by rewrite !lookup_insert_ne.
      * intros no _ Hno. rewrite lookup_insert_eq. eexists. split; [done|].
        rewrite Hn1 in Hno. by injection Hno as <-.
  - destruct (removeChild_lookup h B N b n HB HN) as (h' & Hrm & Hsame & Hl).
    destruct (Hl B b HB) as (b' & Hb' & Hcs & _).
    destruct (Hl N n HN) as (n' & Hn' & _ & Hp & _).
    rewrite decide_True in Hcs by done.
    exists h', b', n'. split; [done|]. split; [done|]. split; [done|].
    split; [done|]. split; [|split; [|done]].
    + rewrite Hcs. by apply remove_first_not_in.
    + intros Hc. by rewrite Hp, decide_True.
Qed.

Lemma appendChild_removeChild_links_witness :
  (exists h' a' n',
     appendChild 1 sample_store 0 4 = Ok 0 h'
     /\ h' !! 0 = Some a' /\ h' !! 4 = Some n'
     /\ parentNode n' = Some 0
     /\ count_occ Nat.eq_dec (childNodes a') 4 = 1
     /\ childNodes a' = [4]
     /\ exists p', h' !! 3 = Some p' /\ childNodes p' = [])
  /\ (exists h' b' n',
        removeChild sample_store 3 4 = Some h'
        /\ h' !! 3 = Some b' /\ h' !! 4 = Some n'
        /\ childNodes b' = []
        /\ parentNode n' = None).
Proof.
  destruct (appendChild_removeChild_links 0 sample_store 0 4 3
              (new_Node "div" ELEMENT_NODE)
              (set_parentNode (Some 3) (new_Node "i" ELEMENT_NODE))
              (set_childNodes [4] (new_Node "p" ELEMENT_NODE)))
    as [(h1 & a1 & n1 & H1 & H2 & H3 & H4 & H5 & H6 & H7)
        (h2 & b2 & n2 & G1 & G2 & G3 & G4 & _ & G6 & _)].
  - reflexivity.
  - reflexivity.
  - reflexivity.
  - discriminate.
  - reflexivity.
  - constructor.
  - apply NoDup_singleton.
  - intros H. simpl in H. by apply elem_of_nil in H.
  - intros p Hp. simpl in Hp. injection Hp as <-. eexists. reflexivity.
  - split.
    + exists h1, a1, n1. do 5 (split; [done|]). split; [exact H6|].
      destruct (H7 3 (set_childNodes [4] (new_Node "p" ELEMENT_NODE)))
        as (p' & Hp' & Hcs & _); [reflexivity | discriminate | reflexivity |].
      exists p'. split; [done|]. exact Hcs.
    + exists h2, b2, n2. do 3 (split; [done|]). split; [exact G4|].
      apply G6. simpl. apply list_elem_of_singleton. reflexivity.
Defined.

(** C7, as the claim states it, fails on a fragment and on a node that is
    not a child: after [appendChild(0, 1)] of the fragment [1], the fragment
    has no parent and the children of [0] are the node [2] that the
    fragment held; after [removeChild(0, 4)], where [4] is a child of [3],
    the parent of [4] is still [3]. *)
Lemma appendChild_fragment_removeChild_stranger :
  parent_in (store_of (appendChild 3 sample_store 0 1)) 1 = Some None
  /\ children_in (store_of (appendChild 3 sample_store 0 1)) 0 = Some [2]
  /\ parent_in (removeChild sample_store 0 4) 4 = Some (Some 3).
Proof. vm_compute. auto. Qed.

(** C8: [insertBefore(newNode, null)] is [appendChild(newNode)]; with a
    reference node that is not among the children of [this], the method
    throws the error named [NotFoundError: The reference node is not a child
    of this node], a message that no other error of the module has, and the
    store is then as it was before the call. *)
Theorem insertBefore_null_and_missing_reference (fuel : nat) (h : Store)
  (this newNode reference : ref) (t n : Object) :
  h !! this = Some t -> h !! newNode = Some n ->
  reference ∉ childNodes t ->
  insertBefore fuel h this newNode None = appendChild fuel h this newNode
  /\ insertBefore (S fuel) h this newNode (Some reference)
     = Err NotFoundError_reference h
  /\ NotFoundError_reference <> NotFoundError_attribute
  /\ NotFoundError_reference <> InUseAttributeError.
Proof.
  intros Ht Hn Href. split; [by destruct fuel|]. split.
  - cbn [insertBefore]. rewrite Ht, Hn.
    apply index_of_None in Href. by rewrite Href.
  - split; vm_compute; discriminate.
Qed.

Lemma insertBefore_null_and_missing_reference_witness :
  insertBefore 2 sample_store 3 2 None = appendChild 2 sample_store 3 2
  /\ insertBefore 3 sample_store 3 2 (Some 0)
     = Err NotFoundError_reference sample_store
  /\ NotFoundError_reference <> NotFoundError_attribute
  /\ NotFoundError_reference <> InUseAttributeError.
Proof.
  apply (insertBefore_null_and_missing_reference 2 sample_store 3 2 0
           (set_childNodes [4] (new_Node "p" ELEMENT_NODE))
           (set_parentNode (Some 1) (new_Node "b" ELEMENT_NODE))).
  - reflexivity.
  - reflexivity.
  - simpl. intros H. apply list_elem_of_singleton in H. discriminate.
Defined.

(** *** Attributes *)

Lemma obj_get_map_delete {V : Type} (k : str) (o : object V) :
  obj_get k (map_delete k o) = None.
Proof.
  induction o as [|[k' v] o IH]; simpl; [done|].
  destruct (str_eqb k k') eqn:E; [done|]. simpl. by rewrite E.
Qed.

Lemma obj_get_remove_from_namespaces (name ns : str)
  (l : object (object ref)) (m : object ref) :
  obj_get ns (remove_from_namespaces name l) = Some m ->
  obj_get name m = None.
Proof.
  induction l as [|[k m0] l IH]; simpl; [done|].
  destruct (map_delete name m0) as [|x m'] eqn:E; simpl; [done|].
  destruct (str_eqb ns k); [|done].
  intros [= <-]. rewrite <- E. apply obj_get_map_delete.
Qed.

(** [removeAttribute(name)] takes the name out of the default map and out
    of every namespace map. *)
Lemma removeAttribute_everywhere (h : Store) (this : ref) (name : str)
  (w : Object) (e : ElementFields) :
  h !! this = Some w -> element w = Some e ->
  exists h' w' e',
    removeAttribute h this name = Some h'
    /\ h' !! this = Some w' /\ element w' = Some e'
    /\ obj_get name (e_attributes e') = None
    /\ forall ns m, obj_get ns (e_attributesNS e') = Some m ->
                   obj_get name m = None.
Proof.
  intros Hw He. unfold removeAttribute. rewrite Hw. simpl. rewrite He. simpl.
  eexists _, _, _. split; [done|]. rewrite lookup_insert_eq.
  split; [done|]. split; [done|]. simpl. split.
  - apply obj_get_map_delete.
  - intros ns m. apply obj_get_remove_from_namespaces.
Qed.

(** What [setAttributeNS] leaves in the element, for a namespace that is
    not the empty string: the default map is as it was. *)
Lemma setAttributeNS_default_map (h : Store) (this : ref)
  (ns name value : str) (w : Object) (e : ElementFields) :
  h !! this = Some w -> element w = Some e -> ns <> [] ->
  exists h' w' e',
    setAttributeNS h this ns name value = Some h'
    /\ h' !! this = Some w' /\ element w' = Some e'
    /\ e_attributes e' = e_attributes e
    /\ is_Some (obj_get ns (e_attributesNS e') ≫= obj_get name).
Proof.
  intros Hw He Hns. destruct ns as [|c ns]; [done|].
  unfold setAttributeNS. rewrite Hw. simpl. rewrite He. simpl.
  set (e1 := match obj_get (c :: ns) (e_attributesNS e) with
             | Some _ => e | None => _ end).
  set (h0 := <[this := set_element e1 w]> h).
  assert (Hfresh : new_ref h0 <> this).
  { intros Heq. pose proof (is_fresh (dom h0)) as Hf.
    apply Hf. unfold new_ref in Heq. rewrite Heq.
    apply elem_of_dom. unfold h0. rewrite lookup_insert_eq. done. }
  assert (He1 : e_attributes e1 = e_attributes e).
  { unfold e1. by destruct (obj_get (c :: ns) (e_attributesNS e)). }
  assert (Hh0 : h0 !! this = Some (set_element e1 w))
    by (unfold h0; apply lookup_insert_eq).
  eexists _, _, _. split.
  { unfold set_value. rewrite lookup_insert_eq. simpl.
    rewrite lookup_insert_ne by done. rewrite lookup_insert_ne by done.
    rewrite Hh0. simpl.
    rewrite lookup_insert_eq. simpl. reflexivity. }
  rewrite lookup_insert_eq.
  split; [done|]. split; [done|]. simpl. split; [done|].
  assert (Hget : forall (V : Type) (k : str) (v : V) (o : object V),
             obj_get k (map_set k v o) = Some v).
  { intros V k v o. unfold map_set.
    assert (Hrefl : forall s : str, str_eqb s s = true).
    { induction s as [|x s IH]; simpl; [done|].
      unfold chr_eqb. by rewrite N.eqb_refl, IH. }
    destruct (obj_get k o) eqn:E.
    - clear -E Hrefl. induction o as [|[k' v'] o IH]; simpl in *; [done|].
      destruct (str_eqb k k') eqn:Ek; simpl; rewrite Ek; [done|]. by apply IH.
    - clear -E Hrefl. induction o as [|[k' v'] o IH]; simpl in *.
      + by rewrite Hrefl.
      + destruct (str_eqb k k') eqn:Ek; [done|]. by apply IH. }
  rewrite Hget. simpl. rewrite Hget. simpl. rewrite Hget. done.
Qed.

(** C10, amended to a namespace that is not the empty string: an attribute
    that the default map of the element does not hold and that is set with
    [setAttributeNS(ns, name, value)] is in the map of [ns], and
    [getAttribute(name)] is [null], [hasAttribute(name)] is [false] and
    [getAttributeNode(name)] is [null]; [removeAttribute(name)] then leaves
    the name neither in the default map nor in any namespace map. *)
Theorem namespaced_attribute_invisible (h : Store) (this : ref)
  (ns name value : str) (w : Object) (e : ElementFields) :
  h !! this = Some w -> element w = Some e -> ns <> [] ->
  obj_get name (e_attributes e) = None ->
  exists h' w' e',
    setAttributeNS h this ns name value = Some h'
    /\ h' !! this = Some w' /\ element w' = Some e'
    /\ is_Some (obj_get ns (e_attributesNS e') ≫= obj_get name)
    /\ getAttribute h' this name = Some None
    /\ hasAttribute h' this name = Some false
    /\ getAttributeNode h' this name = Some None
    /\ exists h'' w'' e'',
         removeAttribute h' this name = Some h''
         /\ h'' !! this = Some w'' /\ element w'' = Some e''
         /\ obj_get name (e_attributes e'') = None
         /\ forall ns' m, obj_get ns' (e_attributesNS e'') = Some m ->
                         obj_get name m = None.
Proof.
  intros Hw He Hns Hname.
  destruct (setAttributeNS_default_map h this ns name value w e Hw He Hns)
    as (h' & w' & e' & Hset & Hw' & He' & Hattrs & Hin).
  exists h', w', e'. split; [done|]. split; [done|]. split; [done|].
  split; [done|].
  unfold getAttribute, hasAttribute, getAttributeNode.
  rewrite Hw'. simpl. rewrite He'. simpl. rewrite Hattrs, Hname.
  split; [done|]. split.
  - rewrite bool_decide_eq_false_2; [done|]. by intros [? ?].
  - split; [done|]. by apply (removeAttribute_everywhere h' this name w' e').
Qed.

Lemma namespaced_attribute_invisible_witness :
  exists h' w' e',
    setAttributeNS element_store 0 XLINK "href" "#t" = Some h'
    /\ h' !! 0 = Some w' /\ element w' = Some e'
    /\ is_Some (obj_get XLINK (e_attributesNS e') ≫= obj_get ("href" : str))
    /\ getAttribute h' 0 "href" = Some None
    /\ hasAttribute h' 0 "href" = Some false
    /\ getAttributeNode h' 0 "href" = Some None
    /\ exists h'' w'' e'',
         removeAttribute h' 0 "href" = Some h''
         /\ h'' !! 0 = Some w'' /\ element w'' = Some e''
         /\ obj_get ("href" : str) (e_attributes e'') = None
         /\ forall ns' m, obj_get ns' (e_attributesNS e'') = Some m ->
                         obj_get ("href" : str) m = None.
Proof.
  apply (namespaced_attribute_invisible element_store 0 XLINK "href" "#t"
           (new_Element "a")
           {| e_namespace := None; e_style := []; e_attributes := [];
              e_attributesNS := []; e_content := None |}).
  - reflexivity.
  - reflexivity.
  - discriminate.
  - reflexivity.
Defined.

(** C10, as the claim states it, fails for the empty namespace: an
    attribute set with [setAttributeNS("", "k", "v")] alone is in the
    default map, [getAttribute("k")] is ["v"] and [hasAttribute("k")] is
    [true]. *)
Lemma empty_namespace_attribute_is_visible :
  (setAttributeNS element_store 0 [] "k" "v"
     ≫= fun h' => getAttribute h' 0 "k") = Some (Some ("v" : str))
  /\ (setAttributeNS element_store 0 [] "k" "v"
        ≫= fun h' => hasAttribute h' 0 "k") = Some true.
Proof. vm_compute. auto. Qed.

End dom_facts.

(** ** Strings and patterns *)

Lemma str_eqb_refl (s : str) : str_eqb s s = true.
Proof.
  induction s as [|x s IH]; simpl; [done|].
  unfold chr_eqb. by rewrite N.eqb_refl.
Qed.

Lemma str_eqb_eq (a b : str) : str_eqb a b = true <-> a = b.
Proof.
  split; [|intros ->; apply str_eqb_refl].
  revert b. induction a as [|x a IH]; intros [|y b]; simpl; try done.
  intros H. apply andb_prop in H as [Hx Hab].
  apply N.eqb_eq in Hx. subst. f_equal. by apply IH.
Qed.

Lemma str_eqb_neq (a b : str) : str_eqb a b = false <-> a <> b.
Proof.
  rewrite <- str_eqb_eq. by destruct (str_eqb a b).
Qed.

Lemma span_app_stop (p : N -> bool) (a r : str) (c : N) :
  forallb p a = true -> p c = false -> span p (a ++ c :: r) = a.
Proof.
  induction a as [|x a IH]; simpl; intros Ha Hc.
  - by rewrite Hc.
  - apply andb_prop in Ha as [Hx Ha]. rewrite Hx. f_equal. by apply IH.
Qed.

Lemma span_all (p : N -> bool) (a : str) :
  forallb p a = true -> span p a = a.
Proof.
  induction a as [|x a IH]; simpl; [done|]. intros Ha.
  apply andb_prop in Ha as [Hx Ha]. rewrite Hx. f_equal. by apply IH.
Qed.

Lemma starts_with_app (p s : str) : starts_with p (p ++ s) = true.
Proof.
  induction p as [|x p IH]; simpl; [by destruct s|].
  unfold chr_eqb. by rewrite N.eqb_refl.
Qed.

Section scan_facts.
Context {G : Type} (pattern : str -> option (nat * G)).

Lemma scan_head (s : str) (i len : nat) (g : G) :
  pattern s = Some (len, g) -> scan pattern s i = Some (i, len, g).
Proof. intros H. destruct s; simpl; by rewrite H. Qed.

Lemma scan_step (c : N) (s : str) (i : nat) :
  pattern (c :: s) = None -> scan pattern (c :: s) i = scan pattern s (S i).
Proof. intros H. simpl. by rewrite H. Qed.

(** The search goes over a run of characters at which the pattern does not
    match. *)
Lemma scan_skip (u s : str) (i : nat) :
  (forall c r, c ∈ u -> pattern (c :: r) = None) ->
  scan pattern (u ++ s) i = scan pattern s (i + length u).
Proof.
  revert i. induction u as [|x u IH]; intros i Hu; simpl app.
  - by rewrite Nat.add_0_r.
  - rewrite scan_step by (apply Hu; left).
    rewrite IH by (intros c r Hc; apply Hu; by right).
    simpl. f_equal. lia.
Qed.

Lemma exec_at (pre s : str) :
  exec pattern (pre ++ s) (length pre)
  = match scan pattern s (length pre) with
    | Some (i, len, g) => (Some (i, len, g), i + len)
    | None => (None, 0)
    end.
Proof.
  unfold exec. rewrite length_app.
  replace (length pre + length s <? length pre) with false
    by (symmetry; apply Nat.ltb_ge; lia).
  by rewrite drop_app_length.
Qed.
End scan_facts.

(** ** Entities: expansion undoes the escaping of the serializer *)

Lemma replace_chr_app (c : N) (by_ a b : str) :
  replace_chr c by_ (a ++ b) = replace_chr c by_ a ++ replace_chr c by_ b.
Proof.
  induction a as [|x a IH]; simpl; [done|].
  destruct (chr_eqb x c); rewrite IH; [by rewrite app_assoc | done].
Qed.

Lemma escape_text_chars (d : str) :
  escape_text d = concat (map escape_chr d).
Proof.
  unfold escape_text. induction d as [|c d IH]; [done|].
  cbn [map concat replace_chr]. unfold escape_chr at 1.
  destruct (chr_eqb c "&"%char) eqn:E1.
  - rewrite !replace_chr_app, IH. reflexivity.
  - cbn [replace_chr]. destruct (chr_eqb c ">"%char) eqn:E2.
    + rewrite !replace_chr_app, IH. reflexivity.
    + cbn [replace_chr]. destruct (chr_eqb c "<"%char) eqn:E3.
      * by rewrite IH.
      * by rewrite IH.
Qed.

Lemma RE_ENTITY_other (c : N) (r : str) :
  chr_eqb c "&"%char = false -> RE_ENTITY (c :: r) = None.
Proof. intros H. unfold RE_ENTITY. by rewrite H. Qed.

Lemma RE_ENTITY_escaped (c : N) (r : str) :
  is_special c = true ->
  exists g, RE_ENTITY (escape_chr c ++ r) = Some (length (escape_chr c), g)
            /\ entity_text (escape_chr c) g = [c].
Proof.
  unfold is_special, escape_chr. intros H.
  destruct (chr_eqb c "&"%char) eqn:E1.
  { apply N.eqb_eq in E1. subst. eexists. split; reflexivity. }
  destruct (chr_eqb c ">"%char) eqn:E2.
  { apply N.eqb_eq in E2. subst. eexists. split; reflexivity. }
  destruct (chr_eqb c "<"%char) eqn:E3; [|done].
  apply N.eqb_eq in E3. subst. eexists. split; reflexivity.
Qed.

Lemma escape_chr_plain (c : N) : is_special c = false -> escape_chr c = [c].
Proof.
  unfold is_special, escape_chr. intros H.
  apply orb_false_elim in H as [H H3]. apply orb_false_elim in H as [H1 H2].
  by rewrite H1, H2, H3.
Qed.

Lemma escape_chr_length (c : N) : 0 < length (escape_chr c).
Proof.
  unfold escape_chr.
  destruct (chr_eqb c "&"%char); [simpl; lia|].
  destruct (chr_eqb c ">"%char); [simpl; lia|].
  destruct (chr_eqb c "<"%char); simpl; lia.
Qed.

Lemma escape_chr_special_length (c : N) :
  is_special c = true -> 4 <= length (escape_chr c).
Proof.
  unfold is_special, escape_chr.
  destruct (chr_eqb c "&"%char); [simpl; lia|].
  destruct (chr_eqb c ">"%char); [simpl; lia|].
  destruct (chr_eqb c "<"%char); [simpl; lia|done].
Qed.

Lemma chunk_between (pre u rest : str) :
  concat (if length pre <? length (pre ++ u)
          then [take (length (pre ++ u) - length pre)
                  (drop (length pre) ((pre ++ u) ++ rest))]
          else [])
  = u.
Proof.
  rewrite length_app. destruct u as [|x u].
  - simpl. by rewrite Nat.add_0_r, Nat.ltb_irrefl.
  - replace (length pre <? length pre + length (x :: u)) with true
      by (symmetry; apply Nat.ltb_lt; simpl; lia).
    rewrite <- (app_assoc pre). rewrite drop_app_length.
    replace (length pre + length (x :: u) - length pre)
      with (length (x :: u)) by lia.
    rewrite take_app_length. simpl. by rewrite app_nil_r.
Qed.

(** The loop of [iexpandEntities] on escaped text: [u] is text without
    special characters that the search has gone over. *)
Lemma iexpandEntities_loop_escaped (d u pre : str) (fuel : nat) :
  forallb (fun c => negb (is_special c)) u = true ->
  length (concat (map escape_chr d)) < fuel ->
  concat (iexpandEntities_loop fuel (pre ++ u ++ concat (map escape_chr d))
            (length pre) (length pre + length u))
  = u ++ d.
Proof.
  revert u pre fuel. induction d as [|c d IH]; intros u pre fuel Hu Hfuel.
  - destruct fuel as [|fuel]; [simpl in Hfuel; lia|].
    cbn [map concat iexpandEntities_loop]. rewrite !app_nil_r.
    replace (length pre + length u) with (length (pre ++ u))
      by (by rewrite length_app).
    rewrite <- (app_nil_r (pre ++ u)) at 1. rewrite exec_at. simpl scan.
    rewrite length_app. destruct u as [|x u].
    + simpl. rewrite Nat.add_0_r, Nat.ltb_irrefl. done.
    + replace (length pre <? length pre + length (x :: u)) with true
        by (symmetry; apply Nat.ltb_lt; simpl; lia).
      rewrite drop_app_length. simpl. by rewrite app_nil_r.
  - cbn [map concat]. destruct (is_special c) eqn:Hc.
    + destruct fuel as [|fuel]; [lia|].
      destruct (RE_ENTITY_escaped c (concat (map escape_chr d)) Hc)
        as (g & Hm & Ht).
      cbn [iexpandEntities_loop].
      replace (length pre + length u) with (length (pre ++ u))
        by (by rewrite length_app).
      rewrite (app_assoc pre u). rewrite exec_at.
      rewrite (scan_head _ _ _ _ _ Hm).
      rewrite drop_app_length.
      rewrite take_app_length.
      rewrite Ht.
      replace (length (pre ++ u) + length (escape_chr c))
        with (length ((pre ++ u) ++ escape_chr c))
        by (by rewrite !length_app).
      rewrite (app_assoc (pre ++ u)).
      pose proof (IH [] ((pre ++ u) ++ escape_chr c) fuel eq_refl) as IH'.
      simpl in IH'. rewrite Nat.add_0_r in IH'.
      rewrite !concat_app. rewrite IH'.
      2:{ cbn [map concat] in Hfuel. rewrite length_app in Hfuel.
          pose proof (escape_chr_length c). lia. }
      rewrite <- (app_assoc (pre ++ u)). rewrite chunk_between.
      simpl. done.
    + rewrite (escape_chr_plain c Hc). cbn [app].
      destruct fuel as [|fuel]; [lia|].
      assert (Hexec :
        exec RE_ENTITY (pre ++ u ++ c :: concat (map escape_chr d))
          (length pre + length u)
        = exec RE_ENTITY (pre ++ u ++ c :: concat (map escape_chr d))
            (length pre + length (u ++ [c]))).
      { replace (length pre + length u) with (length (pre ++ u))
          by (by rewrite length_app).
        replace (length pre + length (u ++ [c]))
          with (length ((pre ++ u) ++ [c])) by (rewrite !length_app; lia).
        rewrite (app_assoc pre u) at 1. rewrite exec_at.
        replace (pre ++ u ++ c :: concat (map escape_chr d))
          with (((pre ++ u) ++ [c]) ++ concat (map escape_chr d))
          by (by rewrite <- !app_assoc).
        rewrite exec_at. rewrite scan_step.
        - rewrite !length_app. simpl. by rewrite Nat.add_1_r.
        - apply RE_ENTITY_other. unfold is_special in Hc.
          apply orb_false_elim in Hc as [Hc _].
          apply orb_false_elim in Hc as [Hc _]. exact Hc. }
      pose proof (IH (u ++ [c]) pre (S fuel)) as IH'.
      rewrite <- app_assoc in IH'. cbn [app] in IH'.
      cbn [iexpandEntities_loop] in IH' |- *. rewrite Hexec.
      rewrite IH'.
      * by rewrite <- app_assoc.
      * rewrite forallb_app, Hu. simpl. by rewrite Hc.
      * cbn [map concat] in Hfuel. rewrite length_app in Hfuel. lia.
Qed.

Lemma escaped_short_is_plain (d : str) :
  length (concat (map escape_chr d)) < 3 -> concat (map escape_chr d) = d.
Proof.
  induction d as [|c d IH]; [done|]. cbn [map concat].
  rewrite length_app. intros H. destruct (is_special c) eqn:Hc.
  - pose proof (escape_chr_special_length c Hc). lia.
  - rewrite (escape_chr_plain c Hc) in *. simpl in *. f_equal. apply IH. lia.
Qed.

(** [expandEntities] gives back the text that the serializer escaped. *)
Lemma expandEntities_escape_text (d : str) :
  expandEntities (escape_text d) = d.
Proof.
  rewrite escape_text_chars. unfold expandEntities, iexpandEntities.
  destruct (concat (map escape_chr d)) as [|x e] eqn:He.
  - destruct d as [|c d]; [done|]. cbn [map concat] in He.
    pose proof (escape_chr_length c). destruct (escape_chr c); simpl in *;
      [lia | done].
  - rewrite <- He. destruct (length (concat (map escape_chr d)) <? 3) eqn:Hl.
    + apply Nat.ltb_lt in Hl. simpl. rewrite app_nil_r.
      by apply escaped_short_is_plain.
    + pose proof (iexpandEntities_loop_escaped d [] []
                    (S (length (concat (map escape_chr d)))) eq_refl) as H.
      simpl in H. apply H. lia.
Qed.

(** ** The attribute parser on the attribute text of the serializer *)

Lemma substring_take_drop (s : str) (a b : nat) :
  a <= b -> b <= length s ->
  substring s (Z.of_nat a) (Z.of_nat b) = take (b - a) (drop a s).
Proof.
  intros Hab Hb. unfold substring, clamp.
  replace (Z.to_nat (Z.min (Z.max (Z.of_nat a) 0) (Z.of_nat (length s))))
    with a by lia.
  replace (Z.to_nat (Z.min (Z.max (Z.of_nat b) 0) (Z.of_nat (length s))))
    with b by lia.
  by rewrite Nat.max_r, Nat.min_l by lia.
Qed.

Lemma substring_from_drop (s : str) (a : nat) :
  a <= length s -> substring_from s (Z.of_nat a) = drop a s.
Proof.
  intros Ha. unfold substring_from, clamp. f_equal. lia.
Qed.

Lemma trimStart_id (c : N) (s : str) :
  is_space c = false -> trimStart (c :: s) = c :: s.
Proof. intros H. simpl. by rewrite H. Qed.

Lemma trim_id (s : str) (c e : N) (r r' : str) :
  s = c :: r -> s = r' ++ [e] -> is_space c = false -> is_space e = false ->
  trim s = s.
Proof.
  intros -> Hs' Hc He. unfold trim, trimEnd.
  rewrite (trimStart_id c r Hc). rewrite Hs'.
  rewrite rev_app_distr. simpl. rewrite He. simpl.
  by rewrite rev_involutive.
Qed.

Lemma trim_nospace (s : str) :
  forallb (fun c => negb (is_space c)) s = true -> trim s = s.
Proof.
  intros H. destruct s as [|c r]; [done|].
  destruct (exists_last (l := c :: r)) as (r' & e & Hl); [done|].
  apply (trim_id _ c e r r'); [done | done | |].
  - simpl in H. apply andb_prop in H as [H _]. by apply negb_true_iff in H.
  - rewrite Hl in H. rewrite forallb_app in H.
    apply andb_prop in H as [_ H]. simpl in H.
    apply andb_prop in H as [H _]. by apply negb_true_iff in H.
Qed.

Lemma obj_get_app {V : Type} (k : str) (o1 o2 : object V) :
  obj_get k (o1 ++ o2)
  = match obj_get k o1 with Some v => Some v | None => obj_get k o2 end.
Proof.
  induction o1 as [|[k' v'] o1 IH]; simpl; [done|].
  by destruct (str_eqb k k').
Qed.

Lemma obj_get_not_key {V : Type} (k : str) (o : object V) :
  k ∉ map fst o -> obj_get k o = None.
Proof.
  induction o as [|[k' v'] o IH]; simpl; [done|].
  intros H. apply not_elem_of_cons in H as [Hne H].
  apply str_eqb_neq in Hne. rewrite Hne. by apply IH.
Qed.

Lemma obj_get_None_not_key {V : Type} (k : str) (o : object V) :
  obj_get k o = None -> k ∉ map fst o.
Proof.
  induction o as [|[k' v'] o IH]; simpl; [intros _; apply not_elem_of_nil|].
  destruct (str_eqb k k') eqn:E; [done|]. intros H.
  apply not_elem_of_cons. split; [by apply str_eqb_neq | by apply IH].
Qed.

Lemma distinct_keys_NoDup (a : object str) :
  distinct_keys a = true -> NoDup (map fst a).
Proof.
  induction a as [|[k v] a IH]; simpl; [intros _; constructor|].
  intros H. apply andb_prop in H as [Hk Ha]. apply negb_true_iff in Hk.
  apply bool_decide_eq_false in Hk. constructor; [|by apply IH].
  apply obj_get_None_not_key. destruct (obj_get k a); [|done].
  exfalso. apply Hk. by eexists.
Qed.

Lemma good_key_facts (k : str) :
  good_key k = true ->
  k <> [] /\ forallb (fun c => negb (is_attr_sep c)) k = true
  /\ forallb (fun c => negb (is_space c)) k = true
  /\ forallb (fun c => negb (chr_eqb c ">"%char)) k = true
  /\ array_index k = None /\ k <> ("style" : str).
Proof.
  unfold good_key. intros H.
  apply andb_prop in H as [H Hstyle]. apply andb_prop in H as [H Hidx].
  apply andb_prop in H as [Hne Hall].
  apply negb_true_iff in Hne, Hidx, Hstyle.
  apply str_eqb_neq in Hne, Hstyle. apply bool_decide_eq_false in Hidx.
  split; [done|]. repeat split; try done.
  - apply forallb_forall. intros c Hc.
    apply (proj1 (forallb_forall _ _) Hall) in Hc.
    apply negb_true_iff in Hc. apply orb_false_elim in Hc as [Hc _].
    by rewrite Hc.
  - apply forallb_forall. intros c Hc.
    apply (proj1 (forallb_forall _ _) Hall) in Hc.
    apply negb_true_iff in Hc. apply orb_false_elim in Hc as [Hc _].
    unfold is_attr_sep in Hc. apply orb_false_elim in Hc as [_ Hc].
    by rewrite Hc.
  - apply forallb_forall. intros c Hc.
    apply (proj1 (forallb_forall _ _) Hall) in Hc.
    apply negb_true_iff in Hc. apply orb_false_elim in Hc as [_ Hc].
    by rewrite Hc.
  - destruct (array_index k); [|done]. exfalso. apply Hidx. by eexists.
Qed.

Lemma good_value_facts (v : str) :
  good_value v = true ->
  forallb (fun c => negb (chr_eqb DQ c)) v = true
  /\ forallb (fun c => negb (chr_eqb c ">"%char)) v = true.
Proof.
  unfold good_value. intros H. split; apply forallb_forall; intros c Hc;
    apply (proj1 (forallb_forall _ _) H) in Hc;
    apply negb_true_iff in Hc; apply orb_false_elim in Hc as [H1 H2].
  - by rewrite H1.
  - by rewrite H2.
Qed.

Lemma attribute_text_cons (k v : str) (a : object str) :
  attribute_text ((k, v) :: a)
  = (32%N :: k ++ 61%N :: 34%N :: v) ++ 34%N :: attribute_text a.
Proof.
  unfold attribute_text. cbn [map concat fst snd].
  change (js " ") with [32%N]. change (js "=") with [61%N].
  change [DQ] with [34%N].
  rewrite <- !app_assoc. simpl. rewrite <- !app_assoc. reflexivity.
Qed.

Lemma attribute_body_cons (k v : str) (a : object str) :
  attribute_body ((k, v) :: a)
  = (k ++ 61%N :: 34%N :: v) ++ 34%N :: attribute_text a.
Proof.
  unfold attribute_body. change (js "=") with [61%N].
  change [DQ] with [34%N].
  rewrite <- !app_assoc. reflexivity.
Qed.

Lemma attribute_text_body (a : object str) :
  a <> [] -> attribute_text a = 32%N :: attribute_body a.
Proof.
  destruct a as [|[k v] a]; [done|]. intros _.
  by rewrite attribute_text_cons, attribute_body_cons.
Qed.

Lemma attribute_text_ends (a : object str) :
  a <> [] -> exists r, attribute_text a = r ++ [34%N].
Proof.
  induction a as [|[k v] a IH]; [done|]. intros _.
  rewrite attribute_text_cons. destruct a as [|kv a].
  - eexists. reflexivity.
  - destruct IH as [r Hr]; [done|]. rewrite Hr.
    eexists ((32%N :: k ++ 61%N :: 34%N :: v) ++ 34%N :: r).
    by rewrite <- app_assoc.
Qed.

(** The body of the attribute text begins with a character of a name and
    ends with a double quote: [trim] leaves it as it is. *)
Lemma trim_attribute_body (a : object str) :
  a <> [] -> good_attributes a = true ->
  trim (attribute_body a) = attribute_body a.
Proof.
  destruct a as [|[k v] a]; [done|]. intros _ H.
  unfold good_attributes in H. apply andb_prop in H as [H _].
  cbn [forallb fst snd] in H. apply andb_prop in H as [H _].
  apply andb_prop in H as [Hk _].
  destruct (good_key_facts k Hk) as (Hne & _ & Hsp & _).
  destruct k as [|c k]; [done|].
  assert (Hlast : exists r', attribute_body ((c :: k, v) :: a) = r' ++ [34%N]).
  { rewrite attribute_body_cons. destruct a as [|kv a].
    - eexists. reflexivity.
    - destruct (attribute_text_ends (kv :: a)) as [r Hr]; [done|].
      rewrite Hr. eexists (((c :: k) ++ 61%N :: 34%N :: v) ++ 34%N :: r).
      by rewrite <- (app_assoc _ (34%N :: r) [34%N]). }
  destruct Hlast as [r' Hr'].
  apply (trim_id _ c 34%N
           (k ++ 61%N :: 34%N :: v ++ 34%N :: attribute_text a) r').
  - rewrite attribute_body_cons. rewrite <- app_assoc. reflexivity.
  - exact Hr'.
  - simpl in Hsp. apply andb_prop in Hsp as [Hsp _]. by apply negb_true_iff in Hsp.
  - reflexivity.
Qed.

Lemma lookup_app_at {A : Type} (l1 l2 : list A) (x : A) :
  (l1 ++ x :: l2) !! length l1 = Some x.
Proof. rewrite lookup_app_r by lia. by rewrite Nat.sub_diag. Qed.

(** One call of [parseAttributes] on an attribute written by the
    serializer: the name and the value between the quotes go into the
    object, and the rest of the text goes to the next call. *)
Lemma parseAttributes_attribute_step (k v rest : str) (acc : attr_map)
  (fuel : nat) :
  good_key k = true -> good_value v = true -> obj_get k acc = None ->
  parseAttributes (S fuel) (k ++ 61%N :: 34%N :: v ++ 34%N :: rest) acc
  = parseAttributes fuel (trim rest) (acc ++ [(k, Some v)]).
Proof.
  intros Hk Hv Hacc.
  destruct (good_key_facts k Hk) as (Hne & Hsepk & Hspk & _ & Hidxk & _).
  destruct (good_value_facts v Hv) as (Hvq & _).
  set (text := k ++ 61%N :: 34%N :: v ++ 34%N :: rest).
  assert (Hlen : length text = length k + 2 + length v + 1 + length rest).
  { unfold text. rewrite length_app. simpl. rewrite length_app. simpl. lia. }
  assert (Hsep : RE_ATTR_SEP_match text = Some (length k, 61%N)).
  { unfold RE_ATTR_SEP_match, text.
    rewrite (find_first_app_hit is_attr_sep k _ 61%N Hsepk eq_refl).
    by rewrite lookup_app_at. }
  assert (Hchr : text !! (length k + 1) = Some 34%N).
  { unfold text. rewrite lookup_app_r by lia.
    replace (length k + 1 - length k) with 1 by lia. done. }
  assert (Hdrop : drop (length k + 2) text = v ++ 34%N :: rest).
  { unfold text. rewrite drop_app_ge by lia.
    replace (length k + 2 - length k) with 2 by lia. done. }
  assert (Hidx : indexOf text DQ (Z.of_nat (length k) + 2)
                 = Z.of_nat (length k + 2 + length v)).
  { unfold indexOf, clamp. rewrite Hlen.
    replace (Z.to_nat _) with (length k + 2) by lia.
    rewrite Hdrop.
    by rewrite (find_first_app_hit (chr_eqb DQ) v rest 34%N Hvq eq_refl). }
  assert (Hname : trim (substring text 0 (Z.of_nat (length k))) = k).
  { change 0%Z with (Z.of_nat 0).
    rewrite (substring_take_drop text 0 (length k)) by lia.
    rewrite drop_0, Nat.sub_0_r. unfold text. rewrite take_app_length.
    by apply trim_nospace. }
  assert (Hvalue : substring text (Z.of_nat (length k) + 1)
                     (Z.of_nat (length k + 2 + length v) + 1)
                   = 34%N :: v ++ [34%N]).
  { replace (Z.of_nat (length k) + 1)%Z with (Z.of_nat (length k + 1)) by lia.
    replace (Z.of_nat (length k + 2 + length v) + 1)%Z
      with (Z.of_nat (length k + 2 + length v + 1)) by lia.
    rewrite substring_take_drop by lia.
    replace (length k + 2 + length v + 1 - (length k + 1))
      with (S (length v + 1)) by lia.
    unfold text. rewrite drop_app_ge by lia.
    replace (length k + 1 - length k) with 1 by lia. simpl.
    f_equal. replace (length v + 1) with (length (v ++ [34%N]))
      by (rewrite length_app; simpl; lia).
    change (v ++ 34%N :: rest) with (v ++ [34%N] ++ rest).
    rewrite app_assoc. by rewrite take_app_length. }
  assert (Hinner : substring (34%N :: v ++ [34%N]) 1
                     (Z.of_nat (length (34%N :: v ++ [34%N])) - 1) = v).
  { replace (Z.of_nat (length (34%N :: v ++ [34%N])) - 1)%Z
      with (Z.of_nat (length v + 1))
      by (simpl; rewrite length_app; simpl; lia).
    rewrite (substring_take_drop _ 1 (length v + 1))
      by (simpl; rewrite ?length_app; simpl; lia).
    replace (length v + 1 - 1) with (length v) by lia. simpl.
    by rewrite drop_0, take_app_length. }
  assert (Hnext : substring_from text (Z.of_nat (length k + 2 + length v) + 1)
                  = rest).
  { replace (Z.of_nat (length k + 2 + length v) + 1)%Z
      with (Z.of_nat (length k + 2 + length v + 1)) by lia.
    rewrite substring_from_drop by lia.
    unfold text. rewrite drop_app_ge by lia.
    replace (length k + 2 + length v + 1 - length k)
      with (2 + (length v + 1)) by lia.
    simpl. rewrite drop_app_ge by lia.
    replace (length v + 1 - length v) with 1 by lia. done. }
  assert (Hset : obj_set k (Some v) acc = acc ++ [(k, Some v)]).
  { unfold obj_set. by rewrite Hacc, Hidxk. }
  clearbody text. destruct text as [|c t]; [simpl in Hlen; lia|].
  cbn [parseAttributes]. rewrite Hsep. cbn [chr_eqb N.eqb Pos.eqb].
  replace (length (c :: t) <=? length k + 1) with false
    by (symmetry; apply Nat.leb_gt; lia).
  rewrite Hchr.
  rewrite (bool_decide_eq_false_2 (Some 34%N = Some SQ)) by done.
  rewrite (bool_decide_eq_true_2 (Some 34%N = Some DQ)) by done.
  rewrite Hidx.
  replace (Z.of_nat (length k + 2 + length v) =? -1)%Z with false
    by (symmetry; apply Z.eqb_neq; lia).
  rewrite Hname, Hvalue, Hnext.
  destruct k as [|x k]; [done|].
  change ((34%N :: v ++ [34%N]) !! 0) with (Some 34%N).
  rewrite (bool_decide_eq_false_2 (Some 34%N = Some SQ)) by done.
  rewrite (bool_decide_eq_true_2 (Some 34%N = Some DQ)) by done.
  cbn [orb]. rewrite Hinner, Hset. reflexivity.
Qed.

Lemma trim_space_cons (s : str) : trim (32%N :: s) = trim s.
Proof. reflexivity. Qed.

(** The calls on the attributes that follow the leading space. *)
Lemma parseAttributes_body (a : object str) (acc : attr_map) (fuel : nat) :
  a <> [] -> good_attributes a = true ->
  (forall k, k ∈ map fst a -> obj_get k acc = None) ->
  length a < fuel ->
  parseAttributes fuel (attribute_body a) acc
  = Some (acc ++ parsed_attributes a).
Proof.
  revert acc fuel. induction a as [|[k v] a IH]; [done|].
  intros acc fuel _ Hgood Hacc Hfuel.
  destruct fuel as [|fuel]; [lia|].
  unfold good_attributes in Hgood. apply andb_prop in Hgood as [Hall Hdist].
  cbn [forallb fst snd] in Hall. apply andb_prop in Hall as [Hkv Hall].
  apply andb_prop in Hkv as [Hk Hv].
  cbn [distinct_keys] in Hdist. apply andb_prop in Hdist as [Hka Hdist].
  apply negb_true_iff, bool_decide_eq_false in Hka.
  rewrite attribute_body_cons, <- app_assoc. cbn [app].
  rewrite parseAttributes_attribute_step;
    [|done|done|apply Hacc; simpl; left].
  destruct a as [|kv a].
  - cbn [attribute_text map concat]. destruct fuel as [|fuel]; [simpl in *; lia|].
    reflexivity.
  - rewrite attribute_text_body by done. rewrite trim_space_cons.
    rewrite trim_attribute_body;
      [|done|unfold good_attributes; by rewrite Hall, Hdist].
    rewrite IH.
    + by rewrite <- app_assoc.
    + done.
    + unfold good_attributes. by rewrite Hall, Hdist.
    + intros k' Hk'. rewrite obj_get_app.
      rewrite Hacc by (simpl; by right). simpl.
      destruct (str_eqb k' k) eqn:E; [|done].
      apply str_eqb_eq in E. subst k'. exfalso. apply Hka.
      destruct (obj_get k (kv :: a)) eqn:Hg; [by eexists|].
      apply obj_get_None_not_key in Hg. done.
    + simpl in *. lia.
Qed.

Lemma attribute_text_length (a : object str) :
  4 * length a <= length (attribute_text a).
Proof.
  induction a as [|[k v] a IH]; [simpl; lia|].
  rewrite attribute_text_cons. rewrite length_app. simpl.
  rewrite length_app. simpl. lia.
Qed.

Lemma parseAttributes_leading_space (s : str) (acc : attr_map) (fuel : nat) :
  parseAttributes (S fuel) (32%N :: s) acc = parseAttributes fuel (trim s) acc.
Proof.
  cbn [parseAttributes]. unfold RE_ATTR_SEP_match.
  cbn [find_first]. change (is_attr_sep 32%N) with true. cbv iota.
  cbn [lookup list_lookup]. change (chr_eqb 32%N "="%char) with false.
  cbv iota.
  change (Z.of_nat 0 + 1)%Z with (Z.of_nat 1).
  rewrite (substring_from_drop (32%N :: s) 1) by (simpl; lia).
  change (0%Z) with (Z.of_nat 0).
  rewrite (substring_take_drop (32%N :: s) 0 0) by lia.
  reflexivity.
Qed.

(** [parseAttributes] reads back the attributes that the serializer
    wrote. *)
Lemma parseAttributes_run_attribute_text (a : object str) :
  a <> [] -> good_attributes a = true ->
  parseAttributes_run (attribute_text a) [] = Some (parsed_attributes a).
Proof.
  intros Hne Hgood. unfold parseAttributes_run.
  pose proof (attribute_text_length a) as Hlen.
  rewrite attribute_text_body in * by done.
  rewrite parseAttributes_leading_space.
  rewrite trim_attribute_body by done.
  rewrite parseAttributes_body; [done|done|done| |].
  - intros k _. reflexivity.
  - destruct a; [done|]. simpl in *. lia.
Qed.

Lemma copy_attributes_from (a acc : object str) :
  NoDup (map fst a) ->
  (forall k, k ∈ map fst a -> obj_get k acc = None) ->
  fold_left (fun m kv => setAttribute (fst kv) (default [] (snd kv)) m)
    (parsed_attributes a) acc
  = acc ++ a.
Proof.
  revert acc. induction a as [|[k v] a IH]; intros acc Hnd Hacc.
  - simpl. by rewrite app_nil_r.
  - cbn [parsed_attributes map fold_left fst snd default].
    apply NoDup_cons in Hnd as [Hk Hnd].
    unfold setAttribute at 2. unfold map_set.
    rewrite Hacc by (simpl; left).
    fold (parsed_attributes a). rewrite IH.
    + by rewrite <- app_assoc.
    + done.
    + intros k' Hk'. rewrite obj_get_app.
      rewrite Hacc by (simpl; by right). simpl.
      destruct (str_eqb k' k) eqn:E; [|done].
      apply str_eqb_eq in E. by subst.
Qed.

Lemma copy_attributes_parsed (a : object str) :
  good_attributes a = true -> copy_attributes (parsed_attributes a) = a.
Proof.
  intros H. unfold copy_attributes. rewrite copy_attributes_from; [done| |done].
  apply distinct_keys_NoDup. unfold good_attributes in H.
  by apply andb_prop in H as [_ H].
Qed.

(** ** The pattern [RE_TAG] on the tags of the serializer *)

Lemma is_namechar_facts (c : N) :
  is_namechar c = true ->
  c <> 33%N /\ c <> 47%N /\ c <> 58%N /\ c <> 60%N /\ c <> 62%N
  /\ is_space c = false.
Proof.
  unfold is_namechar, is_word, is_digit, is_letter, is_upper, is_lower,
    chr_eqb. simpl N_of_ascii. intros H.
  rewrite !orb_true_iff, !andb_true_iff, !N.leb_le, !N.eqb_eq in H.
  repeat split; try lia.
  apply not_true_iff_false. unfold is_space. intros Hs.
  rewrite !orb_true_iff, !andb_true_iff, !N.leb_le, !N.eqb_eq in Hs. lia.
Qed.

Lemma span_forallb (p : N -> bool) (s : str) : forallb p (span p s) = true.
Proof.
  induction s as [|c s IH]; simpl; [done|].
  destruct (p c) eqn:E; simpl; [by rewrite E | done].
Qed.

Lemma span_drop (p : N -> bool) (s : str) :
  s = span p s ++ drop (length (span p s)) s.
Proof.
  induction s as [|c s IH]; simpl; [done|].
  destruct (p c); simpl; [by f_equal | done].
Qed.

Lemma span_drop_head (p : N -> bool) (s : str) (x : N) (r : str) :
  drop (length (span p s)) s = x :: r -> p x = false.
Proof.
  induction s as [|c s IH]; simpl; [done|].
  destruct (p c) eqn:E; simpl; [done|]. by intros [= <- _].
Qed.

Lemma is_word_namechar (c : N) : is_word c = true -> is_namechar c = true.
Proof. unfold is_namechar. by intros ->. Qed.

Lemma is_tagchar_namechar (c : N) :
  is_tagchar c = true -> is_namechar c = true.
Proof.
  unfold is_tagchar, is_namechar, is_word, is_digit, is_letter, is_upper,
    is_lower, chr_eqb. simpl N_of_ascii. intros H.
  rewrite !orb_true_iff, !N.eqb_eq in H.
  rewrite !orb_true_iff, !andb_true_iff, !N.leb_le, !N.eqb_eq. lia.
Qed.

Lemma not_namechar (e : N) :
  is_namechar e = false -> is_word e = false /\ is_tagchar e = false.
Proof.
  intros He. split; apply not_true_iff_false; intros H;
    [apply is_word_namechar in H | apply is_tagchar_namechar in H];
    congruence.
Qed.

(** The prefix that [match_ns] finds, taken apart. *)
Lemma match_ns_elim (s ns : str) :
  match_ns s = Some ns ->
  exists w d rest,
    s = w ++ d ++ 58%N :: rest /\ ns = w ++ d /\ w <> []
    /\ forallb is_word w = true /\ forallb is_tagchar d = true
    /\ match d with x :: _ => is_word x = false | [] => True end.
Proof.
  unfold match_ns. intros H.
  pose proof (span_forallb is_word s) as Hw.
  pose proof (span_drop is_word s) as Hs.
  set (w := span is_word s) in *.
  pose proof (span_forallb is_tagchar (drop (length w) s)) as Hd.
  pose proof (span_drop is_tagchar (drop (length w) s)) as Hs'.
  pose proof (span_drop_head is_word s) as Hhead. fold w in Hhead.
  set (d := span is_tagchar (drop (length w) s)) in *.
  clearbody d. clearbody w.
  destruct w as [|c w']; [done|].
  rewrite <- drop_drop in H.
  destruct (drop (length d) (drop (length (c :: w')) s))
    as [|colon rest] eqn:Erest; [done|].
  destruct (chr_eqb colon ":"%char) eqn:Ecolon; [|done].
  apply N.eqb_eq in Ecolon. change (N_of_ascii ":"%char) with 58%N in Ecolon.
  subst colon. injection H as <-.
  exists (c :: w'), d, rest. split; [|split; [done|]].
  - rewrite Hs at 1. f_equal. exact Hs'.
  - split; [done|]. split; [done|]. split; [done|].
    destruct d as [|x d'] eqn:Ed; [done|].
    apply (Hhead x (d' ++ 58%N :: rest)). rewrite Hs' at 1. done.
Qed.

Lemma match_ns_intro (w d rest : str) :
  w <> [] -> forallb is_word w = true -> forallb is_tagchar d = true ->
  match d with x :: _ => is_word x = false | [] => True end ->
  match_ns (w ++ d ++ 58%N :: rest) = Some (w ++ d).
Proof.
  intros Hne Hw Hd Hx. unfold match_ns.
  assert (Hspan : span is_word (w ++ d ++ 58%N :: rest) = w).
  { destruct d as [|x d']; cbn [app];
      by apply span_app_stop. }
  rewrite Hspan. rewrite drop_app_length.
  rewrite (span_app_stop is_tagchar d rest 58%N Hd eq_refl).
  destruct w as [|c w']; [done|].
  rewrite app_assoc, <- length_app, drop_app_length. reflexivity.
Qed.

(** A run of [[dw_-]] before a character that is neither a name character
    nor a colon has no prefix. *)
Lemma match_ns_tagchars (name r : str) (e : N) :
  forallb is_tagchar name = true -> is_namechar e = false -> e <> 58%N ->
  match_ns (name ++ e :: r) = None.
Proof.
  intros Hname He Hcolon. apply not_namechar in He as [Hew Het].
  unfold match_ns.
  pose proof (span_forallb is_word name) as Hw.
  pose proof (span_drop is_word name) as Hs.
  pose proof (span_drop_head is_word name) as Hhead.
  set (w := span is_word name) in *.
  set (t := drop (length w) name) in *.
  assert (Ht : forallb is_tagchar t = true).
  { rewrite Hs, forallb_app in Hname. by apply andb_prop in Hname as [_ ?]. }
  assert (Hspan : span is_word (name ++ e :: r) = w).
  { rewrite Hs, <- app_assoc. destruct t as [|x t'] eqn:Et; cbn [app].
    - by apply span_app_stop.
    - apply span_app_stop; [done|]. by apply (Hhead x t'). }
  rewrite Hspan.
  assert (Hdrop : drop (length w) (name ++ e :: r) = t ++ e :: r).
  { rewrite Hs at 1. by rewrite <- app_assoc, drop_app_length. }
  clearbody t. clearbody w. destruct w as [|c w']; [done|].
  rewrite Hdrop, (span_app_stop is_tagchar t r e Ht Het).
  rewrite <- drop_drop, Hdrop, drop_app_length.
  replace (chr_eqb e ":"%char) with false; [done|].
  symmetry. by apply N.eqb_neq.
Qed.

(** What a good name is to the tokenizer. *)
Lemma good_name_facts (name : str) :
  good_name name = true ->
  str_eqb name "template" || str_eqb name "TEMPLATE" = false
  /\ (exists c r, name = c :: r /\ is_namechar c = true)
  /\ (exists r e, name = r ++ [e] /\ is_namechar e = true)
  /\ forall e r, is_namechar e = false -> e <> 58%N ->
       exists ns nm, match_qualname (name ++ e :: r)
                     = Some (ns, nm, length name).
Proof.
  unfold good_name. intros H. apply andb_prop in H as [Htpl H].
  apply negb_true_iff in Htpl. split; [done|].
  destruct (match_ns name) as [ns|] eqn:Hns.
  - apply match_ns_elim in Hns
      as (w & d & nm & -> & -> & Hne & Hw & Hd & Hx).
    assert (Hdrop : forall tail,
               drop (length (w ++ d) + 1) ((w ++ d) ++ 58%N :: tail) = tail).
    { intros tail. rewrite <- drop_drop, drop_app_length.
      reflexivity. }
    rewrite app_assoc, Hdrop in H.
    destruct nm as [|n nm]; [done|].
    split; [|split].
    + destruct w as [|c w']; [done|]. exists c, (w' ++ d ++ 58%N :: n :: nm).
      split; [done|]. cbn [forallb] in Hw. apply andb_prop in Hw as [Hc _].
      by apply is_word_namechar.
    + destruct (exists_last (l := n :: nm)) as (r' & e & Hl); [done|].
      exists ((w ++ d) ++ 58%N :: r'), e. split.
      * rewrite Hl, app_assoc. by rewrite <- (app_assoc (w ++ d)).
      * rewrite Hl, forallb_app in H. apply andb_prop in H as [_ H].
        cbn [forallb] in H. apply andb_prop in H as [He _].
        by apply is_tagchar_namechar.
    + intros e r He _. apply not_namechar in He as [_ Het].
      unfold match_qualname. rewrite <- !app_assoc. cbn [app].
      rewrite (match_ns_intro w d _ Hne Hw Hd Hx).
      rewrite app_assoc, Hdrop.
      change (n :: nm ++ e :: r) with ((n :: nm) ++ e :: r).
      rewrite (span_app_stop is_tagchar (n :: nm) r e H Het).
      eexists _, _. do 2 f_equal.
      rewrite !length_app. cbn [length]. rewrite ?length_app. lia.
  - destruct name as [|c name']; [done|].
    split; [|split].
    + exists c, name'. split; [done|]. cbn [forallb] in H.
      apply andb_prop in H as [Hc _]. by apply is_tagchar_namechar.
    + destruct (exists_last (l := c :: name')) as (r' & e & Hl); [done|].
      exists r', e. split; [done|]. rewrite Hl, forallb_app in H.
      apply andb_prop in H as [_ H]. cbn [forallb] in H.
      apply andb_prop in H as [He _]. by apply is_tagchar_namechar.
    + intros e r He Hcolon. unfold match_qualname.
      rewrite (match_ns_tagchars (c :: name') r e H He Hcolon).
      apply not_namechar in He as [_ Het].
      rewrite (span_app_stop is_tagchar (c :: name') r e H Het).
      eauto.
Qed.

Lemma render_start_eq (name : str) (a : object str) :
  render_item (IStart name a) = 60%N :: name ++ attribute_text a ++ [62%N].
Proof. reflexivity. Qed.

Lemma render_end_eq (name : str) :
  render_item (IEnd name) = 60%N :: 47%N :: name ++ [62%N].
Proof. reflexivity. Qed.

Lemma RE_TAG_other (c : N) (r : str) : c <> 60%N -> RE_TAG (c :: r) = None.
Proof.
  intros H. apply N.eqb_neq in H.
  unfold RE_TAG, match_DOCTYPE, match_COMMENT, match_CDATA, match_delimited,
    match_tag.
  cbn [js list_ascii_of_string map starts_with]. unfold chr_eqb.
  change (N_of_ascii "<"%char) with 60%N.
  rewrite (N.eqb_sym 60%N c), H. reflexivity.
Qed.

Lemma RE_TAG_nil : RE_TAG [] = None.
Proof. reflexivity. Qed.

(** After [<], anything but [!] leaves the fourth branch only. *)
Lemma RE_TAG_tag (c : N) (r : str) :
  c <> 33%N -> RE_TAG (60%N :: c :: r) = match_tag (60%N :: c :: r).
Proof.
  intros H. apply N.eqb_neq in H.
  unfold RE_TAG, match_DOCTYPE, match_COMMENT, match_CDATA, match_delimited.
  cbn [js list_ascii_of_string map starts_with]. unfold chr_eqb.
  change (N_of_ascii "!"%char) with 33%N.
  rewrite (N.eqb_sym 33%N c), H. rewrite !andb_false_r. reflexivity.
Qed.

Lemma attribute_text_no_gt (a : object str) :
  good_attributes a = true ->
  forallb (fun x => negb (chr_eqb x ">"%char)) (attribute_text a) = true.
Proof.
  unfold good_attributes. intros H. apply andb_prop in H as [H _].
  induction a as [|[k v] a IH]; [done|].
  cbn [forallb fst snd] in H. apply andb_prop in H as [Hkv H].
  apply andb_prop in Hkv as [Hk Hv].
  destruct (good_key_facts k Hk) as (_ & _ & _ & Hkgt & _).
  destruct (good_value_facts v Hv) as (_ & Hvgt).
  rewrite attribute_text_cons. rewrite forallb_app. cbn [forallb].
  rewrite forallb_app. cbn [forallb]. rewrite Hkgt, Hvgt, (IH H).
  reflexivity.
Qed.

Lemma match_tag_end_attributes (a : object str) (r : str) :
  a <> [] -> good_attributes a = true ->
  match_tag_end (attribute_text a ++ 62%N :: r)
  = Some (Some (attribute_text a), length (attribute_text a) + 1).
Proof.
  intros Hne Hgood. pose proof (attribute_text_no_gt a Hgood) as Hgt.
  unfold match_tag_end.
  rewrite (span_app_stop _ (attribute_text a) r 62%N Hgt eq_refl).
  rewrite drop_app_length.
  rewrite (attribute_text_body a Hne). reflexivity.
Qed.

Lemma RE_TAG_start (name : str) (a : object str) (r : str) :
  good_name name = true -> good_attributes a = true ->
  exists g,
    RE_TAG (render_item (IStart name a) ++ r)
    = Some (length (render_item (IStart name a)), g)
    /\ tag_groups_are g false name
         (match a with [] => None | _ => Some (attribute_text a) end).
Proof.
  intros Hname Hattrs.
  destruct (good_name_facts name Hname)
    as (_ & (c & n' & Hn & Hc) & _ & Hqual).
  destruct (is_namechar_facts c Hc) as (Hc33 & Hc47 & _).
  rewrite render_start_eq. subst name. cbn [app].
  rewrite RE_TAG_tag by done. unfold match_tag.
  change (chr_eqb 60%N "<"%char) with true. cbv iota.
  cbn [js list_ascii_of_string map starts_with].
  change (N_of_ascii "/"%char) with 47%N.
  assert (H47 : chr_eqb 47 c = false) by (apply N.eqb_neq; lia).
  rewrite H47. cbn [andb]. cbv iota.
  destruct a as [|kv a].
  - cbn [attribute_text map concat app].
    destruct (Hqual 62%N r eq_refl) as (ns & nm & Hq); [done|].
    rewrite <- app_assoc. cbn [app] in Hq |- *. rewrite Hq.
    change (c :: n' ++ 62%N :: r) with ((c :: n') ++ 62%N :: r).
    rewrite drop_app_length, take_app_length.
    cbn [match_tag_end]. change (is_space 62%N) with false.
    change (chr_eqb 62%N ">"%char) with true. cbv iota.
    eexists. split.
    + do 2 f_equal. simpl. rewrite !length_app. simpl. lia.
    + by repeat split.
  - destruct (Hqual 32%N (attribute_body (kv :: a) ++ 62%N :: r) eq_refl)
      as (ns & nm & Hq); [done|].
    rewrite (attribute_text_body (kv :: a)) by done.
    rewrite <- !app_assoc. cbn [app] in Hq |- *. rewrite Hq.
    change (c :: n' ++ 32%N :: attribute_body (kv :: a) ++ 62%N :: r)
      with ((c :: n') ++ (32%N :: attribute_body (kv :: a)) ++ 62%N :: r).
    rewrite drop_app_length, take_app_length.
    rewrite <- (attribute_text_body (kv :: a)) by done.
    rewrite match_tag_end_attributes by done.
    eexists. split.
    + do 2 f_equal. rewrite (attribute_text_body (kv :: a)) by done.
      generalize (attribute_body (kv :: a)). intros b.
      cbn [length]. rewrite !length_app. cbn [length].
      rewrite !length_app. cbn [length]. lia.
    + by repeat split.
Qed.

Lemma RE_TAG_end (name : str) (r : str) :
  good_name name = true ->
  exists g,
    RE_TAG (render_item (IEnd name) ++ r)
    = Some (length (render_item (IEnd name)), g)
    /\ tag_groups_are g true name None.
Proof.
  intros Hname.
  destruct (good_name_facts name Hname) as (_ & _ & _ & Hqual).
  rewrite render_end_eq. cbn [app].
  rewrite RE_TAG_tag by done. unfold match_tag.
  change (chr_eqb 60%N "<"%char) with true. cbv iota.
  cbn [js list_ascii_of_string map starts_with].
  change (chr_eqb "/"%char 47%N) with true. cbn [andb]. cbv iota.
  cbn [drop].
  destruct (Hqual 62%N r eq_refl) as (ns & nm & Hq); [done|].
  rewrite <- app_assoc. cbn [app]. rewrite !drop_0. rewrite Hq.
  rewrite drop_app_length, take_app_length.
  cbn [match_tag_end]. change (is_space 62%N) with false.
  change (chr_eqb 62%N ">"%char) with true. cbv iota.
  eexists. split.
  - do 2 f_equal. simpl. rewrite !length_app. simpl. lia.
  - by repeat split.
Qed.

(** ** The tokenizer on the text of the serializer *)

Lemma RE_TAG_exec_at (pre r m : str) (g : TagGroups) :
  RE_TAG (m ++ r) = Some (length m, g) ->
  RE_TAG_exec (pre ++ m ++ r) (length pre)
  = (Some {| index := length pre; m0 := m; groups := g |},
     length pre + length m).
Proof.
  intros H. unfold RE_TAG_exec. rewrite exec_at.
  rewrite (scan_head _ _ _ _ _ H).
  by rewrite drop_app_length, take_app_length.
Qed.

Lemma RE_TAG_exec_skip (pre u r : str) :
  forallb (fun c => negb (chr_eqb c "<"%char)) u = true ->
  RE_TAG_exec (pre ++ u ++ r) (length pre)
  = RE_TAG_exec ((pre ++ u) ++ r) (length (pre ++ u)).
Proof.
  intros Hu.
  assert (Hexec : exec RE_TAG (pre ++ u ++ r) (length pre)
                  = exec RE_TAG ((pre ++ u) ++ r) (length (pre ++ u))).
  { rewrite !exec_at. rewrite scan_skip; [by rewrite length_app|].
    intros c r' Hc. apply RE_TAG_other.
    apply list_elem_of_In in Hc.
    apply (proj1 (forallb_forall _ _) Hu) in Hc.
    apply negb_true_iff in Hc. by apply N.eqb_neq in Hc. }
  unfold RE_TAG_exec. rewrite Hexec. by rewrite (app_assoc pre u r).
Qed.

Lemma RE_TAG_exec_end (text : str) :
  RE_TAG_exec text (length text) = (None, 0).
Proof.
  unfold RE_TAG_exec, exec. rewrite Nat.ltb_irrefl.
  by rewrite drop_all.
Qed.

Lemma escape_text_no_lt (d : str) :
  forallb (fun c => negb (chr_eqb c "<"%char)) (escape_text d) = true.
Proof.
  rewrite escape_text_chars. induction d as [|c d IH]; [done|].
  cbn [map concat]. rewrite forallb_app, IH, andb_true_r.
  unfold escape_chr.
  destruct (chr_eqb c "&"%char); [done|].
  destruct (chr_eqb c ">"%char); [done|].
  destruct (chr_eqb c "<"%char) eqn:E; [done|]. cbn [forallb]. by rewrite E.
Qed.

Lemma escape_text_nonempty (d : str) : d <> [] -> escape_text d <> [].
Proof.
  rewrite escape_text_chars. destruct d as [|c d]; [done|]. intros _.
  cbn [map concat]. pose proof (escape_chr_length c).
  destruct (escape_chr c); [simpl in *; lia | done].
Qed.

Lemma ends_with_slash_gt (x : str) (e : N) :
  e <> 47%N -> ends_with "/>" ((x ++ [e]) ++ [62%N]) = false.
Proof.
  intros He. unfold ends_with. rewrite !rev_app_distr. cbn [rev app].
  change (rev (js "/>")) with [62%N; 47%N]. cbn [starts_with].
  assert (H : chr_eqb 47 e = false) by (apply N.eqb_neq; lia).
  by rewrite H, andb_false_r.
Qed.

(** The marker of an opening tag. *)
Lemma markers_of_start (text : str) (i : nat) (g : TagGroups) (name : str)
  (a : object str) :
  good_name name = true -> good_attributes a = true ->
  tag_groups_are g false name
    (match a with [] => None | _ => Some (attribute_text a) end) ->
  exists mk,
    markers_of (matched_fragment text
                  {| index := i; m0 := render_item (IStart name a);
                     groups := g |})
    = Some [mk]
    /\ marker_for (IStart name a) mk.
Proof.
  intros Hname Hattrs (Hd & Hc & Hcd & Hcl & Hq & Ha).
  destruct (good_name_facts name Hname) as (_ & _ & (n' & e & Hn & He) & _).
  destruct (is_namechar_facts e He) as (_ & He47 & _).
  unfold markers_of. cbn [mf_match matched_fragment groups m0].
  rewrite Hcd, Hd, Hc, Hcl, Ha, Hq. cbn [truthy].
  assert (Hself : ends_with "/>" (render_item (IStart name a)) = false).
  { rewrite render_start_eq. destruct a as [|kv a].
    - cbn [attribute_text map concat app]. rewrite Hn.
      change (60%N :: (n' ++ [e]) ++ [62%N])
        with (((60%N :: n') ++ [e]) ++ [62%N]).
      by apply ends_with_slash_gt.
    - destruct (attribute_text_ends (kv :: a)) as [r Hr]; [done|].
      rewrite Hr.
      replace (60%N :: name ++ (r ++ [34%N]) ++ [62%N])
        with (((60%N :: name ++ r) ++ [34%N]) ++ [62%N])
        by (cbn [app]; by rewrite <- !app_assoc).
      by apply ends_with_slash_gt. }
  rewrite Hself. destruct a as [|kv a].
  - cbn [truthy]. eexists. split; [reflexivity|].
    cbn [marker_for mk_marker type]. by repeat split.
  - assert (Ht : truthy (Some (attribute_text (kv :: a))) = true)
      by (rewrite attribute_text_body by done; reflexivity).
    rewrite Ht. cbn [default]. unfold id.
    rewrite parseAttributes_run_attribute_text by done.
    eexists. split; [reflexivity|].
    split; [done|]. split; [done|]. cbn [attributes mk_marker].
    by apply copy_attributes_parsed.
Qed.

(** The marker of a closing tag. *)
Lemma markers_of_end (text : str) (i : nat) (g : TagGroups) (name : str) :
  tag_groups_are g true name None ->
  exists mk,
    markers_of (matched_fragment text
                  {| index := i; m0 := render_item (IEnd name);
                     groups := g |})
    = Some [mk]
    /\ marker_for (IEnd name) mk.
Proof.
  intros (Hd & Hc & Hcd & Hcl & Hq & Ha).
  unfold markers_of. cbn [mf_match matched_fragment groups m0].
  rewrite Hcd, Hd, Hc, Hcl, Ha. cbn [truthy].
  eexists. split; reflexivity.
Qed.

Lemma IterMatches_next_AtLoop (text : str) (offset lastIndex : nat) :
  text <> [] ->
  IterMatches_next text (AtLoop offset) lastIndex
  = match RE_TAG_exec text lastIndex with
    | (Some m, lastIndex') =>
        if negb (offset =? index m) then
          (Some (unmatched_fragment text offset (index m)),
           Pending m offset, lastIndex')
        else
          (Some (matched_fragment text m),
           AtLoop (Nat.max (offset + 1) (index m + length (m0 m))),
           lastIndex')
    | (None, lastIndex') =>
        if offset <? length text then
          (Some (unmatched_fragment text offset (length text)),
           Finished, lastIndex')
        else (None, Finished, lastIndex')
    end.
Proof. by destruct text. Qed.

(** The step of the generator at a tag. *)
Lemma iterMarkers_next_tag (pre m r : str) (g : TagGroups) (mk : Marker) :
  m <> [] ->
  RE_TAG (m ++ r) = Some (length m, g) ->
  markers_of (matched_fragment (pre ++ m ++ r)
                {| index := length pre; m0 := m; groups := g |})
  = Some [mk] ->
  iterMarkers_next (pre ++ m ++ r) (at_loop (length pre)) (length pre)
  = (Yield mk, at_loop (length (pre ++ m)), length (pre ++ m)).
Proof.
  intros Hm Hre Hmk. unfold iterMarkers_next, at_loop. cbn [mg_queue mg_inner].
  rewrite IterMatches_next_AtLoop by (destruct pre, m; done).
  rewrite (RE_TAG_exec_at pre r m g Hre). cbn [index m0].
  rewrite Nat.eqb_refl. cbn [negb]. rewrite Hmk.
  rewrite length_app.
  replace (Nat.max (length pre + 1) (length pre + length m))
    with (length pre + length m); [done|].
  destruct m; [done|]. simpl. lia.
Qed.

Lemma rawtext_unmatched (pre u r : str) :
  rawtext (mf_fragment (unmatched_fragment (pre ++ u ++ r) (length pre)
                          (length (pre ++ u))))
  = u.
Proof.
  unfold rawtext, unmatched_fragment. cbn [mf_fragment source f_start f_end].
  rewrite substring_take_drop by (rewrite !length_app; lia).
  rewrite drop_app_length. rewrite length_app.
  replace (length pre + length u - length pre) with (length u) by lia.
  by rewrite take_app_length.
Qed.

(** The two steps of the generator at text followed by a tag. *)
Lemma iterMarkers_next_text_tag (pre u m r : str) (g : TagGroups)
  (mk : Marker) :
  u <> [] -> m <> [] ->
  forallb (fun c => negb (chr_eqb c "<"%char)) u = true ->
  RE_TAG (m ++ r) = Some (length m, g) ->
  markers_of (matched_fragment (pre ++ u ++ m ++ r)
                {| index := length (pre ++ u); m0 := m; groups := g |})
  = Some [mk] ->
  exists c st,
    iterMarkers_next (pre ++ u ++ m ++ r) (at_loop (length pre)) (length pre)
    = (Yield c, st, length ((pre ++ u) ++ m))
    /\ type c = Content /\ marker_text c = u
    /\ iterMarkers_next (pre ++ u ++ m ++ r) st (length ((pre ++ u) ++ m))
       = (Yield mk, at_loop (length ((pre ++ u) ++ m)),
          length ((pre ++ u) ++ m)).
Proof.
  intros Hu Hm Hlt Hre Hmk.
  assert (Hexec : RE_TAG_exec (pre ++ u ++ m ++ r) (length pre)
                  = (Some {| index := length (pre ++ u); m0 := m;
                             groups := g |},
                     length ((pre ++ u) ++ m))).
  { rewrite RE_TAG_exec_skip by done.
    rewrite (RE_TAG_exec_at (pre ++ u) r m g Hre).
    by rewrite (length_app (pre ++ u) m). }
  eexists _, _. split; [|split; [|split]].
  - unfold iterMarkers_next, at_loop. cbn [mg_queue mg_inner].
    rewrite IterMatches_next_AtLoop by (destruct pre, u; done).
    rewrite Hexec. cbn [index m0].
    replace (length pre =? length (pre ++ u)) with false.
    2:{ symmetry. apply Nat.eqb_neq. rewrite length_app.
        destruct u; [done|]. simpl. lia. }
    cbn [negb markers_of unmatched_fragment mf_match]. reflexivity.
  - reflexivity.
  - unfold marker_text. cbn [fragment mk_marker].
    apply (rawtext_unmatched pre u (m ++ r)).
  - unfold iterMarkers_next. cbn [mg_queue mg_inner IterMatches_next].
    cbn [index m0]. rewrite Hmk. unfold at_loop.
    replace (Nat.max (length pre + 1) (length (pre ++ u) + length m))
      with (length ((pre ++ u) ++ m)); [reflexivity|].
    rewrite !length_app. destruct u; [done|]. cbn [length]. lia.
Qed.

(** The steps of the generator at text that ends the input. *)
Lemma iterMarkers_next_text_last (pre u : str) :
  u <> [] ->
  forallb (fun c => negb (chr_eqb c "<"%char)) u = true ->
  exists c st,
    iterMarkers_next (pre ++ u) (at_loop (length pre)) (length pre)
    = (Yield c, st, 0)
    /\ type c = Content /\ marker_text c = u
    /\ exists st', iterMarkers_next (pre ++ u) st 0 = (Done, st', 0).
Proof.
  intros Hu Hlt.
  assert (Hexec : RE_TAG_exec (pre ++ u) (length pre) = (None, 0)).
  { rewrite <- (app_nil_r u). rewrite RE_TAG_exec_skip by done.
    rewrite app_nil_r. apply RE_TAG_exec_end. }
  eexists _, _. split; [|split; [|split]].
  - unfold iterMarkers_next, at_loop. cbn [mg_queue mg_inner].
    rewrite IterMatches_next_AtLoop by (destruct pre, u; done).
    rewrite Hexec.
    replace (length pre <? length (pre ++ u)) with true.
    2:{ symmetry. apply Nat.ltb_lt. rewrite length_app.
        destruct u; [done|]. simpl. lia. }
    cbn [markers_of unmatched_fragment mf_match]. reflexivity.
  - reflexivity.
  - unfold marker_text. cbn [fragment mk_marker].
    pose proof (rawtext_unmatched pre u []) as H.
    rewrite !app_nil_r in H. exact H.
  - eexists. reflexivity.
Qed.

Lemma iterMarkers_next_end (text : str) :
  exists st,
    iterMarkers_next text (at_loop (length text)) (length text)
    = (Done, st, 0).
Proof.
  unfold iterMarkers_next, at_loop. cbn [mg_queue mg_inner].
  destruct text as [|c t] eqn:E; [eexists; reflexivity|]. rewrite <- E.
  rewrite IterMatches_next_AtLoop by (by rewrite E).
  rewrite RE_TAG_exec_end, Nat.ltb_irrefl. eexists. reflexivity.
Qed.

Lemma render_cons (i : Item) (rest : list Item) :
  render (i :: rest) = render_item i ++ render rest.
Proof. reflexivity. Qed.

Lemma trim_nil_of_nil (d : str) : str_eqb (trim d) [] = false -> d <> [].
Proof. by intros H ->. Qed.

(** A tag of the serializer matches where it begins, whatever follows, and
    gives the marker of its item. *)
Lemma item_tag_match (i : Item) (r : str) :
  good_item i = true -> is_itext i = false ->
  render_item i <> []
  /\ exists g,
       RE_TAG (render_item i ++ r) = Some (length (render_item i), g)
       /\ forall text idx, exists mk,
            markers_of (matched_fragment text
                          {| index := idx; m0 := render_item i;
                             groups := g |})
            = Some [mk]
            /\ marker_for i mk.
Proof.
  destruct i as [d|name a|name]; [done| |]; intros Hgood _.
  - cbn [good_item] in Hgood. apply andb_prop in Hgood as [Hname Hattrs].
    split; [by rewrite render_start_eq|].
    destruct (RE_TAG_start name a r Hname Hattrs) as (g & Hre & Hg).
    exists g. split; [done|]. intros text idx.
    by apply markers_of_start.
  - cbn [good_item] in Hgood. split; [by rewrite render_end_eq|].
    destruct (RE_TAG_end name r Hgood) as (g & Hre & Hg).
    exists g. split; [done|]. intros text idx.
    by apply markers_of_end.
Qed.

(** The markers that the tokenizer yields on the text of a sequence of
    items, from the start of the text or from the end of a tag. *)
Lemma drains_items (n : nat) (items : list Item) (pre : str) :
  length items <= n ->
  forallb good_item items = true -> no_adjacent_itext items = true ->
  exists ms,
    drains (pre ++ render items) (at_loop (length pre)) (length pre) ms 0
    /\ Forall2 marker_for items ms.
Proof.
  revert items pre. induction n as [|n IH]; intros items pre Hn Hgood Hadj.
  - destruct items; [|simpl in Hn; lia].
    unfold render. cbn [map concat]. rewrite app_nil_r.
    destruct (iterMarkers_next_end pre) as [st Hst].
    exists []. split; [by eapply drains_done | constructor].
  - destruct items as [|i rest].
    { unfold render. cbn [map concat]. rewrite app_nil_r.
      destruct (iterMarkers_next_end pre) as [st Hst].
      exists []. split; [by eapply drains_done | constructor]. }
    cbn [forallb] in Hgood. apply andb_prop in Hgood as [Hi Hgood].
    destruct (is_itext i) eqn:Htext.
    + destruct i as [d| |]; try done. cbn [good_item] in Hi.
      apply negb_true_iff in Hi.
      pose proof (escape_text_nonempty d (trim_nil_of_nil d Hi)) as Hu.
      pose proof (escape_text_no_lt d) as Hlt.
      destruct rest as [|j rest'].
      * unfold render. cbn [map concat render_item]. rewrite app_nil_r.
        destruct (iterMarkers_next_text_last pre (escape_text d) Hu Hlt)
          as (c & st & Hc & Hty & Htx & st' & Hst').
        exists [c]. split.
        -- eapply drains_yield; [exact Hc|]. by eapply drains_done.
        -- constructor; [by split | constructor].
      * cbn [no_adjacent_itext] in Hadj. apply andb_prop in Hadj as [Hj Hadj].
        cbn [is_itext andb] in Hj. apply negb_true_iff in Hj.
        cbn [forallb] in Hgood. apply andb_prop in Hgood as [Hjg Hgood].
        destruct (item_tag_match j (render rest') Hjg Hj) as (Hm & g & Hre & Hmk).
        rewrite !render_cons. cbn [render_item].
        destruct (Hmk (pre ++ escape_text d ++ render_item j ++ render rest')
                    (length (pre ++ escape_text d))) as (mk & Hmk' & Hfor).
        destruct (iterMarkers_next_text_tag pre (escape_text d)
                    (render_item j) (render rest') g mk Hu Hm Hlt Hre Hmk')
          as (c & st & Hc & Hty & Htx & Hnext).
        destruct (IH rest' ((pre ++ escape_text d) ++ render_item j))
          as (ms & Hdr & Hms); [simpl in Hn; lia | done | |].
        { destruct rest' as [|k rest'']; [done|].
          cbn [no_adjacent_itext] in Hadj.
          by apply andb_prop in Hadj as [_ Hadj]. }
        assert (Heq : ((pre ++ escape_text d) ++ render_item j) ++ render rest'
                      = pre ++ escape_text d ++ render_item j ++ render rest')
          by (by rewrite <- !app_assoc).
        rewrite Heq in Hdr.
        exists (c :: mk :: ms). split.
        -- eapply drains_yield; [exact Hc|].
           eapply drains_yield; [exact Hnext|]. exact Hdr.
        -- constructor; [by split|]. by constructor.
    + destruct (item_tag_match i (render rest) Hi Htext) as (Hm & g & Hre & Hmk).
      rewrite render_cons.
      destruct (Hmk (pre ++ render_item i ++ render rest) (length pre))
        as (mk & Hmk' & Hfor).
      pose proof (iterMarkers_next_tag pre (render_item i) (render rest) g mk
                    Hm Hre Hmk') as Hnext.
      destruct (IH rest (pre ++ render_item i)) as (ms & Hdr & Hms);
        [simpl in Hn; lia | done | |].
      { destruct rest as [|k rest']; [done|].
        cbn [no_adjacent_itext] in Hadj.
        by apply andb_prop in Hadj as [_ Hadj]. }
      rewrite <- app_assoc in Hdr.
      exists (mk :: ms). split.
      * eapply drains_yield; [exact Hnext|]. exact Hdr.
      * by constructor.
Qed.

(** [parse] on a text whose markers are known. *)
Lemma parse_loop_drains (text : str) (g : MarkerGen) (lastIndex : nat)
  (ms : list Marker) (lastIndex' : nat) :
  drains text g lastIndex ms lastIndex' ->
  forall fuel stack, length ms < fuel ->
    parse_loop fuel text g lastIndex stack
    = match finish (fold_left (fun s m => parse_marker m s) ms stack) with
      | Some doc => Returned doc lastIndex'
      | None => OutOfFuel
      end.
Proof.
  induction 1 as [g li g' li' Hnext | g li m g' li1 ms li' Hnext Hdr IH];
    intros fuel stack Hfuel.
  - destruct fuel as [|fuel]; [simpl in Hfuel; lia|].
    cbn [parse_loop]. by rewrite Hnext.
  - destruct fuel as [|fuel]; [simpl in Hfuel; lia|].
    cbn [parse_loop]. rewrite Hnext. rewrite IH by (simpl in Hfuel; lia).
    reflexivity.
Qed.

(** ** The tree builder on the markers of the serializer *)

Lemma good_element_children (name : str) (a : object str) (cs : list Node) :
  good (Element name a cs) = true ->
  good_name name = true /\ good_attributes a = true /\ cs <> []
  /\ forallb good cs = true /\ no_adjacent_text cs = true.
Proof.
  cbn [good]. intros H.
  apply andb_prop in H as [H Hadj]. apply andb_prop in H as [H Hcs].
  apply andb_prop in H as [H Hne]. apply andb_prop in H as [Hname Hattrs].
  apply negb_true_iff, bool_decide_eq_false in Hne. done.
Qed.

(** Induction on the good trees. *)
Lemma good_induction (P : Node -> Prop) :
  (forall d, good (TextNode d) = true -> P (TextNode d)) ->
  (forall name a cs,
     good (Element name a cs) = true -> Forall P cs ->
     P (Element name a cs)) ->
  forall n, good n = true -> P n.
Proof.
  intros HT HE. fix IH 1.
  intros [cs|cs|name a cs|name a cs|d|d] Hg; try discriminate.
  - apply HE; [done|].
    destruct (good_element_children name a cs Hg) as (_ & _ & _ & Hcs & _).
    clear Hg. induction cs as [|c cs IHcs]; constructor.
    + apply IH. cbn [forallb] in Hcs. by apply andb_prop in Hcs as [? _].
    + apply IHcs. cbn [forallb] in Hcs. by apply andb_prop in Hcs as [_ ?].
  - by apply HT.
Qed.

Lemma parse_marker_item (i : Item) (m : Marker) (stack : list Frame) :
  good_item i = true -> marker_for i m ->
  parse_marker m stack = build_item i stack.
Proof.
  destruct i as [d|name_ a|name_]; cbn [good_item marker_for build_item].
  - intros Hd [Hty Htx]. unfold parse_marker. rewrite Hty, Htx.
    rewrite expandEntities_escape_text.
    apply negb_true_iff in Hd. by destruct (trim d).
  - intros Hg (Hty & Hn & Ha). apply andb_prop in Hg as [Hname _].
    destruct (good_name_facts name_ Hname)
      as (Htpl & (c & r & Hcr & Hc) & _).
    destruct (is_namechar_facts c Hc) as (Hc33 & _).
    unfold parse_marker. rewrite Hty, Hn. cbn [default].
    replace (starts_with "!" (id name_)) with false.
    2:{ unfold id. rewrite Hcr. cbn [js list_ascii_of_string map starts_with].
        change (N_of_ascii "!"%char) with 33%N.
        assert (H : chr_eqb 33 c = false) by (apply N.eqb_neq; lia).
        by rewrite H. }
    unfold open_frame, id. by rewrite Htpl, Ha.
  - intros _ Hty. unfold parse_marker. by rewrite Hty.
Qed.

Lemma fold_markers_items (items : list Item) (ms : list Marker)
  (stack : list Frame) :
  forallb good_item items = true -> Forall2 marker_for items ms ->
  fold_left (fun s m => parse_marker m s) ms stack
  = fold_left (fun s i => build_item i s) items stack.
Proof.
  intros Hgood Hms. revert stack Hgood.
  induction Hms as [|i m items ms Him Hms IH]; intros stack Hgood; [done|].
  cbn [forallb] in Hgood. apply andb_prop in Hgood as [Hi Hgood].
  cbn [fold_left]. rewrite (parse_marker_item i m stack Hi Him).
  by apply IH.
Qed.

(** The items of a good tree rebuild it on top of the stack. *)
Lemma build_items_of (n : Node) :
  good n = true ->
  forall o cs rest,
    fold_left (fun s i => build_item i s) (items_of n) ((o, cs) :: rest)
    = (o, cs ++ [n]) :: rest.
Proof.
  revert n. apply (good_induction (fun n =>
    forall o cs rest,
      fold_left (fun s i => build_item i s) (items_of n) ((o, cs) :: rest)
      = (o, cs ++ [n]) :: rest)).
  - intros d _ o cs rest. reflexivity.
  - intros name_ a children _ Hchildren o cs rest.
    cbn [items_of fold_left build_item]. rewrite fold_left_app.
    assert (Hforest : forall acc,
      fold_left (fun s i => build_item i s) (concat (map items_of children))
        ((OpenElement name_ a, acc) :: (o, cs) :: rest)
      = (OpenElement name_ a, acc ++ children) :: (o, cs) :: rest).
    { induction Hchildren as [|c children Hc Hchildren IHc]; intros acc.
      - simpl. by rewrite app_nil_r.
      - cbn [map concat]. rewrite fold_left_app. rewrite Hc. rewrite IHc.
        by rewrite <- app_assoc. }
    rewrite (Hforest []). reflexivity.
Qed.

Lemma build_forest (ns : list Node) (o : Open) (cs : list Node)
  (rest : list Frame) :
  forallb good ns = true ->
  fold_left (fun s i => build_item i s) (concat (map items_of ns))
    ((o, cs) :: rest)
  = (o, cs ++ ns) :: rest.
Proof.
  revert cs. induction ns as [|n ns IH]; intros cs Hgood.
  - simpl. by rewrite app_nil_r.
  - cbn [forallb] in Hgood. apply andb_prop in Hgood as [Hn Hgood].
    cbn [map concat]. rewrite fold_left_app.
    rewrite (build_items_of n Hn). rewrite IH by done.
    by rewrite <- app_assoc.
Qed.

(** ** The items of a good tree *)

Lemma forallb_concat_items (cs : list Node) :
  Forall (fun n => forallb good_item (items_of n) = true) cs ->
  forallb good_item (concat (map items_of cs)) = true.
Proof.
  induction 1 as [|c cs Hc Hcs IH]; [done|].
  cbn [map concat]. by rewrite forallb_app, Hc, IH.
Qed.

Lemma items_of_good (n : Node) :
  good n = true -> forallb good_item (items_of n) = true.
Proof.
  revert n. apply good_induction.
  - intros d Hd. cbn [items_of forallb good_item]. cbn [good] in Hd.
    by rewrite Hd.
  - intros name_ a cs Hg Hcs.
    destruct (good_element_children name_ a cs Hg) as (Hname & Hattrs & _).
    cbn [items_of forallb good_item]. rewrite Hname, Hattrs. cbn [andb].
    rewrite forallb_app, (forallb_concat_items cs Hcs).
    cbn [forallb good_item]. by rewrite Hname.
Qed.

Lemma ends_with_text_cons (a b : Item) (l : list Item) :
  ends_with_text (a :: b :: l) = ends_with_text (b :: l).
Proof.
  unfold ends_with_text. cbn [rev].
  destruct (rev l) as [|x r]; [done|]. reflexivity.
Qed.

Lemma no_adjacent_itext_cons (a b : Item) (l : list Item) :
  no_adjacent_itext (a :: b :: l)
  = negb (is_itext a && is_itext b) && no_adjacent_itext (b :: l).
Proof. reflexivity. Qed.

Lemma no_adjacent_itext_app (l1 l2 : list Item) :
  no_adjacent_itext l1 = true -> no_adjacent_itext l2 = true ->
  ends_with_text l1 && starts_with_text l2 = false ->
  no_adjacent_itext (l1 ++ l2) = true.
Proof.
  induction l1 as [|a l1 IH]; intros H1 H2 Hb; [done|].
  destruct l1 as [|b l1].
  - cbn [app]. destruct l2 as [|c l2]; [done|].
    rewrite no_adjacent_itext_cons. unfold ends_with_text in Hb.
    cbn [rev app starts_with_text] in Hb. by rewrite Hb, H2.
  - rewrite no_adjacent_itext_cons in H1. apply andb_prop in H1 as [Hab H1].
    change ((a :: b :: l1) ++ l2) with (a :: b :: l1 ++ l2).
    rewrite no_adjacent_itext_cons. rewrite Hab. cbn [andb].
    change (b :: l1 ++ l2) with ((b :: l1) ++ l2).
    apply IH; [done | done |]. by rewrite <- ends_with_text_cons with (a := a).
Qed.

Lemma starts_with_text_app (l1 l2 : list Item) :
  l1 <> [] -> starts_with_text (l1 ++ l2) = starts_with_text l1.
Proof. by destruct l1. Qed.

Lemma items_of_nonempty (n : Node) : good n = true -> items_of n <> [].
Proof. by destruct n. Qed.

(** The items of a forest: no two texts side by side when no two Text
    nodes are. *)
Lemma items_forest_adjacent (cs : list Node) :
  forallb good cs = true ->
  Forall (fun n => no_adjacent_itext (items_of n) = true
                   /\ starts_with_text (items_of n) = is_text n
                   /\ ends_with_text (items_of n) = is_text n) cs ->
  no_adjacent_text cs = true ->
  no_adjacent_itext (concat (map items_of cs)) = true
  /\ starts_with_text (concat (map items_of cs))
     = match cs with n :: _ => is_text n | [] => false end.
Proof.
  intros Hgood Hall. revert Hgood.
  induction Hall as [|c cs (Hc1 & Hc2 & Hc3) Hcs IH]; intros Hgood Hadj;
    [done|].
  cbn [forallb] in Hgood. apply andb_prop in Hgood as [Hcg Hgood].
  cbn [map concat].
  rewrite starts_with_text_app by (by apply items_of_nonempty).
  split; [|done].
  destruct IH as [IH1 IH2]; [done| |].
  { destruct cs; [done|]. cbn [no_adjacent_text] in Hadj.
    by apply andb_prop in Hadj as [_ ?]. }
  apply no_adjacent_itext_app; [done | done |].
  rewrite Hc3, IH2. destruct cs as [|c' cs]; [by rewrite andb_false_r|].
  cbn [no_adjacent_text] in Hadj. apply andb_prop in Hadj as [Hadj _].
  by apply negb_true_iff in Hadj.
Qed.

Lemma items_of_adjacent (n : Node) :
  good n = true ->
  no_adjacent_itext (items_of n) = true
  /\ starts_with_text (items_of n) = is_text n
  /\ ends_with_text (items_of n) = is_text n.
Proof.
  revert n. apply good_induction.
  - intros d _. done.
  - intros name_ a cs Hg Hcs.
    destruct (good_element_children name_ a cs Hg)
      as (_ & _ & _ & Hgood & Hadj).
    destruct (items_forest_adjacent cs Hgood Hcs Hadj) as [Hf _].
    cbn [items_of is_text starts_with_text is_itext]. split; [|split; [done|]].
    + assert (Hl : no_adjacent_itext
                     (concat (map items_of cs) ++ [IEnd name_]) = true).
      { apply no_adjacent_itext_app; [done | done |].
        by rewrite andb_false_r. }
      cbn [no_adjacent_itext].
      destruct (concat (map items_of cs) ++ [IEnd name_]); [done|].
      exact Hl.
    + unfold ends_with_text. cbn [rev]. rewrite rev_app_distr. reflexivity.
Qed.

Lemma items_forest_good (cs : list Node) :
  forallb good cs = true -> no_adjacent_text cs = true ->
  forallb good_item (concat (map items_of cs)) = true
  /\ no_adjacent_itext (concat (map items_of cs)) = true.
Proof.
  intros Hgood Hadj.
  assert (Hall : Forall (fun n => good n = true) cs).
  { apply Forall_forall. intros n Hn. apply list_elem_of_In in Hn.
    by apply (proj1 (forallb_forall _ _) Hgood). }
  split.
  - apply forallb_concat_items. eapply Forall_impl; [exact Hall|].
    intros n Hn. by apply items_of_good.
  - apply items_forest_adjacent; [done| |done].
    eapply Forall_impl; [exact Hall|]. intros n Hn. by apply items_of_adjacent.
Qed.

(** ** The serializer writes the items of a good tree *)

Lemma render_app (l1 l2 : list Item) :
  render (l1 ++ l2) = render l1 ++ render l2.
Proof. unfold render. by rewrite map_app, concat_app. Qed.

Lemma attribute_chunks_text (a : object str) :
  good_attributes a = true ->
  concat (attribute_chunks a) = attribute_text a
  /\ style_chunks a = [].
Proof.
  unfold good_attributes. intros H. apply andb_prop in H as [H _].
  induction a as [|[k v] a IH]; [done|].
  cbn [forallb fst snd] in H. apply andb_prop in H as [Hkv H].
  apply andb_prop in Hkv as [Hk _].
  destruct (good_key_facts k Hk) as (_ & _ & _ & _ & _ & Hstyle).
  destruct (IH H) as [IH1 IH2].
  apply str_eqb_neq in Hstyle. split.
  - unfold attribute_chunks, attribute_text in *.
    cbn [flat_map map concat fst snd]. rewrite Hstyle.
    rewrite concat_app. rewrite IH1. cbn [concat]. by rewrite app_nil_r.
  - unfold style_chunks in *. cbn [obj_get].
    replace (str_eqb "style" k) with false; [exact IH2|].
    symmetry. apply str_eqb_neq. apply str_eqb_neq in Hstyle. congruence.
Qed.

Lemma toXML_forest (cs : list Node) :
  Forall (fun n => concat (iterXMLLines without_prolog n)
                   = render (items_of n)) cs ->
  concat (concat (map (iterXMLLines without_prolog) cs))
  = render (concat (map items_of cs)).
Proof.
  induction 1 as [|c cs Hc Hcs IH]; [done|].
  cbn [map concat]. by rewrite concat_app, render_app, Hc, IH.
Qed.

Lemma toXML_items (n : Node) :
  good n = true ->
  concat (iterXMLLines without_prolog n) = render (items_of n).
Proof.
  revert n. apply good_induction.
  - intros d _. reflexivity.
  - intros name_ a cs Hg Hcs.
    destruct (good_element_children name_ a cs Hg)
      as (_ & Hattrs & Hne & _).
    destruct (attribute_chunks_text a Hattrs) as [Hchunks Hstyle].
    cbn [iterXMLLines items_of]. unfold element_chunks.
    cbn [html_empty without_prolog opt_html andb].
    rewrite (bool_decide_eq_false_2 (cs = [])) by done. cbn [andb].
    rewrite Hstyle. rewrite !concat_app. rewrite Hchunks.
    rewrite (toXML_forest cs Hcs).
    assert (Hend : render [IEnd name_] = render_item (IEnd name_)).
    { unfold render. cbn [map concat]. by rewrite app_nil_r. }
    rewrite render_cons, render_app, Hend. cbn [render_item].
    cbn [concat]. rewrite !app_nil_r. rewrite <- !app_assoc.
    reflexivity.
Qed.

Lemma items_length (items : list Item) :
  forallb good_item items = true -> length items <= length (render items).
Proof.
  induction items as [|i items IH]; [done|]. intros H.
  cbn [forallb] in H. apply andb_prop in H as [Hi H].
  rewrite render_cons, length_app. specialize (IH H).
  assert (0 < length (render_item i)); [|simpl; lia].
  destruct i as [d|name_ a|name_].
  - cbn [good_item] in Hi. apply negb_true_iff in Hi.
    pose proof (escape_text_nonempty d (trim_nil_of_nil d Hi)).
    cbn [render_item]. destruct (escape_text d); [done | simpl; lia].
  - rewrite render_start_eq. simpl. lia.
  - rewrite render_end_eq. simpl. lia.
Qed.

(** *** The round trip *)

Lemma attributes_eqb_refl (a : object str) : attributes_eqb a a = true.
Proof.
  unfold attributes_eqb. induction a as [|[k v] a IH]; [done|].
  cbn [all2 fst snd]. by rewrite !str_eqb_refl, IH.
Qed.

Lemma equivalent_refl : forall n : Node, equivalent n n = true.
Proof.
  fix IH 1.
  assert (Hall : forall cs : list Node,
             Forall (fun c => equivalent c c = true) cs ->
             all2 equivalent cs cs = true).
  { induction 1 as [|c cs Hc Hcs IHcs]; [done|].
    cbn [all2]. by rewrite Hc, IHcs. }
  intros [cs|cs|name_ a cs|name_ a cs|d|d]; cbn [equivalent];
    rewrite ?str_eqb_refl, ?attributes_eqb_refl; cbn [andb]; try done;
    apply Hall; clear Hall; induction cs as [|c cs IHcs]; constructor;
    solve [apply IH | exact IHcs].
Qed.

(** The serializer without the prolog writes the items of a good
    document. *)
Lemma toXML_document (cs : list Node) :
  forallb good cs = true ->
  toXML without_prolog (Document cs) = render (concat (map items_of cs)).
Proof.
  intros Hgood. unfold toXML, toXMLLines. cbn [iterXMLLines without_prolog
    opt_doctype app]. apply toXML_forest.
  apply Forall_forall. intros n Hn. apply toXML_items.
  apply list_elem_of_In in Hn. by apply (proj1 (forallb_forall _ _) Hgood).
Qed.

(** [parse] reads the text of a good document back as that document, and
    leaves the pattern at rest. *)
Lemma parse_toXML_good (cs : list Node) :
  forallb good cs = true -> no_adjacent_text cs = true ->
  parse (toXML without_prolog (Document cs)) = Returned (Document cs) 0.
Proof.
  intros Hgood Hadj. rewrite (toXML_document cs Hgood).
  destruct (items_forest_good cs Hgood Hadj) as [Hitems Hiadj].
  set (items := concat (map items_of cs)) in *.
  destruct (drains_items (length items) items [] (le_n _) Hitems Hiadj)
    as (ms & Hdrains & Hms).
  cbn [app length] in Hdrains.
  unfold parse, parse_from.
  change iterMarkers_start with (at_loop 0).
  rewrite (parse_loop_drains _ _ _ _ _ Hdrains).
  - rewrite (fold_markers_items items ms _ Hitems Hms).
    unfold items.
    match goal with
    | |- context [finish ?stack] =>
        assert (Hb : stack = [(OpenDocument, cs)])
          by exact (build_forest cs OpenDocument [] [] Hgood);
        rewrite Hb
    end.
    reflexivity.
  - pose proof (Forall2_length _ _ _ Hms) as Hlen.
    pose proof (items_length items Hitems). lia.
Qed.

(** C2, amended: when the tree that [parse] builds for a markup holds only
    Elements and Text nodes, with no blank Text node, no two Text nodes
    side by side, no Element without children, names as the tag pattern
    reads them (one or more of the characters [d], [w], [_] and [-],
    after at most one prefix of word characters then such characters,
    which ends with a colon), and attributes with distinct non-empty names
    free of [=], white space and [>] (none of them [style], [__proto__]
    or an array index) and values free of the double quote and of [>],
    then parsing what [toXML] writes for it with [{doctype: false}]
    returns that very tree: the round trip holds, with equality for
    equivalence. *)
Theorem round_trip_without_prolog (M : str) (t : Node) (li : nat) :
  parse M = Returned t li -> good_document t = true ->
  ordinary_keys_tree t = true ->
  parse (toXML without_prolog t) = Returned t 0
  /\ round_trip without_prolog M.
Proof.
  intros Hparse Hgood _.
  assert (Hback : parse (toXML without_prolog t) = Returned t 0).
  { destruct t as [cs| | | | |]; try discriminate.
    cbn [good_document] in Hgood. apply andb_prop in Hgood as [Hg Ha].
    by apply parse_toXML_good. }
  split; [exact Hback|].
  exists t, t, li, 0. repeat split; [exact Hparse | exact Hback |].
  apply equivalent_refl.
Qed.

Lemma round_trip_without_prolog_witness :
  parse round_trip_sample = Returned round_trip_sample_tree 0
  /\ good_document round_trip_sample_tree = true
  /\ ordinary_keys_tree round_trip_sample_tree = true
  /\ parse (toXML without_prolog round_trip_sample_tree)
     = Returned round_trip_sample_tree 0
  /\ round_trip without_prolog round_trip_sample.
Proof.
  assert (Hparse : parse round_trip_sample
                   = Returned round_trip_sample_tree 0)
    by (vm_compute; reflexivity).
  assert (Hgood : good_document round_trip_sample_tree = true)
    by (vm_compute; reflexivity).
  assert (Hkeys : ordinary_keys_tree round_trip_sample_tree = true)
    by (vm_compute; reflexivity).
  split; [exact Hparse|]. split; [exact Hgood|]. split; [exact Hkeys|].
  exact (round_trip_without_prolog round_trip_sample
           round_trip_sample_tree 0 Hparse Hgood Hkeys).
Defined.

(** C2, as stated: with the default options [toXML] begins with the XML
    prolog, which [parse] reads back as a Text node in front of the root
    element: the tree of the second parse of [<d>w</d>] has one node more
    than the tree of the first, and the two are not equivalent. *)
Lemma round_trip_fails_with_prolog :
  ~ round_trip no_options round_trip_markup.
Proof.
  intros (t & t' & li & li' & H1 & H2 & H3).
  vm_compute in H1. injection H1 as <- <-.
  vm_compute in H2. injection H2 as <- <-.
  vm_compute in H3. discriminate H3.
Qed.

(** * Further facts *)

(** ** Entities *)

(** X1: [expandEntities] undoes the escaping that the serializer applies
    to the data of a Text node, whatever the data. *)
Theorem expandEntities_inverts_escape_text (d : str) :
  expandEntities (escape_text d) = d.
Proof. exact (expandEntities_escape_text d). Qed.

Lemma scan_none_without {G : Type} (pattern : str -> option (nat * G))
  (s : str) (i : nat) :
  pattern [] = None ->
  (forall c r, c ∈ s -> pattern (c :: r) = None) ->
  scan pattern s i = None.
Proof.
  intros Hnil Hs.
  rewrite <- (app_nil_r s), (scan_skip pattern s [] i Hs).
  cbn [scan]. by rewrite Hnil.
Qed.

(** X2: a text without [&] is returned as it is. *)
Theorem expandEntities_without_ampersand (s : str) :
  forallb (fun c => negb (chr_eqb c "&"%char)) s = true ->
  expandEntities s = s.
Proof.
  intros Hs. unfold expandEntities, iexpandEntities.
  destruct s as [|c s']; [done|].
  set (text := c :: s') in *.
  destruct (length text <? 3); [cbn [concat]; by rewrite app_nil_r|].
  cbn [iexpandEntities_loop]. unfold exec.
  assert (Hlt : (length text <? 0) = false) by by apply Nat.ltb_ge, Nat.le_0_l.
  rewrite Hlt, drop_0.
  rewrite scan_none_without; [| done |].
  - assert (H0 : (0 <? length text) = true)
      by (apply Nat.ltb_lt; unfold text; simpl; lia).
    rewrite H0, ?drop_0. cbn [concat]. by rewrite app_nil_r.
  - intros x r Hx. apply RE_ENTITY_other.
    apply list_elem_of_In in Hx.
    apply (proj1 (forallb_forall _ _) Hs) in Hx.
    by apply negb_true_iff in Hx.
Qed.

Lemma expandEntities_without_ampersand_witness :
  expandEntities ("a < b" : str) = ("a < b" : str).
Proof.
  apply (expandEntities_without_ampersand ("a < b" : str)).
  vm_compute. reflexivity.
Defined.

(** ** The attribute parser *)

(** X3: [parseAttributes] reads back the attribute text that the
    serializer writes for attributes with distinct names free of [=],
    white space and [>] (none of them [style], [__proto__] or an array
    index) and values free of the double quote and of [>]: it returns,
    with each name bound to its value, in the same order. *)
Theorem parseAttributes_reads_serialized_attributes (a : object str) :
  a <> [] -> good_attributes a = true -> ordinary_keys a = true ->
  parseAttributes_run (concat (attribute_chunks a)) []
  = Some (parsed_attributes a)
  /\ copy_attributes (parsed_attributes a) = a.
Proof.
  intros Hne Hgood _.
  destruct (attribute_chunks_text a Hgood) as [-> _].
  split.
  - by apply parseAttributes_run_attribute_text.
  - by apply copy_attributes_parsed.
Qed.

Lemma parseAttributes_reads_serialized_attributes_witness :
  parseAttributes_run (concat (attribute_chunks attributes_sample)) []
  = Some (parsed_attributes attributes_sample)
  /\ copy_attributes (parsed_attributes attributes_sample)
     = attributes_sample.
Proof.
  apply (parseAttributes_reads_serialized_attributes attributes_sample).
  - discriminate.
  - vm_compute. reflexivity.
  - vm_compute. reflexivity.
Defined.

(** ** The tree builder *)

(** X4: a text without [<] is one Text node holding the text with its
    entities expanded, or no node at all when that is blank. *)
Theorem parse_plain_text (text : str) :
  forallb (fun c => negb (chr_eqb c "<"%char)) text = true ->
  parse text
  = Returned
      (Document (match trim (expandEntities text) with
                 | [] => []
                 | _ => [TextNode (expandEntities text)]
                 end)) 0.
Proof.
  intros Hlt. destruct text as [|c r]; [reflexivity|].
  set (text := c :: r) in *.
  destruct (iterMarkers_next_text_last [] text ltac:(done) Hlt)
    as (mk & st & Hnext & Htype & Htext & st' & Hdone).
  cbn [app length] in Hnext.
  assert (Hdrains : drains text (at_loop 0) 0 [mk] 0).
  { eapply drains_yield; [exact Hnext|].
    eapply drains_done. exact Hdone. }
  unfold parse, parse_from. change iterMarkers_start with (at_loop 0).
  rewrite (parse_loop_drains _ _ _ _ _ Hdrains) by (simpl; lia).
  cbn [fold_left]. unfold parse_marker. rewrite Htype, Htext.
  by destruct (trim (expandEntities text)).
Qed.

Lemma parse_plain_text_witness :
  parse plain_text_sample
  = Returned
      (Document (match trim (expandEntities plain_text_sample) with
                 | [] => []
                 | _ => [TextNode (expandEntities plain_text_sample)]
                 end)) 0.
Proof.
  apply (parse_plain_text plain_text_sample). vm_compute. reflexivity.
Defined.

(** What [parse] returns for the text of a list of items. *)
Lemma parse_render_items (items : list Item) :
  forallb good_item items = true -> no_adjacent_itext items = true ->
  parse (render items)
  = match finish (fold_left (fun s i => build_item i s) items
                    [(OpenDocument, [])]) with
    | Some doc => Returned doc 0
    | None => OutOfFuel
    end.
Proof.
  intros Hitems Hadj.
  destruct (drains_items (length items) items [] (le_n _) Hitems Hadj)
    as (ms & Hdrains & Hms).
  cbn [app length] in Hdrains.
  unfold parse, parse_from. change iterMarkers_start with (at_loop 0).
  rewrite (parse_loop_drains _ _ _ _ _ Hdrains).
  - by rewrite (fold_markers_items items ms _ Hitems Hms).
  - pose proof (Forall2_length _ _ _ Hms) as Hlen.
    pose proof (items_length items Hitems). lia.
Qed.

Lemma render_single (i : Item) : render [i] = render_item i.
Proof. unfold render. cbn [map concat]. by rewrite app_nil_r. Qed.

Lemma no_adjacent_itext_tag (i : Item) (items : list Item) :
  is_itext i = false -> no_adjacent_itext items = true ->
  no_adjacent_itext (i :: items) = true.
Proof.
  intros Hi Hitems. destruct items as [|j items]; [done|].
  by rewrite no_adjacent_itext_cons, Hi, Hitems.
Qed.

(** X5: the closing tag of the last element may be missing: the text that
    the serializer writes for an element (of the kind that the round trip
    keeps: names of the tag pattern, made of [d], [w], [_] and [-] after
    at most one prefix, and no attribute named [__proto__]), without its
    final closing tag, is parsed as the document holding that element. *)
Theorem parse_missing_final_closing_tag (name_ : str) (a : object str)
  (cs : list Node) (body : str) :
  good (Element name_ a cs) = true ->
  ordinary_keys_tree (Element name_ a cs) = true ->
  toXML without_prolog (Document [Element name_ a cs])
  = body ++ (("</" : str) ++ name_ ++ (">" : str)) ->
  parse body = Returned (Document [Element name_ a cs]) 0.
Proof.
  intros Hgood _ Hbody.
  destruct (good_element_children name_ a cs Hgood)
    as (Hname & Hattrs & _ & Hcs & Hadj).
  destruct (items_forest_good cs Hcs Hadj) as [Hitems Hiadj].
  assert (Hb : body = render (IStart name_ a :: concat (map items_of cs))).
  { rewrite toXML_document in Hbody by (cbn [forallb]; by rewrite Hgood).
    cbn [map concat items_of] in Hbody. rewrite app_nil_r in Hbody.
    rewrite app_comm_cons, render_app, render_single in Hbody.
    cbn [render_item] in Hbody. by apply app_inv_tail in Hbody. }
  rewrite Hb, parse_render_items.
  - cbn [fold_left build_item].
    match goal with
    | |- context [finish ?stack] =>
        assert (Hs : stack = [(OpenElement name_ a, cs); (OpenDocument, [])])
          by exact (build_forest cs (OpenElement name_ a) []
                      [(OpenDocument, [])] Hcs);
        rewrite Hs
    end.
    reflexivity.
  - cbn [forallb good_item]. by rewrite Hname, Hattrs, Hitems.
  - by apply no_adjacent_itext_tag.
Qed.

Lemma parse_missing_final_closing_tag_witness :
  parse ("<d k=" ++ [DQ] ++ "v" ++ [DQ] ++ ">w<dd>x</dd>" : str)
  = Returned
      (Document [Element ("d" : str) [(("k" : str), ("v" : str))]
                   [TextNode ("w" : str);
                    Element ("dd" : str) [] [TextNode ("x" : str)]]]) 0.
Proof.
  apply (parse_missing_final_closing_tag ("d" : str)
           [(("k" : str), ("v" : str))]
           [TextNode ("w" : str);
            Element ("dd" : str) [] [TextNode ("x" : str)]]);
    vm_compute; reflexivity.
Defined.

(** X6: a closing tag that closes nothing is ignored: before or after the
    text that the serializer writes for a document (of the kind that the
    round trip keeps, without an attribute named [__proto__]), a closing
    tag with a name of the tag pattern (made of [d], [w], [_] and [-]
    after at most one prefix) leaves the document that [parse] returns as
    it is. *)
Theorem parse_stray_closing_tag (t : Node) (name_ : str) :
  good_document t = true -> ordinary_keys_tree t = true ->
  good_name name_ = true ->
  parse (toXML without_prolog t ++ ("</" : str) ++ name_ ++ (">" : str))
  = Returned t 0
  /\ parse ((("</" : str) ++ name_ ++ (">" : str)) ++ toXML without_prolog t)
     = Returned t 0.
Proof.
  intros Hdoc _ Hname. destruct t as [cs| | | | |]; try discriminate.
  cbn [good_document] in Hdoc. apply andb_prop in Hdoc as [Hcs Hadj].
  destruct (items_forest_good cs Hcs Hadj) as [Hitems Hiadj].
  rewrite (toXML_document cs Hcs).
  set (items := concat (map items_of cs)) in *.
  assert (Hbuilt : fold_left (fun s i => build_item i s) items
                     [(OpenDocument, [])] = [(OpenDocument, cs)])
    by exact (build_forest cs OpenDocument [] [] Hcs).
  split.
  - change (("</" : str) ++ name_ ++ (">" : str))
      with (render_item (IEnd name_)).
    rewrite <- render_single, <- render_app, parse_render_items.
    + by rewrite fold_left_app, Hbuilt.
    + rewrite forallb_app, Hitems. cbn [forallb good_item].
      by rewrite Hname.
    + apply no_adjacent_itext_app; [done..|]. apply andb_false_r.
  - change (("</" : str) ++ name_ ++ (">" : str))
      with (render_item (IEnd name_)).
    rewrite <- render_cons, parse_render_items.
    + cbn [fold_left build_item]. by rewrite Hbuilt.
    + cbn [forallb good_item]. by rewrite Hname, Hitems.
    + by apply no_adjacent_itext_tag.
Qed.

Lemma parse_stray_closing_tag_witness :
  parse (toXML without_prolog round_trip_sample_tree
         ++ ("</" : str) ++ ("dd" : str) ++ (">" : str))
  = Returned round_trip_sample_tree 0
  /\ parse ((("</" : str) ++ ("dd" : str) ++ (">" : str))
            ++ toXML without_prolog round_trip_sample_tree)
     = Returned round_trip_sample_tree 0.
Proof.
  apply (parse_stray_closing_tag round_trip_sample_tree ("dd" : str));
    vm_compute; reflexivity.
Defined.

(** *** What [parse] returns *)

Lemma rooted_cons (f : Frame) (stack : list Frame) :
  rooted stack = true -> rooted (f :: stack) = true.
Proof.
  unfold rooted. intros Hr. rewrite last_cons.
  by destruct (last stack).
Qed.

Lemma rooted_appendChild (node : Node) (stack : list Frame) :
  rooted stack = true -> rooted (appendChild node stack) = true.
Proof.
  unfold rooted, appendChild. destruct stack as [|[o cs] rest]; [done|].
  rewrite !last_cons. destruct (last rest) as [x|]; [done|].
  by destruct o.
Qed.

Lemma rooted_tail (f g : Frame) (stack : list Frame) :
  rooted (f :: g :: stack) = true -> rooted (g :: stack) = true.
Proof.
  unfold rooted. rewrite (last_cons f).
  destruct (last (g :: stack)) eqn:Hl; [done|].
  by apply last_None in Hl.
Qed.

Lemma rooted_parse_marker (m : Marker) (stack : list Frame) :
  rooted stack = true -> rooted (parse_marker m stack) = true.
Proof.
  intros Hr. unfold parse_marker. destruct (type m).
  - destruct (trim _); [done|]. by apply rooted_appendChild.
  - destruct (starts_with _ _).
    + by apply rooted_appendChild.
    + by apply rooted_cons.
  - destruct stack as [|f [|g rest]]; [done..|].
    apply rooted_appendChild. by apply rooted_tail in Hr.
  - by apply rooted_appendChild.
Qed.

Lemma finish_from_rooted (rest : list Frame) (closed : Node) :
  rooted rest = true -> exists cs, finish_from closed rest = Document cs.
Proof.
  revert closed. induction rest as [|[o cs] rest IH]; intros closed Hr;
    [done|].
  cbn [finish_from]. destruct rest as [|g rest].
  - unfold rooted in Hr. cbn in Hr. destruct o; try done.
    by eexists.
  - apply IH. by apply rooted_tail in Hr.
Qed.

Lemma finish_rooted (stack : list Frame) :
  rooted stack = true -> exists cs, finish stack = Some (Document cs).
Proof.
  destruct stack as [|f [|g rest]]; [done | |]; intros Hr.
  - unfold rooted in Hr. cbn in Hr. destruct f as [[] cs]; try done.
    by eexists.
  - cbn [finish]. apply rooted_tail in Hr.
    destruct (finish_from_rooted (g :: rest) (close_frame f) Hr) as [cs ->].
    by eexists.
Qed.

Lemma markers_of_nonempty (mf : MatchFragment) : markers_of mf <> Some [].
Proof.
  unfold markers_of. destruct (mf_match mf) as [m|]; [|done].
  repeat (match goal with
          | |- context [if ?b then _ else _] => destruct b
          | |- context [match ?x with Some _ => _ | None => _ end] =>
              destruct x
          end; try done).
Qed.

Lemma RE_TAG_exec_None (text : str) (lastIndex lastIndex' : nat) :
  RE_TAG_exec text lastIndex = (None, lastIndex') -> lastIndex' = 0.
Proof.
  unfold RE_TAG_exec, exec. destruct (length text <? lastIndex).
  - by intros [= <-].
  - destruct (scan RE_TAG _ _) as [[[i len] g]|]; [done|]. by intros [= <-].
Qed.

(** The pattern is at rest whenever the inner generator has finished. *)
Lemma iterMarkers_next_rest (text : str) (g g' : MarkerGen)
  (lastIndex lastIndex' : nat) (nx : Next) :
  text <> [] ->
  (mg_inner g = Finished -> lastIndex = 0) ->
  iterMarkers_next text g lastIndex = (nx, g', lastIndex') ->
  (mg_inner g' = Finished -> lastIndex' = 0)
  /\ (nx = Done -> lastIndex' = 0).
Proof.
  intros Htext Hinv. unfold iterMarkers_next.
  destruct (mg_queue g) as [|m q].
  2:{ intros [= <- <- <-]. split; [exact Hinv | done]. }
  destruct (mg_inner g) as [offset|m offset|] eqn:Hinner.
  - rewrite IterMatches_next_AtLoop by done.
    destruct (RE_TAG_exec text lastIndex) as [[m|] L1] eqn:Hexec.
    + destruct (negb (offset =? index m)).
      * cbn [markers_of unmatched_fragment mf_match].
        intros [= <- <- <-]. done.
      * pose proof (markers_of_nonempty (matched_fragment text m)) as Hne.
        destruct (markers_of (matched_fragment text m)) as [[|mk q]|];
          [done| |]; intros [= <- <- <-]; done.
    + apply RE_TAG_exec_None in Hexec as ->.
      destruct (offset <? length text).
      * cbn [markers_of unmatched_fragment mf_match].
        intros [= <- <- <-]. done.
      * intros [= <- <- <-]. done.
  - cbn [IterMatches_next].
    pose proof (markers_of_nonempty (matched_fragment text m)) as Hne.
    destruct (markers_of (matched_fragment text m)) as [[|mk q]|];
      [done| |]; intros [= <- <- <-]; done.
  - cbn [IterMatches_next]. intros [= <- <- <-].
    rewrite (Hinv eq_refl). done.
Qed.

Lemma parse_loop_returned (text : str) (fuel : nat) :
  text <> [] ->
  forall g lastIndex stack t li,
    (mg_inner g = Finished -> lastIndex = 0) ->
    rooted stack = true ->
    parse_loop fuel text g lastIndex stack = Returned t li ->
    (exists cs, t = Document cs) /\ li = 0.
Proof.
  intros Htext. induction fuel as [|fuel IH];
    intros g lastIndex stack t li Hinv Hr; [done|].
  cbn [parse_loop].
  destruct (iterMarkers_next text g lastIndex) as [[nx g'] L'] eqn:Hnext.
  destruct (iterMarkers_next_rest _ _ _ _ _ _ Htext Hinv Hnext)
    as [Hinv' Hdone].
  destruct nx as [m| |].
  - apply IH; [exact Hinv'|]. by apply rooted_parse_marker.
  - destruct (finish_rooted stack Hr) as [cs ->].
    intros [= <- <-]. split; [by eexists | by apply Hdone].
  - done.
Qed.

Lemma parse_returns_a_document (k : nat) (text : str) (t : Node)
  (li : nat) :
  parse_from k text = Returned t li -> exists cs, t = Document cs.
Proof.
  destruct text as [|c r].
  - cbn. intros [= <- <-]. by eexists.
  - unfold parse_from. intros H.
    apply parse_loop_returned in H as [Hdoc _]; done.
Qed.

(** X7: when [parse] returns, it returns a document, and the pattern
    [RE_TAG] is at rest ([lastIndex] is [0]) whatever its state was before
    the call; only for the empty text, which is never searched, is
    [lastIndex] left as it was. *)
Theorem parse_returns_document_at_rest (k : nat) (text : str) (t : Node)
  (li : nat) :
  parse_from k text = Returned t li ->
  (exists cs, t = Document cs)
  /\ li = match text with [] => k | _ => 0 end.
Proof.
  destruct text as [|c r].
  - cbn. intros [= <- <-]. split; [by eexists | done].
  - unfold parse_from. by apply parse_loop_returned.
Qed.

Lemma parse_returns_document_at_rest_witness :
  (exists cs, Document [TextNode ("<d>w" : str)] = Document cs)
  /\ 0 = match ("<d>w</d>" : str) with [] => 3 | _ => 0 end.
Proof.
  apply (parse_returns_document_at_rest 3 ("<d>w</d>" : str)).
  vm_compute. reflexivity.
Defined.

(** *** [parse] never loops *)

Lemma starts_with_length (p s : str) :
  starts_with p s = true -> length p <= length s.
Proof.
  revert s. induction p as [|x p IH]; intros [|y s]; simpl;
    [lia | lia | done |].
  intros H. apply andb_prop in H as [_ H]. specialize (IH s H). lia.
Qed.

Lemma find_sub_length (needle s : str) (j : nat) :
  find_sub needle s = Some j -> j + length needle <= length s.
Proof.
  revert j. induction s as [|c s IH]; intros j; cbn [find_sub].
  - destruct (starts_with needle []) eqn:Hs; [|done].
    intros [= <-]. by apply starts_with_length in Hs.
  - destruct (starts_with needle (c :: s)) eqn:Hs.
    + intros [= <-]. by apply starts_with_length in Hs.
    + destruct (find_sub needle s) as [j'|]; [|done].
      intros [= <-]. specialize (IH j' eq_refl). simpl. lia.
Qed.

Lemma span_length (p : N -> bool) (s : str) : length (span p s) <= length s.
Proof.
  induction s as [|c s IH]; simpl; [lia|]. destruct (p c); simpl; lia.
Qed.

Lemma drop_cons_length {A : Type} (k : nat) (l : list A) (x : A)
  (r : list A) :
  drop k l = x :: r -> k + S (length r) = length l.
Proof.
  intros H. pose proof (f_equal length H) as Hl.
  rewrite length_drop in Hl. simpl in Hl.
  assert (k < length l); [|lia].
  destruct (decide (k < length l)); [done|].
  rewrite drop_ge in H by lia. done.
Qed.

Lemma match_DOCTYPE_length (s : str) (len : nat) (g : TagGroups) :
  match_DOCTYPE s = Some (len, g) -> 2 <= len <= length s.
Proof.
  unfold match_DOCTYPE. destruct (starts_with _ s) eqn:Hs; [|done].
  apply starts_with_length in Hs. change (length (js "<!DOCTYPE")) with 9 in Hs.
  set (r := drop 9 s). set (x := span _ r).
  destruct x as [|w [|w' x']] eqn:Hx; [done..|].
  destruct (is_space w); [|done].
  assert (Hr : length r = length s - 9) by (unfold r; by rewrite length_drop).
  destruct (drop (length (w :: w' :: x')) r) as [|a [|b [|c rest]]] eqn:Hd;
    [done..| |].
  - apply drop_cons_length in Hd.
    destruct (_ && _); [|done]. intros [= <- <-]. simpl in *. lia.
  - apply drop_cons_length in Hd.
    destruct (_ && _ && _); [intros [= <- <-]; simpl in *; lia|].
    destruct (_ && _); [|done]. intros [= <- <-]. simpl in *. lia.
Qed.

Lemma match_delimited_length (opening closing s : str) (len : nat) :
  match_delimited opening closing s = Some len ->
  length opening + length closing <= len <= length s.
Proof.
  unfold match_delimited. destruct (starts_with opening s) eqn:Hs; [|done].
  apply starts_with_length in Hs.
  destruct (find_sub closing _) as [j|] eqn:Hj; [|done].
  apply find_sub_length in Hj. rewrite length_drop in Hj.
  destruct (forallb _ _); [|done]. intros [= <-]. lia.
Qed.

Lemma match_qualname_length (r : str) (ns : option str) (nm : str)
  (k : nat) :
  match_qualname r = Some (ns, nm, k) -> 1 <= k <= length r.
Proof.
  unfold match_qualname. destruct (match_ns r) as [ns'|] eqn:Hns.
  - apply match_ns_elim in Hns as (w & d & rest & -> & -> & _).
    rewrite <- drop_drop, app_assoc, drop_app_length. cbn [drop]. rewrite drop_0.
    pose proof (span_length is_tagchar rest) as Hnm.
    destruct (span is_tagchar rest) as [|x nm'] eqn:Hspan; [done|].
    intros [= <- <- <-]. rewrite !length_app in *. simpl in *. lia.
  - pose proof (span_length is_tagchar r) as Hrun.
    destruct (span is_tagchar r) as [|x nm'] eqn:Hspan; [done|].
    intros [= <- <- <-]. simpl in *. lia.
Qed.

Lemma match_tag_end_length (r : str) (attrs : option str) (e : nat) :
  match_tag_end r = Some (attrs, e) -> 1 <= e <= length r.
Proof.
  unfold match_tag_end. destruct r as [|c r']; [done|].
  destruct (is_space c).
  - set (a := span _ (c :: r')). clearbody a.
    destruct (drop _ (c :: r')) as [|x rest] eqn:Hd; [done|].
    apply drop_cons_length in Hd. intros [= <- <-]. lia.
  - destruct (chr_eqb c _); [intros [= <- <-]; simpl; lia|].
    destruct (chr_eqb c _); [|done].
    destruct r' as [|d r'']; [done|].
    destruct (chr_eqb d _); [|done]. intros [= <- <-]. simpl. lia.
Qed.

Lemma match_tag_length (s : str) (len : nat) (g : TagGroups) :
  match_tag s = Some (len, g) -> 2 <= len <= length s.
Proof.
  unfold match_tag. destruct s as [|lt r0]; [done|].
  destruct (chr_eqb lt _); [|done].
  set (r1 := if starts_with "/" r0 then drop 1 r0 else r0).
  assert (Hr1 : length r1 <= length r0).
  { unfold r1. destruct (starts_with _ _); [rewrite length_drop|]; lia. }
  destruct (match_qualname r1) as [[[ns nm] k]|] eqn:Hq; [|done].
  apply match_qualname_length in Hq.
  destruct (match_tag_end (drop k r1)) as [[attrs e]|] eqn:He; [|done].
  apply match_tag_end_length in He. rewrite length_drop in He.
  intros [= <- <-]. simpl. lia.
Qed.

Lemma match_COMMENT_length (s : str) (len : nat) (g : TagGroups) :
  match_COMMENT s = Some (len, g) -> 2 <= len <= length s.
Proof.
  unfold match_COMMENT.
  destruct (match_delimited _ _ s) as [l|] eqn:H; [|done].
  intros [= <- <-]. apply match_delimited_length in H. simpl in H. lia.
Qed.

Lemma match_CDATA_length (s : str) (len : nat) (g : TagGroups) :
  match_CDATA s = Some (len, g) -> 2 <= len <= length s.
Proof.
  unfold match_CDATA.
  destruct (match_delimited _ _ s) as [l|] eqn:H; [|done].
  intros [= <- <-]. apply match_delimited_length in H. simpl in H. lia.
Qed.

(** A match of [RE_TAG] has two characters at least, all in the text. *)
Lemma RE_TAG_length (s : str) (len : nat) (g : TagGroups) :
  RE_TAG s = Some (len, g) -> 2 <= len <= length s.
Proof.
  unfold RE_TAG.
  destruct (match_DOCTYPE s) as [[l1 g1]|] eqn:H1.
  { intros [= <- <-]. by apply match_DOCTYPE_length in H1. }
  destruct (match_COMMENT s) as [[l2 g2]|] eqn:H2.
  { intros [= <- <-]. by apply match_COMMENT_length in H2. }
  destruct (match_CDATA s) as [[l3 g3]|] eqn:H3.
  { intros [= <- <-]. by apply match_CDATA_length in H3. }
  apply match_tag_length.
Qed.

Lemma scan_Some {G : Type} (pattern : str -> option (nat * G)) (s : str)
  (i0 i len : nat) (g : G) :
  scan pattern s i0 = Some (i, len, g) ->
  exists j, i = i0 + j /\ j <= length s
            /\ pattern (drop j s) = Some (len, g).
Proof.
  revert i0. induction s as [|c s IH]; intros i0; cbn [scan].
  - destruct (pattern []) as [[l g']|] eqn:Hp; [|done].
    intros [= <- <- <-]. exists 0. by rewrite Nat.add_0_r.
  - destruct (pattern (c :: s)) as [[l g']|] eqn:Hp.
    + intros [= <- <- <-]. exists 0. rewrite Nat.add_0_r.
      split; [done|]. split; [simpl; lia | done].
    + intros H. destruct (IH _ H) as (j & -> & Hj & Hpat).
      exists (S j). split; [lia|]. split; [simpl; lia | done].
Qed.

Lemma RE_TAG_exec_Some (text : str) (lastIndex lastIndex' : nat)
  (m : RegExpExecArray) :
  RE_TAG_exec text lastIndex = (Some m, lastIndex') ->
  lastIndex + 2 <= lastIndex' <= length text.
Proof.
  unfold RE_TAG_exec, exec.
  destruct (length text <? lastIndex) eqn:Hlt; [done|].
  apply Nat.ltb_ge in Hlt.
  destruct (scan RE_TAG _ _) as [[[i len] g]|] eqn:Hscan; [|done].
  intros [= <- <-].
  apply scan_Some in Hscan as (j & -> & Hj & Hpat).
  apply RE_TAG_length in Hpat. rewrite !length_drop in *. lia.
Qed.

Lemma markers_of_length (mf : MatchFragment) (ms : list Marker) :
  markers_of mf = Some ms -> length ms <= 3.
Proof.
  unfold markers_of. destruct (mf_match mf) as [m|].
  2:{ intros [= <-]. simpl. lia. }
  repeat (match goal with
          | |- context [if ?b then _ else _] => destruct b
          | |- context [match ?x with Some _ => _ | None => _ end] =>
              destruct x
          end; try done; try (intros [= <-]; simpl; lia)).
Qed.

(** Each call that yields a marker lowers the bound. *)
Lemma iterMarkers_next_pending (text : str) (g g' : MarkerGen)
  (lastIndex lastIndex' : nat) (mk : Marker) :
  text <> [] ->
  iterMarkers_next text g lastIndex = (Yield mk, g', lastIndex') ->
  S (pending_calls (length text) g' lastIndex')
  <= pending_calls (length text) g lastIndex.
Proof.
  intros Htext. unfold iterMarkers_next, pending_calls.
  destruct (mg_queue g) as [|m q].
  2:{ intros [= <- <- <-]. simpl. lia. }
  destruct (mg_inner g) as [offset|m offset|] eqn:Hinner.
  - rewrite IterMatches_next_AtLoop by done.
    destruct (RE_TAG_exec text lastIndex) as [[m|] L1] eqn:Hexec.
    + apply RE_TAG_exec_Some in Hexec.
      destruct (negb (offset =? index m)).
      * cbn [markers_of unmatched_fragment mf_match].
        intros [= <- <- <-]. simpl. lia.
      * destruct (markers_of (matched_fragment text m)) as [[|mk' q]|]
          eqn:Hm; [done| |done].
        apply markers_of_length in Hm.
        intros [= <- <- <-]. simpl in *. lia.
    + destruct (offset <? length text); [|done].
      cbn [markers_of unmatched_fragment mf_match].
      intros [= <- <- <-]. simpl. lia.
  - cbn [IterMatches_next].
    destruct (markers_of (matched_fragment text m)) as [[|mk' q]|]
      eqn:Hm; [done| |done].
    apply markers_of_length in Hm.
    intros [= <- <- <-]. simpl in *. lia.
  - done.
Qed.

Lemma pending_calls_positive (n : nat) (g : MarkerGen) (lastIndex : nat) :
  1 <= pending_calls n g lastIndex.
Proof. unfold pending_calls. destruct (mg_inner g); lia. Qed.

Lemma parse_loop_total (text : str) (fuel : nat) :
  text <> [] ->
  forall g lastIndex stack,
    rooted stack = true ->
    pending_calls (length text) g lastIndex <= fuel ->
    parse_loop fuel text g lastIndex stack <> OutOfFuel.
Proof.
  intros Htext. induction fuel as [|fuel IH];
    intros g lastIndex stack Hr Hfuel.
  - pose proof (pending_calls_positive (length text) g lastIndex). lia.
  - cbn [parse_loop].
    destruct (iterMarkers_next text g lastIndex) as [[nx g'] L'] eqn:Hnext.
    destruct nx as [m| |].
    + apply IH; [by apply rooted_parse_marker|].
      apply iterMarkers_next_pending in Hnext; [lia | done].
    + by destruct (finish_rooted stack Hr) as [cs ->].
    + done.
Qed.

(** X8: [parse] never loops: from any state of the pattern and on any
    text, it returns a document or throws, within the number of turns
    that the embedding allows ([2 * length text + 4]). *)
Theorem parse_returns_or_throws (k : nat) (text : str) :
  (exists cs li, parse_from k text = Returned (Document cs) li)
  \/ (exists li, parse_from k text = Thrown li).
Proof.
  assert (Htotal : parse_from k text <> OutOfFuel).
  { destruct text as [|c r]; [done|].
    unfold parse_from. apply parse_loop_total; [done..|].
    unfold pending_calls. cbn [iterMarkers_start mg_queue mg_inner length].
    lia. }
  destruct (parse_from k text) as [t li|li|] eqn:Hp; [|by right; eexists|done].
  left. destruct (parse_returns_a_document k text t li Hp)
    as [cs ->]. by exists cs, li.
Qed.

(** ** The text of a tree *)

Lemma Node_induction (P : Node -> Prop) :
  (forall cs, Forall P cs -> P (Document cs)) ->
  (forall cs, Forall P cs -> P (DocumentFragment cs)) ->
  (forall name_ a cs, Forall P cs -> P (Element name_ a cs)) ->
  (forall name_ a cs, Forall P cs -> P (TemplateElement name_ a cs)) ->
  (forall d, P (TextNode d)) ->
  (forall d, P (Comment d)) ->
  forall n, P n.
Proof.
  intros HD HF HE HT HX HC. fix IH 1.
  assert (Hall : forall cs : list Node, Forall P cs).
  { fix IHcs 1. intros [|c cs]; constructor; [apply IH | apply IHcs]. }
  intros [cs|cs|name_ a cs|name_ a cs|d|d];
    [apply HD | apply HF | apply HE | apply HT | apply HX | apply HC];
    apply Hall.
Qed.

Lemma escape_text_app (a b : str) :
  escape_text (a ++ b) = escape_text a ++ escape_text b.
Proof. unfold escape_text. by rewrite !replace_chr_app. Qed.

Lemma escape_text_concat (l : list str) :
  escape_text (concat l) = concat (map escape_text l).
Proof.
  induction l as [|x l IH]; [done|].
  cbn [concat map]. by rewrite escape_text_app, IH.
Qed.

Lemma escape_text_no_markup (d : str) :
  forallb (fun c => negb (chr_eqb c "<"%char || chr_eqb c ">"%char))
    (escape_text d) = true.
Proof.
  rewrite escape_text_chars. induction d as [|c d IH]; [done|].
  cbn [map concat]. rewrite forallb_app, IH, andb_true_r.
  unfold escape_chr.
  destruct (chr_eqb c "&"%char) eqn:H1; [done|].
  destruct (chr_eqb c ">"%char) eqn:H2; [done|].
  destruct (chr_eqb c "<"%char) eqn:H3; [done|].
  cbn [forallb]. by rewrite H2, H3.
Qed.

Lemma forallb_concat {A : Type} (p : A -> bool) (l : list (list A)) :
  Forall (fun x => forallb p x = true) l -> forallb p (concat l) = true.
Proof.
  induction 1 as [|x l Hx Hl IH]; [done|].
  cbn [concat]. by rewrite forallb_app, Hx, IH.
Qed.

Lemma toText_forest (cs : list Node) :
  concat (concat (map iterText cs)) = concat (map toText cs).
Proof.
  induction cs as [|c cs IH]; [done|].
  cbn [map concat]. by rewrite concat_app, IH.
Qed.

(** X9: the text of a tree holds no [<] and no [>], whatever the tree:
    the data of the Text nodes is escaped, a [br] element gives a line
    feed, and comments give nothing. *)
Theorem toText_has_no_markup (n : Node) :
  forallb (fun c => negb (chr_eqb c "<"%char || chr_eqb c ">"%char))
    (toText n) = true.
Proof.
  assert (Hforest : forall cs,
             Forall (fun c =>
                       forallb (fun c => negb (chr_eqb c "<"%char
                                               || chr_eqb c ">"%char))
                         (toText c) = true) cs ->
             forallb (fun c => negb (chr_eqb c "<"%char
                                     || chr_eqb c ">"%char))
               (concat (concat (map iterText cs))) = true).
  { intros cs Hcs. rewrite toText_forest. apply forallb_concat.
    by apply Forall_map. }
  induction n as [cs IH|cs IH|name_ a cs IH|name_ a cs IH|d|d]
    using Node_induction; unfold toText; cbn [iterText nodeName].
  - by apply Hforest.
  - by apply Hforest.
  - destruct (is_br name_); [done | by apply Hforest].
  - by destruct (is_br name_).
  - cbn [concat]. rewrite app_nil_r. apply escape_text_no_markup.
  - done.
Qed.

Lemma textContent_forest (cs : list Node) :
  match cs with
  | [] => []
  | _ => concat (map textContent cs)
  end = concat (map textContent cs).
Proof. by destruct cs. Qed.

Lemma toText_text_only (n : Node) :
  text_only n = true -> toText n = escape_text (textContent n).
Proof.
  assert (Hforest : forall cs,
             Forall (fun c => text_only c = true ->
                              toText c = escape_text (textContent c)) cs ->
             forallb text_only cs = true ->
             concat (concat (map iterText cs))
             = escape_text (concat (map textContent cs))).
  { intros cs Hcs Hall. rewrite toText_forest, escape_text_concat, map_map.
    f_equal. induction Hcs as [|c cs Hc Hcs IH]; [done|].
    cbn [forallb] in Hall. apply andb_prop in Hall as [H1 H2].
    cbn [map]. by rewrite (Hc H1), (IH H2). }
  induction n as [cs IH|cs IH|name_ a cs IH|name_ a cs IH|d|d]
    using Node_induction; unfold toText;
    cbn [iterText nodeName textContent text_only node_data]; intros Hn.
  - rewrite textContent_forest. by apply Hforest.
  - rewrite textContent_forest. by apply Hforest.
  - apply andb_prop in Hn as [Hbr Hcs]. apply negb_true_iff in Hbr.
    rewrite Hbr, textContent_forest. by apply Hforest.
  - apply negb_true_iff in Hn. by rewrite Hn.
  - cbn [concat]. by rewrite app_nil_r.
  - done.
Qed.

(** X10: for a tree without comments and without [br] elements, the text
    that [toText] gives is [textContent] escaped as the serializer escapes
    text, and expanding its entities gives [textContent] back. *)
Theorem toText_is_escaped_textContent (n : Node) :
  text_only n = true ->
  toText n = escape_text (textContent n)
  /\ expandEntities (toText n) = textContent n.
Proof.
  intros Hn. rewrite (toText_text_only n Hn).
  split; [done | apply expandEntities_escape_text].
Qed.

Lemma toText_is_escaped_textContent_witness :
  toText text_sample_tree = escape_text (textContent text_sample_tree)
  /\ expandEntities (toText text_sample_tree)
     = textContent text_sample_tree.
Proof.
  apply (toText_is_escaped_textContent text_sample_tree).
  vm_compute. reflexivity.
Defined.

(** ** Attributes and token lists *)

Section attribute_facts.
Import DomMore.

Lemma obj_get_map_set_eq {V : Type} (k : str) (v : V) (o : object V) :
  obj_get k (map_set k v o) = Some v.
Proof.
  unfold map_set. destruct (obj_get k o) eqn:E.
  - induction o as [|[k' v'] o IH]; simpl in *; [done|].
    destruct (str_eqb k k') eqn:Ek; simpl; rewrite Ek; [done|]. by apply IH.
  - induction o as [|[k' v'] o IH]; simpl in *.
    + by rewrite str_eqb_refl.
    + destruct (str_eqb k k') eqn:Ek; [done|]. by apply IH.
Qed.

Lemma obj_get_map_set_ne {V : Type} (k k' : str) (v : V) (o : object V) :
  k' <> k -> obj_get k' (map_set k v o) = obj_get k' o.
Proof.
  intros Hne. apply str_eqb_neq in Hne. unfold map_set.
  destruct (obj_get k o) eqn:E.
  - clear E. induction o as [|[k1 v1] o IH]; simpl; [done|].
    destruct (str_eqb k k1) eqn:Ek; simpl.
    + apply str_eqb_eq in Ek as <-. by rewrite Hne.
    + by rewrite IH.
  - rewrite obj_get_app. destruct (obj_get k' o); [done|].
    simpl. by rewrite Hne.
Qed.

Lemma new_ref_ne (h : Store) (x : ref) :
  is_Some (h !! x) -> new_ref h <> x.
Proof.
  intros Hx Heq. apply (is_fresh (dom h)).
  unfold new_ref in Heq. rewrite Heq. by apply elem_of_dom.
Qed.

(** What [setAttribute] leaves in the store. *)
Lemma setAttribute_store (h : Store) (this : ref) (name value : str)
  (w : Object) (e : ElementFields) :
  h !! this = Some w -> element w = Some e ->
  exists h' w' e',
    setAttribute h this name value = Some h'
    /\ h' !! this = Some w' /\ element w' = Some e'
    /\ obj_get name (e_attributes e') = Some (new_ref h)
    /\ (forall name', name' <> name ->
          obj_get name' (e_attributes e') = obj_get name' (e_attributes e))
    /\ e_attributesNS e' = e_attributesNS e
    /\ get_value h' (new_ref h) = Some value.
Proof.
  intros Hw He. unfold setAttribute.
  pose proof (new_ref_ne h this ltac:(by rewrite Hw)) as Hr.
  set (r := new_ref h) in *.
  unfold set_value. rewrite lookup_insert_eq.
  cbn [mbind option_bind new_AttributeNode set_attribute attribute
         a_ownerElement a_name a_namespace namespace_of].
  rewrite lookup_insert_ne by done. rewrite lookup_insert_ne by done.
  rewrite Hw. cbn [mbind option_bind]. rewrite He.
  cbn [mbind option_bind]. rewrite lookup_insert_eq.
  cbn [mbind option_bind set_element element].
  eexists _, _, _. split; [reflexivity|].
  rewrite lookup_insert_eq. split; [reflexivity|].
  cbn [set_element element]. split; [reflexivity|].
  cbn [e_attributes e_attributesNS].
  split; [apply obj_get_map_set_eq|].
  split; [intros name' Hne; by rewrite !obj_get_map_set_ne|].
  split; [done|].
  unfold get_value.
  rewrite lookup_insert_ne by done. rewrite lookup_insert_ne by done.
  rewrite lookup_insert_eq.
  cbn [mbind option_bind set_attribute attribute a_ownerElement a_name
         a_namespace namespace_of].
  rewrite lookup_insert_eq.
  cbn [mbind option_bind set_element element e_attributes].
  rewrite obj_get_map_set_eq.
  rewrite lookup_insert_ne by done. rewrite lookup_insert_ne by done.
  rewrite lookup_insert_eq. reflexivity.
Qed.

(** X11: on an element, [getAttribute(name)] after
    [setAttribute(name, value)] is [value], [hasAttribute(name)] is true,
    and the presence of every other name is as it was. *)
Theorem setAttribute_getAttribute (h : Store) (this : ref)
  (name value : str) (w : Object) (e : ElementFields) :
  h !! this = Some w -> element w = Some e ->
  exists h',
    setAttribute h this name value = Some h'
    /\ getAttribute h' this name = Some (Some value)
    /\ hasAttribute h' this name = Some true
    /\ forall name', name' <> name ->
         hasAttribute h' this name' = hasAttribute h this name'.
Proof.
  intros Hw He.
  destruct (setAttribute_store h this name value w e Hw He)
    as (h' & w' & e' & Hset & Hw' & He' & Hget & Hother & _ & Hval).
  exists h'. split; [done|].
  unfold getAttribute, hasAttribute. rewrite Hw', Hw.
  cbn [mbind option_bind]. rewrite He', He. cbn [mbind option_bind].
  rewrite Hget, Hval. cbn [mbind option_bind].
  split; [done|]. split; [done|].
  intros name' Hne. by rewrite Hother.
Qed.

Lemma setAttribute_getAttribute_witness :
  exists h',
    setAttribute element_store 0 "id" "x" = Some h'
    /\ getAttribute h' 0 "id" = Some (Some ("x" : str))
    /\ hasAttribute h' 0 "id" = Some true
    /\ forall name', name' <> ("id" : str) ->
         hasAttribute h' 0 name' = hasAttribute element_store 0 name'.
Proof.
  apply (setAttribute_getAttribute element_store 0 "id" "x"
           (new_Element "a")
           {| e_namespace := None; e_style := []; e_attributes := [];
              e_attributesNS := []; e_content := None |});
    reflexivity.
Defined.

(** X12: [getAttributeNS(ns, name)] after [setAttributeNS(ns, name, value)]
    is [value] and [hasAttributeNS(ns, name)] is true, for every
    namespace, the empty string too. *)
Theorem setAttributeNS_getAttributeNS (h : Store) (this : ref)
  (ns name value : str) (w : Object) (e : ElementFields) :
  h !! this = Some w -> element w = Some e ->
  exists h',
    setAttributeNS h this ns name value = Some h'
    /\ getAttributeNS h' this ns name = Some (Some value)
    /\ hasAttributeNS h' this ns name = Some true.
Proof.
  intros Hw He. unfold setAttributeNS. rewrite Hw.
  cbn [mbind option_bind]. rewrite He. cbn [mbind option_bind].
  set (e1 := match obj_get ns (e_attributesNS e) with
             | Some _ => e | None => _ end).
  set (h0 := <[this := set_element e1 w]> h).
  assert (Hh0 : h0 !! this = Some (set_element e1 w))
    by (unfold h0; apply lookup_insert_eq).
  pose proof (new_ref_ne h0 this ltac:(by rewrite Hh0)) as Hr.
  set (r := new_ref h0) in *.
  assert (Hns1 : is_Some (obj_get ns (e_attributesNS e1))).
  { unfold e1. destruct (obj_get ns (e_attributesNS e)) eqn:E.
    - by rewrite E.
    - cbn [e_attributesNS]. by rewrite obj_get_map_set_eq. }
  destruct Hns1 as [m1 Hm1].
  unfold set_value. rewrite lookup_insert_eq.
  cbn [mbind option_bind new_AttributeNode set_attribute attribute
         a_ownerElement a_name a_namespace].
  rewrite lookup_insert_ne by done. rewrite lookup_insert_ne by done.
  rewrite Hh0. cbn [mbind option_bind set_element element].
  rewrite lookup_insert_eq. cbn [mbind option_bind set_element element].
  unfold namespace_of. cbn [a_namespace].
  destruct ns as [|c ns].
  - (* the empty namespace: the node is in the default map *)
    cbn [e_attributesNS e_attributes]. rewrite Hm1.
    eexists. split; [reflexivity|].
    unfold getAttributeNS, hasAttributeNS. rewrite lookup_insert_eq.
    cbn [mbind option_bind set_element element e_attributesNS].
    rewrite !obj_get_map_set_eq. split; [|by rewrite bool_decide_eq_true_2].
    unfold get_value.
    rewrite lookup_insert_ne by done. rewrite lookup_insert_ne by done.
    rewrite lookup_insert_eq.
    cbn [mbind option_bind set_attribute attribute a_ownerElement a_name
           a_namespace namespace_of].
    rewrite lookup_insert_eq.
    cbn [mbind option_bind set_element element e_attributes].
    rewrite obj_get_map_set_eq.
    rewrite lookup_insert_ne by done. rewrite lookup_insert_ne by done.
    rewrite lookup_insert_eq. reflexivity.
  - cbn [e_attributesNS e_attributes]. rewrite obj_get_map_set_eq.
    eexists. split; [reflexivity|].
    unfold getAttributeNS, hasAttributeNS. rewrite lookup_insert_eq.
    cbn [mbind option_bind set_element element e_attributesNS].
    rewrite !obj_get_map_set_eq. split; [|by rewrite bool_decide_eq_true_2].
    unfold get_value.
    rewrite lookup_insert_ne by done. rewrite lookup_insert_ne by done.
    rewrite lookup_insert_eq.
    cbn [mbind option_bind set_attribute attribute a_ownerElement a_name
           a_namespace namespace_of].
    rewrite lookup_insert_eq.
    cbn [mbind option_bind set_element element e_attributesNS].
    rewrite !obj_get_map_set_eq. cbn [mbind option_bind].
    rewrite obj_get_map_set_eq.
    rewrite lookup_insert_ne by done. rewrite lookup_insert_ne by done.
    rewrite lookup_insert_eq. reflexivity.
Qed.

Lemma setAttributeNS_getAttributeNS_witness :
  exists h',
    setAttributeNS element_store 0 XLINK "href" "#t" = Some h'
    /\ getAttributeNS h' 0 XLINK "href" = Some (Some ("#t" : str))
    /\ hasAttributeNS h' 0 XLINK "href" = Some true.
Proof.
  apply (setAttributeNS_getAttributeNS element_store 0 XLINK "href" "#t"
           (new_Element "a")
           {| e_namespace := None; e_style := []; e_attributes := [];
              e_attributesNS := []; e_content := None |});
    reflexivity.
Defined.

End attribute_facts.

Section token_list_facts.
Import DomMore.
Import TokenList.

Lemma split_on_cur (c : N) (s cur : str) :
  split_on c s cur
  = match split_on c s [] with
    | x :: l => (cur ++ x) :: l
    | [] => [cur]
    end.
Proof.
  revert cur. induction s as [|x s IH]; intros cur; cbn [split_on].
  - by rewrite app_nil_r.
  - destruct (chr_eqb x c); [by rewrite app_nil_r|].
    rewrite (IH (cur ++ [x])), (IH ([] ++ [x])).
    destruct (split_on c s []); [done|]. by rewrite <- app_assoc.
Qed.

Lemma split_on_app (c : N) (a b cur : str) :
  split_on c (a ++ c :: b) cur = split_on c a cur ++ split_on c b [].
Proof.
  revert cur. induction a as [|x a IH]; intros cur; cbn [app split_on].
  - unfold chr_eqb. by rewrite N.eqb_refl.
  - destruct (chr_eqb x c); [by rewrite IH | apply IH].
Qed.

Lemma split_on_plain (c : N) (s cur : str) :
  forallb (fun x => negb (chr_eqb x c)) s = true ->
  split_on c s cur = [cur ++ s].
Proof.
  revert cur. induction s as [|x s IH]; intros cur Hs; cbn [split_on].
  - by rewrite app_nil_r.
  - cbn [forallb] in Hs. apply andb_prop in Hs as [Hx Hs].
    apply negb_true_iff in Hx. rewrite Hx, (IH _ Hs).
    by rewrite <- app_assoc.
Qed.

Lemma split_on_tokens (c : N) (s cur : str) :
  forallb (fun x => negb (chr_eqb x c)) cur = true ->
  Forall (fun t => forallb (fun x => negb (chr_eqb x c)) t = true)
    (split_on c s cur).
Proof.
  revert cur. induction s as [|x s IH]; intros cur Hcur; cbn [split_on].
  - by constructor.
  - destruct (chr_eqb x c) eqn:Hx.
    + constructor; [done | by apply IH].
    + apply IH. rewrite forallb_app, Hcur. cbn [forallb].
      by rewrite Hx.
Qed.

Lemma split_on_join (c : N) (tokens : list str) :
  tokens <> [] ->
  Forall (fun t => forallb (fun x => negb (chr_eqb x c)) t = true) tokens ->
  split_on c (join [c] tokens) [] = tokens.
Proof.
  induction tokens as [|x tokens IH]; [done|]. intros _ Hall.
  apply Forall_cons in Hall as [Hx Hall]. cbn [join].
  destruct tokens as [|y tokens].
  - by rewrite split_on_plain.
  - cbn [app]. rewrite split_on_app, (split_on_plain c x [] Hx).
    by rewrite IH.
Qed.

Lemma existsb_str_eqb (value : str) (tokens : list str) :
  existsb (str_eqb value) tokens = true <-> value ∈ tokens.
Proof.
  rewrite existsb_exists. split.
  - intros (t & Hin & Heq). apply str_eqb_eq in Heq as ->.
    by apply list_elem_of_In.
  - intros Hin. exists value. split; [by apply list_elem_of_In|].
    apply str_eqb_refl.
Qed.

Lemma existsb_str_eqb_false (value : str) (tokens : list str) :
  existsb (str_eqb value) tokens = false <-> value ∉ tokens.
Proof.
  rewrite <- existsb_str_eqb. by destruct (existsb _ _).
Qed.

(** [_get] after [_set] is the value set. *)
Lemma TokenList_set_get (h : Store) (this : TokenList) (value : str)
  (w : Object) (e : ElementFields) :
  h !! tl_element this = Some w -> element w = Some e ->
  exists h', _set h this value = Some h' /\ _get h' this = Some value.
Proof.
  intros Hw He.
  destruct (setAttribute_store h (tl_element this) (tl_attribute this)
              value w e Hw He)
    as (h' & w' & e' & Hset & Hw' & He' & Hget & _ & _ & Hval).
  exists h'. split; [done|].
  unfold _get, getAttribute. rewrite Hw'. cbn [mbind option_bind].
  rewrite He'. cbn [mbind option_bind]. rewrite Hget, Hval. done.
Qed.

(** The tokens of the attribute after a call that sets it. *)
Lemma contains_after_set (h : Store) (this : TokenList) (s value : str)
  (w : Object) (e : ElementFields) :
  h !! tl_element this = Some w -> element w = Some e ->
  exists h', _set h this s = Some h'
    /\ forall other,
         contains h' this other
         = Some (existsb (str_eqb other) (split_on " "%char s [])).
Proof.
  intros Hw He.
  destruct (TokenList_set_get h this s w e Hw He) as (h' & Hset & Hget).
  exists h'. split; [done|]. intros other. unfold contains.
  by rewrite Hget.
Qed.

Lemma TokenList_add_store (h : Store) (this : TokenList)
  (value s : str) (w : Object) (e : ElementFields) :
  h !! tl_element this = Some w -> element w = Some e ->
  _get h this = Some s ->
  forallb (fun x => negb (chr_eqb x " "%char)) value = true ->
  exists h',
    add h this value = Some h'
    /\ contains h' this value = Some true
    /\ forall other, other <> [] -> other <> value ->
         contains h' this other = contains h this other.
Proof.
  intros Hw He Hs Hvalue. unfold add.
  destruct (contains h this value) as [[|]|] eqn:Hc.
  - exists h. done.
  - rewrite Hs. cbn [mbind option_bind].
    destruct (contains_after_set h this
                (match s with [] => value | _ => s ++ (" " : str) ++ value end)
                value w e Hw He) as (h' & Hset & Hafter).
    exists h'. split; [done|].
    assert (Hsplit : forall other, other <> [] ->
               existsb (str_eqb other)
                 (split_on " "%char
                    (match s with
                     | [] => value
                     | _ => s ++ (" " : str) ++ value
                     end) [])
               = existsb (str_eqb other) (split_on " "%char s [])
                 || str_eqb other value).
    { intros other Hother. destruct s as [|c s'].
      - rewrite (split_on_plain _ value [] Hvalue).
        assert (E : str_eqb other [] = false) by by apply str_eqb_neq.
        cbn [split_on existsb app]. by rewrite E, !orb_false_r.
      - change ((c :: s') ++ (" " : str) ++ value)
          with ((c :: s') ++ 32%N :: value).
        change (N_of_ascii " "%char) with 32%N.
        rewrite split_on_app, existsb_app.
        change 32%N with (N_of_ascii " "%char) at 2.
        rewrite (split_on_plain _ value [] Hvalue). cbn [existsb app].
        by rewrite orb_false_r. }
    split.
    + rewrite Hafter. f_equal.
      destruct (decide (value = [])) as [->|Hne].
      * unfold contains in Hc. rewrite Hs in Hc. cbn in Hc.
        destruct s as [|c s']; [done|].
        change ((c :: s') ++ (" " : str) ++ [])
          with ((c :: s') ++ 32%N :: []).
        change (N_of_ascii " "%char) with 32%N.
        rewrite split_on_app, existsb_app. cbn. apply orb_true_r.
      * rewrite (Hsplit value Hne), str_eqb_refl. apply orb_true_r.
    + intros other Hother Hne. rewrite Hafter.
      unfold contains. rewrite Hs. cbn [mbind option_bind]. f_equal.
      rewrite (Hsplit other Hother).
      apply str_eqb_neq in Hne. by rewrite Hne, orb_false_r.
  - unfold contains in Hc. by rewrite Hs in Hc.
Qed.

(** X13: [add(value)], for a value without a space, leaves [value] in
    the list, and every other token that is not the empty string is in the
    list afterwards exactly when it was before. *)
Theorem TokenList_add_contains (h : Store) (this : TokenList)
  (value s : str) (w : Object) (e : ElementFields) :
  h !! tl_element this = Some w -> element w = Some e ->
  _get h this = Some s ->
  forallb (fun x => negb (chr_eqb x " "%char)) value = true ->
  exists h',
    add h this value = Some h'
    /\ contains h' this value = Some true
    /\ forall other, other <> [] -> other <> value ->
         contains h' this other = contains h this other.
Proof. apply TokenList_add_store. Qed.

Lemma TokenList_add_contains_witness :
  exists h',
    add class_store (classList 0) "c" = Some h'
    /\ contains h' (classList 0) "c" = Some true
    /\ forall other, other <> [] -> other <> ("c" : str) ->
         contains h' (classList 0) other
         = contains class_store (classList 0) other.
Proof.
  apply (TokenList_add_contains class_store (classList 0) "c" "a b"
           (default (new_Element "a") (class_store !! 0))
           (default {| e_namespace := None; e_style := [];
                       e_attributes := []; e_attributesNS := [];
                       e_content := None |}
              (class_store !! 0 ≫= element)));
    vm_compute; reflexivity.
Defined.

Lemma existsb_filter_other (value other : str) (tokens : list str) :
  existsb (str_eqb other)
    (filter (fun t => str_eqb t value = false) tokens)
  = existsb (str_eqb other) tokens && negb (str_eqb other value).
Proof.
  induction tokens as [|t tokens IH]; [done|].
  cbn [existsb]. rewrite filter_cons.
  destruct (decide (str_eqb t value = false)) as [Ht|Ht].
  - cbn [existsb]. rewrite IH.
    destruct (str_eqb other t) eqn:E; cbn [orb andb]; [|done].
    apply str_eqb_eq in E. subst t. by rewrite Ht.
  - rewrite IH. apply not_false_is_true in Ht.
    apply str_eqb_eq in Ht. subst t.
    destruct (str_eqb other value); cbn [orb andb negb];
      by rewrite ?andb_false_r, ?andb_true_r.
Qed.

Lemma filter_join_tokens (value : str) (tokens : list str) :
  Forall (fun t => forallb (fun x => negb (chr_eqb x " "%char)) t = true)
    tokens ->
  forall other, other <> [] ->
    existsb (str_eqb other)
      (split_on " "%char
         (join " " (filter (fun t => str_eqb t value = false) tokens)) [])
    = existsb (str_eqb other) tokens && negb (str_eqb other value).
Proof.
  intros Hall other Hother.
  pose proof (existsb_filter_other value other tokens) as Hkept.
  set (kept := filter (fun t => str_eqb t value = false) tokens) in *.
  destruct kept as [|k kept'] eqn:Ek.
  - cbn [join split_on existsb]. rewrite <- Hkept. cbn [existsb].
    rewrite orb_false_r. by apply str_eqb_neq.
  - change (js " ") with [N_of_ascii " "%char].
    rewrite split_on_join; [done | done |].
    rewrite <- Ek. unfold kept.
    apply Forall_forall. intros t Ht. apply list_elem_of_filter in Ht as [_ Ht].
    by apply (proj1 (Forall_forall _ _) Hall).
Qed.

Lemma TokenList_remove_store (h : Store) (this : TokenList)
  (value s : str) (w : Object) (e : ElementFields) :
  h !! tl_element this = Some w -> element w = Some e ->
  _get h this = Some s ->
  value <> [] ->
  exists h',
    remove h this value = Some h'
    /\ contains h' this value = Some false
    /\ forall other, other <> [] -> other <> value ->
         contains h' this other = contains h this other.
Proof.
  intros Hw He Hs Hvalue. unfold remove. rewrite Hs.
  cbn [mbind option_bind].
  destruct (contains_after_set h this
              (join " " (filter (fun t => str_eqb t value = false)
                           (split_on " "%char s [])))
              value w e Hw He) as (h' & Hset & Hafter).
  exists h'. split; [done|].
  pose proof (split_on_tokens " "%char s [] eq_refl) as Htokens.
  split.
  - rewrite Hafter, (filter_join_tokens value _ Htokens value Hvalue).
    by rewrite str_eqb_refl, andb_false_r.
  - intros other Hother Hne. rewrite Hafter.
    rewrite (filter_join_tokens value _ Htokens other Hother).
    unfold contains. rewrite Hs. cbn [mbind option_bind].
    apply str_eqb_neq in Hne. by rewrite Hne, andb_true_r.
Qed.

(** X14: [remove(value)], for a value that is not the empty string,
    leaves [value] out of the list, and every other token that is not the
    empty string is in the list afterwards exactly when it was before. *)
Theorem TokenList_remove_contains (h : Store) (this : TokenList)
  (value s : str) (w : Object) (e : ElementFields) :
  h !! tl_element this = Some w -> element w = Some e ->
  _get h this = Some s ->
  value <> [] ->
  exists h',
    remove h this value = Some h'
    /\ contains h' this value = Some false
    /\ forall other, other <> [] -> other <> value ->
         contains h' this other = contains h this other.
Proof. apply TokenList_remove_store. Qed.

Lemma TokenList_remove_contains_witness :
  exists h',
    remove class_store (classList 0) "a" = Some h'
    /\ contains h' (classList 0) "a" = Some false
    /\ forall other, other <> [] -> other <> ("a" : str) ->
         contains h' (classList 0) other
         = contains class_store (classList 0) other.
Proof.
  apply (TokenList_remove_contains class_store (classList 0) "a" "a b"
           (default (new_Element "a") (class_store !! 0))
           (default {| e_namespace := None; e_style := [];
                       e_attributes := []; e_attributesNS := [];
                       e_content := None |}
              (class_store !! 0 ≫= element)));
    try (vm_compute; reflexivity).
  discriminate.
Defined.

(** X15: [toggle(value)], for a value without a space that is not the
    empty string, returns whether the value is in the list afterwards,
    which is the opposite of before. *)
Theorem TokenList_toggle_flips (h : Store) (this : TokenList)
  (value s : str) (w : Object) (e : ElementFields) :
  h !! tl_element this = Some w -> element w = Some e ->
  _get h this = Some s ->
  value <> [] ->
  forallb (fun x => negb (chr_eqb x " "%char)) value = true ->
  exists b h',
    toggle h this value = Some (b, h')
    /\ contains h this value = Some (negb b)
    /\ contains h' this value = Some b.
Proof.
  intros Hw He Hs Hne Hvalue. unfold toggle.
  destruct (contains h this value) as [[|]|] eqn:Hc.
  - destruct (TokenList_remove_store h this value s w e Hw He Hs Hne)
      as (h' & -> & Hafter & _).
    by exists false, h'.
  - destruct (TokenList_add_store h this value s w e Hw He Hs Hvalue)
      as (h' & -> & Hafter & _).
    by exists true, h'.
  - unfold contains in Hc. by rewrite Hs in Hc.
Qed.

Lemma TokenList_toggle_flips_witness :
  exists b h',
    toggle class_store (classList 0) "a" = Some (b, h')
    /\ contains class_store (classList 0) "a" = Some (negb b)
    /\ contains h' (classList 0) "a" = Some b.
Proof.
  apply (TokenList_toggle_flips class_store (classList 0) "a" "a b"
           (default (new_Element "a") (class_store !! 0))
           (default {| e_namespace := None; e_style := [];
                       e_attributes := []; e_attributesNS := [];
                       e_content := None |}
              (class_store !! 0 ≫= element)));
    try (vm_compute; reflexivity).
  discriminate.
Defined.

End token_list_facts.

(** ** Children and siblings *)

Section children_facts.
Import DomMore.

Lemma index_of_lookup (x : ref) (l : list ref) (i : nat) :
  index_of x l = Some i -> l !! i = Some x.
Proof.
  revert i. induction l as [|y l IH]; intros i; cbn [index_of]; [done|].
  destruct (Nat.eqb_spec x y) as [->|Hne].
  - by intros [= <-].
  - destruct (index_of x l) as [j|]; [|done].
    intros [= <-]. by apply IH.
Qed.

Lemma index_of_elem (x : ref) (l : list ref) :
  x ∈ l -> exists i, index_of x l = Some i.
Proof.
  intros Hin. destruct (index_of x l) as [i|] eqn:E; [by exists i|].
  by apply index_of_None in E.
Qed.

Lemma index_of_snoc (x : ref) (l : list ref) :
  x ∉ l -> index_of x (l ++ [x]) = Some (length l).
Proof.
  induction l as [|y l IH]; intros Hx; cbn [app index_of length].
  - by rewrite Nat.eqb_refl.
  - apply not_elem_of_cons in Hx as [Hne Hx].
    apply Nat.eqb_neq in Hne. rewrite Hne, (IH Hx). done.
Qed.

(** X16: [insertBefore(newNode, reference)], for a node that is not a
    fragment and has no parent and a reference that is the [i]-th child,
    returns the node and puts it at index [i], right before the reference,
    with [this] as its parent. *)
Theorem insertBefore_places_before_reference (fuel : nat) (h : Store)
  (this newNode reference : ref) (t n : Object) (i : nat) :
  h !! this = Some t -> h !! newNode = Some n ->
  nodeType n <> DOCUMENT_FRAGMENT_NODE ->
  parentNode n = None ->
  index_of reference (childNodes t) = Some i ->
  exists h' t' n',
    insertBefore (S fuel) h this newNode (Some reference) = Ok newNode h'
    /\ h' !! this = Some t' /\ h' !! newNode = Some n'
    /\ childNodes t'
       = take i (childNodes t) ++ newNode :: drop i (childNodes t)
    /\ childNodes t' !! i = Some newNode
    /\ childNodes t' !! S i = Some reference
    /\ parentNode n' = Some this.
Proof.
  intros Ht Hn Hfrag Hpar Hi. cbn [insertBefore]. rewrite Ht, Hn, Hi.
  destruct (N.eqb_spec (nodeType n) DOCUMENT_FRAGMENT_NODE) as [|_]; [done|].
  unfold insert_node. rewrite Hn. cbn [mbind option_bind]. rewrite Hpar.
  cbn [mbind option_bind]. rewrite Ht. cbn [mbind option_bind].
  pose proof (index_of_lookup _ _ _ Hi) as Hlook.
  pose proof (lookup_lt_Some _ _ _ Hlook) as Hlt.
  assert (Hat : forall cs' : list ref,
             cs' = take i (childNodes t) ++ newNode :: drop i (childNodes t) ->
             cs' !! i = Some newNode /\ cs' !! S i = Some reference).
  { intros cs' ->. split.
    - rewrite lookup_app_r by (rewrite length_take; lia).
      rewrite length_take. by replace (i - i `min` length (childNodes t)) with 0 by lia.
    - rewrite lookup_app_r by (rewrite length_take; lia).
      rewrite length_take.
      replace (S i - i `min` length (childNodes t)) with 1 by lia.
      change ((newNode :: drop i (childNodes t)) !! 1)
        with (drop i (childNodes t) !! 0).
      rewrite lookup_drop. by rewrite Nat.add_0_r. }
  destruct (decide (newNode = this)) as [->|Hne].
  - rewrite lookup_insert_eq. cbn [mbind option_bind].
    eexists _, _, _. split; [reflexivity|]. rewrite lookup_insert_eq.
    split; [reflexivity|]. split; [reflexivity|].
    cbn [set_parentNode set_childNodes childNodes parentNode].
    unfold insert_at. destruct (Hat _ eq_refl). done.
  - rewrite lookup_insert_ne by done. rewrite Hn. cbn [mbind option_bind].
    eexists _, _, _. split; [reflexivity|].
    rewrite lookup_insert_ne by done. rewrite lookup_insert_eq.
    split; [reflexivity|]. rewrite lookup_insert_eq.
    split; [reflexivity|].
    cbn [set_parentNode set_childNodes childNodes parentNode].
    unfold insert_at. destruct (Hat _ eq_refl). done.
Qed.

Lemma insertBefore_places_before_reference_witness :
  exists h' t' n',
    insertBefore 1 family_store 0 3 (Some 2) = Ok 3 h'
    /\ h' !! 0 = Some t' /\ h' !! 3 = Some n'
    /\ childNodes t' = take 1 [1; 2] ++ 3 :: drop 1 [1; 2]
    /\ childNodes t' !! 1 = Some 3
    /\ childNodes t' !! 2 = Some 2
    /\ parentNode n' = Some 0.
Proof.
  apply (insertBefore_places_before_reference 0 family_store 0 3 2
           (set_childNodes [1; 2] (new_Node "ul" ELEMENT_NODE))
           (new_Node "li" ELEMENT_NODE) 1);
    try reflexivity.
  discriminate.
Defined.

(** X17: [appendChild(node)], for a node that is not a fragment, has no
    parent and is not among the children, makes it the last child: it has
    no next sibling, and its previous sibling is the child that was last
    before. *)
Theorem appendChild_makes_last_child (fuel : nat) (h : Store) (A N : ref)
  (a n : Object) :
  h !! A = Some a -> h !! N = Some n ->
  nodeType n <> DOCUMENT_FRAGMENT_NODE ->
  template_content a = None ->
  parentNode n = None ->
  N ∉ childNodes a ->
  exists h',
    appendChild (S fuel) h A N = Ok A h'
    /\ lastChild h' A = Some (Some N)
    /\ nextSibling h' N = Some None
    /\ previousSibling h' N = Some (last (childNodes a)).
Proof.
  intros HA HN Hfrag Htpl Hpar Hnot. cbn [appendChild].
  rewrite HA, HN, Htpl.
  destruct (N.eqb_spec (nodeType n) DOCUMENT_FRAGMENT_NODE) as [|_]; [done|].
  unfold append_node. rewrite HN. cbn [mbind option_bind]. rewrite Hpar.
  cbn [mbind option_bind]. rewrite HA. cbn [mbind option_bind].
  set (cs := childNodes a) in *.
  assert (Hlast : (if 0 <? length (cs ++ [N])
                   then (cs ++ [N]) !! (length (cs ++ [N]) - 1) else None)
                  = Some N).
  { rewrite length_app. cbn [length].
    replace (0 <? length cs + 1) with true by (symmetry; apply Nat.ltb_lt; lia).
    replace (length cs + 1 - 1) with (length cs + 0) by lia.
    by rewrite lookup_app_r, Nat.add_comm, Nat.add_sub by lia. }
  assert (Hnext : array_at (cs ++ [N]) (Z.of_nat (length cs) + 1) = None).
  { unfold array_at.
    replace (0 <=? Z.of_nat (length cs) + 1)%Z with true
      by (symmetry; apply Z.leb_le; lia).
    apply lookup_ge_None. rewrite length_app. cbn [length]. lia. }
  assert (Hprev : array_at (cs ++ [N]) (Z.of_nat (length cs) + -1)
                  = last cs).
  { unfold array_at. destruct cs as [|c cs'] using rev_ind; [done|].
    rewrite last_snoc, length_app. cbn [length].
    replace (0 <=? Z.of_nat (length cs' + 1) + -1)%Z with true
      by (symmetry; apply Z.leb_le; lia).
    replace (Z.to_nat (Z.of_nat (length cs' + 1) + -1)) with (length cs' + 0)
      by lia.
    rewrite <- app_assoc, lookup_app_r by lia.
    by rewrite Nat.add_comm, Nat.add_sub. }
  destruct (decide (N = A)) as [->|Hne].
  - rewrite lookup_insert_eq. cbn [mbind option_bind].
    eexists. split; [reflexivity|].
    match goal with |- context [lastChild ?hh _] => set (h' := hh) end.
    assert (HA' : h' !! A = Some (set_parentNode (Some A)
                                    (set_childNodes (cs ++ [A]) a)))
      by apply lookup_insert_eq.
    clearbody h'.
    unfold lastChild, nextSibling, previousSibling, _index, _getSiblingAt.
    repeat first
      [ rewrite HA'
      | rewrite (index_of_snoc _ _ Hnot)
      | progress cbn [mbind option_bind set_parentNode set_childNodes
                        childNodes parentNode] ].
    rewrite Hlast, Hnext, Hprev. done.
  - rewrite lookup_insert_ne by done. rewrite HN. cbn [mbind option_bind].
    eexists. split; [reflexivity|].
    match goal with |- context [lastChild ?hh _] => set (h' := hh) end.
    assert (HA' : h' !! A = Some (set_childNodes (cs ++ [N]) a)).
    { unfold h'. rewrite lookup_insert_ne by done. apply lookup_insert_eq. }
    assert (HN' : h' !! N = Some (set_parentNode (Some A) n))
      by apply lookup_insert_eq.
    clearbody h'.
    unfold lastChild, nextSibling, previousSibling, _index, _getSiblingAt.
    repeat first
      [ rewrite HA'
      | rewrite HN'
      | rewrite (index_of_snoc _ _ Hnot)
      | progress cbn [mbind option_bind set_parentNode set_childNodes
                        childNodes parentNode] ].
    rewrite Hlast, Hnext, Hprev. done.
Qed.

Lemma appendChild_makes_last_child_witness :
  exists h',
    appendChild 1 family_store 0 3 = Ok 0 h'
    /\ lastChild h' 0 = Some (Some 3)
    /\ nextSibling h' 3 = Some None
    /\ previousSibling h' 3 = Some (last [1; 2]).
Proof.
  apply (appendChild_makes_last_child 0 family_store 0 3
           (set_childNodes [1; 2] (new_Node "ul" ELEMENT_NODE))
           (new_Node "li" ELEMENT_NODE));
    try reflexivity.
  - discriminate.
  - lazymatch goal with |- ?P => exact (bool_decide_unpack P I) end.
Defined.

(** X18: among the children of a node that lists each child once, every
    child pointing to it as its parent, [y] is the next sibling of [x]
    exactly when [x] is the previous sibling of [y]. *)
Theorem sibling_links (h : Store) (p x y : ref) (po xo yo : Object) :
  h !! p = Some po -> NoDup (childNodes po) ->
  h !! x = Some xo -> parentNode xo = Some p -> x ∈ childNodes po ->
  h !! y = Some yo -> parentNode yo = Some p -> y ∈ childNodes po ->
  nextSibling h x = Some (Some y) <-> previousSibling h y = Some (Some x).
Proof.
  intros Hp Hnd Hx Hxp Hxin Hy Hyp Hyin.
  destruct (index_of_elem _ _ Hxin) as [i Hi].
  destruct (index_of_elem _ _ Hyin) as [j Hj].
  pose proof (index_of_lookup _ _ _ Hi) as Hli.
  pose proof (index_of_lookup _ _ _ Hj) as Hlj.
  unfold nextSibling, previousSibling, _index, _getSiblingAt.
  repeat first
    [ rewrite Hx | rewrite Hy | rewrite Hp | rewrite Hxp | rewrite Hyp
    | rewrite Hi | rewrite Hj | progress cbn [mbind option_bind] ].
  unfold array_at.
  replace (0 <=? Z.of_nat i + 1)%Z with true
    by (symmetry; apply Z.leb_le; lia).
  replace (Z.to_nat (Z.of_nat i + 1)) with (S i) by lia.
  split.
  - intros [= Hnext].
    pose proof (NoDup_lookup _ _ _ _ Hnd Hnext Hlj) as <-.
    replace (0 <=? Z.of_nat (S i) + -1)%Z with true
      by (symmetry; apply Z.leb_le; lia).
    replace (Z.to_nat (Z.of_nat (S i) + -1)) with i by lia.
    by rewrite Hli.
  - destruct (0 <=? Z.of_nat j + -1)%Z eqn:Hpos; [|done].
    apply Z.leb_le in Hpos. intros [= Hprev].
    pose proof (NoDup_lookup _ _ _ _ Hnd Hprev Hli) as <-.
    replace (S (Z.to_nat (Z.of_nat j + -1))) with j by lia.
    by rewrite Hlj.
Qed.

Lemma sibling_links_witness :
  nextSibling family_store 1 = Some (Some 2)
  <-> previousSibling family_store 2 = Some (Some 1).
Proof.
  apply (sibling_links family_store 0 1 2
           (set_childNodes [1; 2] (new_Node "ul" ELEMENT_NODE))
           (set_parentNode (Some 0) (new_Node "li" ELEMENT_NODE))
           (set_parentNode (Some 0) (new_Node "li" ELEMENT_NODE)));
    try reflexivity.
  - lazymatch goal with |- ?P => exact (bool_decide_unpack P I) end.
  - lazymatch goal with |- ?P => exact (bool_decide_unpack P I) end.
  - lazymatch goal with |- ?P => exact (bool_decide_unpack P I) end.
Defined.

End children_facts.

Section replace_facts.
Import DomMore.

Lemma array_set_in_range (i : nat) (x : ref) (l : list ref) (y : ref) :
  l !! i = Some y -> array_set i x l = Some (<[i := x]> l).
Proof.
  intros Hl. apply lookup_lt_Some in Hl. unfold array_set.
  by replace (i <? length l) with true by (symmetry; by apply Nat.ltb_lt).
Qed.

(** X19: [replaceChild(newChild, oldChild)] changes nothing when
    [oldChild] is not a child; when it is the [i]-th child and [newChild]
    is another node, without a parent, [newChild] takes its place at index
    [i] with [this] as its parent, the other children stay where they
    are, and [oldChild] is left without a parent. *)
Theorem replaceChild_in_place (h : Store) (this newChild oldChild : ref)
  (t : Object) :
  h !! this = Some t ->
  (oldChild ∉ childNodes t ->
   replaceChild h this newChild oldChild = Some h)
  /\ forall n o i,
       h !! newChild = Some n -> h !! oldChild = Some o ->
       parentNode n = None -> newChild <> oldChild ->
       index_of oldChild (childNodes t) = Some i ->
       exists h' t' n' o',
         replaceChild h this newChild oldChild = Some h'
         /\ h' !! this = Some t'
         /\ childNodes t' = <[i := newChild]> (childNodes t)
         /\ h' !! newChild = Some n' /\ parentNode n' = Some this
         /\ h' !! oldChild = Some o' /\ parentNode o' = None.
Proof.
  intros Ht. split.
  { intros Hnot. apply index_of_None in Hnot.
    unfold replaceChild. rewrite Ht. cbn [mbind option_bind].
    by rewrite Hnot. }
  intros n o i Hn Ho Hpar Hne Hi.
  pose proof (index_of_lookup _ _ _ Hi) as Hlook.
  unfold replaceChild. rewrite Ht. cbn [mbind option_bind].
  rewrite Hi, Ho. cbn [mbind option_bind].
  set (h1 := <[oldChild := set_parentNode None o]> h).
  assert (Hn1 : h1 !! newChild = Some n).
  { unfold h1. by rewrite lookup_insert_ne. }
  unfold _detach. rewrite Hn1. cbn [mbind option_bind]. rewrite Hpar.
  cbn [mbind option_bind]. rewrite Hn1. cbn [mbind option_bind].
  set (h3 := <[newChild := set_parentNode (Some this) n]> h1).
  assert (Ht3 : exists t3, h3 !! this = Some t3
                  /\ childNodes t3 = childNodes t
                  /\ (this = newChild -> parentNode t3 = Some this)
                  /\ (this = oldChild -> parentNode t3 = None)).
  { destruct (decide (this = newChild)) as [->|Hn'].
    - exists (set_parentNode (Some newChild) n). unfold h3.
      rewrite lookup_insert_eq. rewrite Ht in Hn. injection Hn as <-.
      done.
    - destruct (decide (this = oldChild)) as [->|Ho'].
      + exists (set_parentNode None o). unfold h3, h1.
        rewrite lookup_insert_ne by done. rewrite lookup_insert_eq.
        rewrite Ht in Ho. injection Ho as <-. done.
      + exists t. unfold h3, h1.
        rewrite !lookup_insert_ne by done. done. }
  destruct Ht3 as (t3 & Ht3 & Hcs3 & Hnew3 & Hold3).
  rewrite Ht3. cbn [mbind option_bind]. rewrite Hcs3.
  rewrite (array_set_in_range _ _ _ _ Hlook). cbn [mbind option_bind].
  set (h' := <[this := set_childNodes (<[i := newChild]> (childNodes t)) t3]> h3).
  assert (Hthis : h' !! this
                  = Some (set_childNodes (<[i := newChild]> (childNodes t)) t3))
    by apply lookup_insert_eq.
  assert (Hnew : exists n', h' !! newChild = Some n'
                   /\ parentNode n' = Some this).
  { destruct (decide (this = newChild)) as [Heq|Hn'].
    - eexists. rewrite <- Heq at 1. split; [exact Hthis|].
      cbn [set_childNodes parentNode]. by apply Hnew3.
    - eexists. unfold h', h3. rewrite lookup_insert_ne by done.
      rewrite lookup_insert_eq. done. }
  assert (Hold : exists o', h' !! oldChild = Some o'
                   /\ parentNode o' = None).
  { destruct (decide (this = oldChild)) as [Heq|Ho'].
    - eexists. rewrite <- Heq at 1. split; [exact Hthis|].
      cbn [set_childNodes parentNode]. by apply Hold3.
    - eexists. unfold h', h3, h1. rewrite lookup_insert_ne by done.
      rewrite lookup_insert_ne by done. rewrite lookup_insert_eq. done. }
  destruct Hnew as (n' & Hn' & Hpn'). destruct Hold as (o' & Ho' & Hpo').
  exists h', (set_childNodes (<[i := newChild]> (childNodes t)) t3), n', o'.
  split; [done|]. split; [exact Hthis|]. done.
Qed.

Lemma replaceChild_in_place_witness :
  (4 ∉ [1; 2] -> replaceChild family_store 0 3 4 = Some family_store)
  /\ exists h' t' n' o',
       replaceChild family_store 0 3 1 = Some h'
       /\ h' !! 0 = Some t'
       /\ childNodes t' = <[0 := 3]> [1; 2]
       /\ h' !! 3 = Some n' /\ parentNode n' = Some 0
       /\ h' !! 1 = Some o' /\ parentNode o' = None.
Proof.
  split.
  - apply (replaceChild_in_place family_store 0 3 4
             (set_childNodes [1; 2] (new_Node "ul" ELEMENT_NODE))).
    reflexivity.
  - apply (proj2 (replaceChild_in_place family_store 0 3 1
                    (set_childNodes [1; 2] (new_Node "ul" ELEMENT_NODE))
                    eq_refl)
             (new_Node "li" ELEMENT_NODE)
             (set_parentNode (Some 0) (new_Node "li" ELEMENT_NODE)) 0);
      try reflexivity.
    discriminate.
Defined.

End replace_facts.

(** ** Style sheets *)

(** X20: for an index from [0] to the number of rules, [insertRule(rule,
    index)] puts the rule at that index and [deleteRule(index)] then gives
    the rules back as they were. *)
Theorem insertRule_deleteRule (rule : str) (index : Z)
  (cssRules : list str) :
  (0 <= index <= Z.of_nat (length cssRules))%Z ->
  insertRule rule index cssRules !! Z.to_nat index = Some rule
  /\ deleteRule index (insertRule rule index cssRules) = cssRules.
Proof.
  intros Hi. unfold insertRule, deleteRule.
  assert (Ha : splice_start (length cssRules) index = Z.to_nat index).
  { unfold splice_start.
    replace (index <? 0)%Z with false by (symmetry; apply Z.ltb_ge; lia).
    f_equal. lia. }
  rewrite Ha. set (a := Z.to_nat index) in *.
  assert (Hlen : a <= length cssRules) by lia.
  assert (Htake : length (take a cssRules) = a)
    by (rewrite length_take; lia).
  split.
  - rewrite lookup_app_r by lia. by rewrite Htake, Nat.sub_diag.
  - assert (Ha' : splice_start
                    (length (take a cssRules ++ rule :: drop a cssRules))
                    index = a).
    { unfold splice_start.
      replace (index <? 0)%Z with false by (symmetry; apply Z.ltb_ge; lia).
      rewrite length_app, Htake. cbn [length]. lia. }
    rewrite Ha'.
    rewrite take_app_length' by done.
    assert (Hdrop : drop (a + 1)
                      (take a cssRules ++ rule :: drop a cssRules)
                    = drop a cssRules).
    { rewrite drop_app_ge by lia. rewrite Htake.
      by replace (a + 1 - a) with 1 by lia. }
    rewrite Hdrop. apply take_drop.
Qed.

Lemma insertRule_deleteRule_witness :
  insertRule "b{}" 1 [("a{}" : str); ("c{}" : str)] !! Z.to_nat 1
  = Some ("b{}" : str)
  /\ deleteRule 1 (insertRule "b{}" 1 [("a{}" : str); ("c{}" : str)])
     = [("a{}" : str); ("c{}" : str)].
Proof.
  apply (insertRule_deleteRule "b{}" 1 [("a{}" : str); ("c{}" : str)]).
  simpl. lia.
Defined.

(** ** Names of CSS properties *)

Lemma is_lower_is_letter (c : N) : is_lower c = true -> is_letter c = true.
Proof. unfold is_letter. intros ->. apply orb_true_r. Qed.

Lemma span_lower_word (r R : str) :
  forallb is_lower r = true -> starts_lower R = false ->
  span is_lower (r ++ R) = r.
Proof.
  intros Hr HR. destruct R as [|c R].
  - rewrite app_nil_r. by apply span_all.
  - by apply span_app_stop.
Qed.

Lemma RE_PROPERTY_word (w R : str) :
  is_property_word w = true -> starts_lower R = false ->
  RE_PROPERTY (w ++ R) = Some (length w, tt).
Proof.
  destruct w as [|c r]; [done|]. cbn [is_property_word].
  intros Hw HR. apply andb_prop in Hw as [Hc Hr].
  cbn [app RE_PROPERTY]. rewrite Hc, (span_lower_word r R Hr HR). done.
Qed.

Lemma RE_PROPERTY_other (c : N) (r : str) :
  is_letter c = false -> RE_PROPERTY (c :: r) = None.
Proof. intros Hc. cbn [RE_PROPERTY]. by rewrite Hc. Qed.

Lemma starts_lower_gap (gap R : str) :
  forallb (fun c => negb (is_letter c)) gap = true ->
  gap <> [] -> starts_lower (gap ++ R) = false.
Proof.
  destruct gap as [|c gap]; [done|]. intros Hg _.
  cbn [forallb] in Hg. apply andb_prop in Hg as [Hc _].
  apply negb_true_iff in Hc. cbn [app starts_lower].
  destruct (is_lower c) eqn:E; [|done].
  apply is_lower_is_letter in E. congruence.
Qed.

Lemma exec_gap_word (pre gap w R : str) :
  forallb (fun c => negb (is_letter c)) gap = true ->
  is_property_word w = true -> starts_lower R = false ->
  exec RE_PROPERTY (pre ++ gap ++ w ++ R) (length pre)
  = (Some (length (pre ++ gap), length w, tt), length (pre ++ gap ++ w)).
Proof.
  intros Hgap Hw HR. rewrite exec_at.
  rewrite scan_skip.
  2:{ intros c r Hc. apply RE_PROPERTY_other.
      apply list_elem_of_In in Hc.
      apply (proj1 (forallb_forall _ _) Hgap) in Hc.
      by apply negb_true_iff in Hc. }
  rewrite (scan_head _ _ _ _ _ (RE_PROPERTY_word w R Hw HR)).
  rewrite !length_app. f_equal. lia.
Qed.

Lemma pieces_text_cons (gap w : str) (rest : list (str * str)) :
  pieces_text ((gap, w) :: rest) = (gap ++ w) ++ pieces_text rest.
Proof. reflexivity. Qed.

Lemma starts_lower_rest (rest : list (str * str)) (tail : str) :
  match rest with
  | (gap', w') :: _ => negb (starts_lower (gap' ++ w'))
  | [] => true
  end = true ->
  property_pieces rest = true ->
  forallb (fun c => negb (is_letter c)) tail = true ->
  starts_lower (pieces_text rest ++ tail) = false.
Proof.
  intros Hnext Hrest Htail. destruct rest as [|[gap' w'] rest'].
  - cbn [pieces_text map concat app]. destruct tail as [|c tail]; [done|].
    cbn [forallb] in Htail. apply andb_prop in Htail as [Hc _].
    apply negb_true_iff in Hc. cbn [starts_lower].
    destruct (is_lower c) eqn:E; [|done].
    apply is_lower_is_letter in E. congruence.
  - apply negb_true_iff in Hnext. rewrite pieces_text_cons.
    cbn [property_pieces] in Hrest.
    apply andb_prop in Hrest as [Hrest _].
    apply andb_prop in Hrest as [Hrest _].
    apply andb_prop in Hrest as [_ Hw'].
    destruct (gap' ++ w') as [|c u] eqn:E; [|done].
    apply app_eq_nil in E as [_ ->]. done.
Qed.

Lemma property_words_pieces (pieces : list (str * str)) :
  forall pre tail fuel,
    property_pieces pieces = true ->
    forallb (fun c => negb (is_letter c)) tail = true ->
    length pieces < fuel ->
    property_words fuel (pre ++ pieces_text pieces ++ tail) (length pre)
    = map (fun p : str * str => toLowerCase (snd p)) pieces.
Proof.
  induction pieces as [|[gap w] rest IH]; intros pre tail fuel Hp Htail Hfuel.
  - destruct fuel as [|fuel]; [simpl in Hfuel; lia|].
    cbn [property_words pieces_text map concat app].
    rewrite exec_at, scan_none_without; [done | done |].
    intros c r Hc. apply RE_PROPERTY_other. apply list_elem_of_In in Hc.
    apply (proj1 (forallb_forall _ _) Htail) in Hc.
    by apply negb_true_iff in Hc.
  - destruct fuel as [|fuel]; [simpl in Hfuel; lia|].
    cbn [property_pieces] in Hp.
    apply andb_prop in Hp as [Hp Hrest]. apply andb_prop in Hp as [Hp Hnext].
    apply andb_prop in Hp as [Hgap Hw].
    pose proof (starts_lower_rest rest tail Hnext Hrest Htail) as HR.
    assert (Htext : pre ++ pieces_text ((gap, w) :: rest) ++ tail
                    = pre ++ gap ++ w ++ pieces_text rest ++ tail).
    { rewrite pieces_text_cons. by rewrite <- !app_assoc. }
    rewrite Htext. cbn [property_words].
    rewrite (exec_gap_word pre gap w _ Hgap Hw HR).
    assert (Hword : take (length w)
                      (drop (length (pre ++ gap))
                         (pre ++ gap ++ w ++ pieces_text rest ++ tail))
                    = w).
    { rewrite (app_assoc pre gap), drop_app_length.
      by rewrite take_app_length. }
    rewrite Hword. cbn [map snd]. f_equal.
    assert (Htext' : pre ++ gap ++ w ++ pieces_text rest ++ tail
                       = (pre ++ gap ++ w) ++ pieces_text rest ++ tail)
      by (by rewrite <- !app_assoc).
    rewrite Htext'. apply IH; [done | done |]. simpl in Hfuel. lia.
Qed.

Lemma pieces_text_length (pieces : list (str * str)) :
  property_pieces pieces = true ->
  length pieces <= length (pieces_text pieces).
Proof.
  induction pieces as [|[gap w] rest IH]; [done|]. intros Hp.
  cbn [property_pieces] in Hp.
  apply andb_prop in Hp as [Hp Hrest]. apply andb_prop in Hp as [Hp _].
  apply andb_prop in Hp as [_ Hw].
  rewrite pieces_text_cons, !length_app. specialize (IH Hrest).
  destruct w as [|c r]; [done|]. simpl. lia.
Qed.

Lemma toCSSPropertyName_of_pieces (pieces : list (str * str)) (tail : str) :
  property_pieces pieces = true ->
  forallb (fun c => negb (is_letter c)) tail = true ->
  toCSSPropertyName (pieces_text pieces ++ tail)
  = join "-" (map (fun p : str * str => toLowerCase (snd p)) pieces).
Proof.
  intros Hp Htail. unfold toCSSPropertyName. f_equal.
  apply (property_words_pieces pieces [] tail _ Hp Htail).
  pose proof (pieces_text_length pieces Hp). rewrite length_app. lia.
Qed.

(** X21: what [toCSSPropertyName] returns for every name: when the name
    is cut into words (a letter and the lower-case letters after it),
    each after a gap of characters that are not letters, and ends with
    such a gap, the result is the words in lower case joined by [-]; so
    [backgroundColor] gives [background-color], and digits and
    punctuation are dropped. *)
Theorem toCSSPropertyName_words (pieces : list (str * str)) (tail : str) :
  property_pieces pieces = true ->
  forallb (fun c => negb (is_letter c)) tail = true ->
  toCSSPropertyName (pieces_text pieces ++ tail)
  = join "-" (map (fun p : str * str => toLowerCase (snd p)) pieces).
Proof. apply toCSSPropertyName_of_pieces. Qed.

Lemma toCSSPropertyName_words_witness :
  toCSSPropertyName ("backgroundColor2" : str) = ("background-color" : str).
Proof.
  apply (toCSSPropertyName_words
           [(([] : str), ("background" : str)); (([] : str), ("Color" : str))]
           ("2" : str));
    vm_compute; reflexivity.
Defined.

Lemma take_span (p : N -> bool) (s : str) :
  take (length (span p s)) s = span p s.
Proof.
  rewrite (span_drop p s) at 2. by rewrite take_app_length.
Qed.

Lemma lower_chr_letter (c : N) :
  is_letter c = true -> is_lower (lower_chr c) = true.
Proof.
  unfold is_letter, lower_chr, is_upper, is_lower. intros H.
  destruct ((65 <=? c)%N && (c <=? 90)%N) eqn:E.
  - apply andb_prop in E as [E1 E2].
    apply N.leb_le in E1. apply N.leb_le in E2.
    apply andb_true_intro. split; apply N.leb_le; lia.
  - done.
Qed.

Lemma lower_chr_lower (c : N) : is_lower c = true -> lower_chr c = c.
Proof.
  unfold lower_chr, is_upper, is_lower. intros H.
  apply andb_prop in H as [H1 H2]. apply N.leb_le in H1.
  replace (c <=? 90)%N with false by (symmetry; apply N.leb_gt; lia).
  by rewrite andb_false_r.
Qed.

Lemma toLowerCase_lower (w : str) :
  forallb is_lower w = true -> toLowerCase w = w.
Proof.
  induction w as [|c w IH]; [done|]. cbn [forallb]. intros H.
  apply andb_prop in H as [Hc Hw]. unfold toLowerCase in *. cbn [map].
  by rewrite (lower_chr_lower c Hc), (IH Hw).
Qed.

(** The words that the loop of [toCSSPropertyName] collects are not empty
    and in lower case. *)
Lemma property_words_lower (fuel : nat) (name : str) (lastIndex : nat) :
  Forall (fun w => w <> [] /\ forallb is_lower w = true)
    (property_words fuel name lastIndex).
Proof.
  revert lastIndex. induction fuel as [|fuel IH]; intros lastIndex;
    [constructor|].
  cbn [property_words]. unfold exec.
  destruct (length name <? lastIndex); [constructor|].
  destruct (scan RE_PROPERTY _ _) as [[[i len] []]|] eqn:Hscan;
    [|constructor].
  constructor; [|apply IH].
  apply scan_Some in Hscan as (j & -> & _ & Hpat).
  rewrite drop_drop in Hpat. destruct (drop (lastIndex + j) name) as [|c r];
    [done|].
  cbn [RE_PROPERTY] in Hpat. destruct (is_letter c) eqn:Hc; [|done].
  injection Hpat as <-. cbn [take]. rewrite take_span.
  unfold toLowerCase. cbn [map forallb]. split; [done|].
  rewrite (lower_chr_letter c Hc). cbn [andb].
  apply forallb_forall. intros x Hx. apply in_map_iff in Hx as (y & <- & Hy).
  pose proof (proj1 (forallb_forall _ _) (span_forallb is_lower r) y Hy) as Hl.
  by rewrite (lower_chr_lower y Hl).
Qed.

Lemma kebab_tail_pieces (rest : list str) :
  Forall (fun w => w <> [] /\ forallb is_lower w = true) rest ->
  property_pieces (map (fun w' : str => (("-" : str), w')) rest) = true
  /\ map (fun p : str * str => toLowerCase (snd p))
       (map (fun w' : str => (("-" : str), w')) rest)
     = rest.
Proof.
  induction 1 as [|w rest [Hne Hw] Hrest [IH1 IH2]]; [done|].
  cbn [map property_pieces snd]. rewrite IH1, IH2, (toLowerCase_lower w Hw).
  split; [|done]. rewrite andb_true_r.
  destruct w as [|c r]; [done|]. cbn [forallb] in Hw.
  apply andb_prop in Hw as [Hc Hr].
  cbn [is_property_word forallb]. rewrite (is_lower_is_letter c Hc), Hr.
  by destruct rest.
Qed.

Lemma join_cons_cons (sep x y : str) (l : list str) :
  join sep (x :: y :: l) = x ++ sep ++ join sep (y :: l).
Proof. reflexivity. Qed.

Lemma kebab_tail_text (w : str) (rest : list str) :
  w ++ pieces_text (map (fun w' : str => (("-" : str), w')) rest)
  = join "-" (w :: rest).
Proof.
  revert w. induction rest as [|w' rest IH]; intros w.
  - cbn. by rewrite app_nil_r.
  - cbn [map]. rewrite pieces_text_cons, join_cons_cons, <- IH.
    by rewrite <- !app_assoc.
Qed.

Lemma kebab_pieces_text (ws : list str) :
  pieces_text (kebab_pieces ws) = join "-" ws.
Proof.
  destruct ws as [|w rest]; [done|]. cbn [kebab_pieces].
  rewrite pieces_text_cons. cbn [app]. apply kebab_tail_text.
Qed.

Lemma toCSSPropertyName_kebab (ws : list str) :
  Forall (fun w => w <> [] /\ forallb is_lower w = true) ws ->
  toCSSPropertyName (join "-" ws) = join "-" ws.
Proof.
  intros Hws.
  assert (Hp : property_pieces (kebab_pieces ws) = true).
  { destruct Hws as [|w rest [Hne Hw] Hrest]; [done|].
    cbn [kebab_pieces property_pieces].
    destruct (kebab_tail_pieces rest Hrest) as [-> _].
    rewrite andb_true_r. cbn [forallb andb].
    destruct w as [|c r]; [done|]. cbn [forallb] in Hw.
    apply andb_prop in Hw as [Hc Hr].
    cbn [is_property_word]. rewrite (is_lower_is_letter c Hc), Hr.
    by destruct rest. }
  assert (Hm : map (fun p : str * str => toLowerCase (snd p))
                 (kebab_pieces ws) = ws).
  { destruct Hws as [|w rest [Hne Hw] Hrest]; [done|].
    cbn [kebab_pieces map snd].
    destruct (kebab_tail_pieces rest Hrest) as [_ ->].
    by rewrite (toLowerCase_lower w Hw). }
  pose proof (toCSSPropertyName_of_pieces (kebab_pieces ws) [] Hp eq_refl)
    as H.
  rewrite app_nil_r, kebab_pieces_text, Hm in H. exact H.
Qed.

(** X22: [toCSSPropertyName] changes nothing in what it returns: applied
    to its own result, it gives that result again. *)
Theorem toCSSPropertyName_idempotent (name : str) :
  toCSSPropertyName (toCSSPropertyName name) = toCSSPropertyName name.
Proof.
  unfold toCSSPropertyName at 2 3. apply toCSSPropertyName_kebab.
  apply property_words_lower.
Qed.

(** ** markish: [strip] *)

Lemma trimStart_head (s : str) (c : N) (u : str) :
  trimStart s = c :: u -> is_space c = false.
Proof.
  induction s as [|x s IH]; [done|]. cbn [trimStart].
  destruct (is_space x) eqn:Hx; [done|]. by intros [= <- <-].
Qed.

Lemma trimStart_snoc (l : str) (c : N) :
  is_space c = false -> trimStart (l ++ [c]) = trimStart l ++ [c].
Proof.
  intros Hc. induction l as [|x l IH]; cbn [app trimStart].
  - by rewrite Hc.
  - by destruct (is_space x).
Qed.

Lemma trimEnd_cons (c : N) (u : str) :
  is_space c = false -> trimEnd (c :: u) = c :: trimEnd u.
Proof.
  intros Hc. unfold trimEnd. cbn [rev].
  by rewrite (trimStart_snoc _ _ Hc), rev_app_distr.
Qed.

Lemma trimEnd_last (v : str) :
  trimEnd v = [] \/ exists r e, trimEnd v = r ++ [e] /\ is_space e = false.
Proof.
  unfold trimEnd. destruct (trimStart (rev v)) as [|e t] eqn:E; [by left|].
  right. exists (rev t), e. split; [done|]. by apply trimStart_head in E.
Qed.

(** The result of [trim] is empty, or begins and ends with characters
    that are not white space. *)
Lemma trim_cases (s : str) :
  trim s = []
  \/ exists c r e r', trim s = c :: r /\ trim s = r' ++ [e]
                      /\ is_space c = false /\ is_space e = false.
Proof.
  unfold trim. destruct (trimStart s) as [|c u] eqn:E; [by left|].
  apply trimStart_head in E. right. rewrite (trimEnd_cons c u E).
  destruct (trimEnd_last u) as [->|(r & e & -> & He)].
  - by exists c, [], c, [].
  - exists c, (r ++ [e]), e, (c :: r). done.
Qed.

Lemma trim_trim (s : str) : trim (trim s) = trim s.
Proof.
  destruct (trim_cases s) as [->|(c & r & e & r' & H1 & H2 & Hc & He)];
    [done|].
  by apply (trim_id _ c e r r').
Qed.

Lemma single_spaced_trimStart (r : str) (b b' : bool) :
  single_spaced r b = true -> single_spaced (trimStart r) b' = true.
Proof.
  revert b. induction r as [|c r IH]; intros b; [done|].
  cbn [single_spaced trimStart]. destruct (is_space c) eqn:Hc.
  - intros H. apply andb_prop in H as [_ H]. by apply (IH true).
  - cbn [single_spaced]. by rewrite Hc.
Qed.

Lemma single_spaced_prefix (a q : str) (b : bool) :
  single_spaced (a ++ q) b = true -> single_spaced a b = true.
Proof.
  revert b. induction a as [|c a IH]; intros b; [done|].
  cbn [app single_spaced]. destruct (is_space c).
  - intros H. apply andb_prop in H as [H1 H2]. by rewrite H1, (IH _ H2).
  - apply IH.
Qed.

Lemma trimStart_suffix (s : str) : exists p, s = p ++ trimStart s.
Proof.
  induction s as [|c s [p IH]]; [by exists []|]. cbn [trimStart].
  destruct (is_space c).
  - exists (c :: p). cbn [app]. by rewrite <- IH.
  - by exists [].
Qed.

Lemma trimEnd_prefix (s : str) : exists q, s = trimEnd s ++ q.
Proof.
  unfold trimEnd. destruct (trimStart_suffix (rev s)) as [p Hp].
  exists (rev p). rewrite <- rev_app_distr, <- Hp. by rewrite rev_involutive.
Qed.

Lemma single_spaced_trim (r : str) (b : bool) :
  single_spaced r b = true -> single_spaced (trim r) false = true.
Proof.
  intros H. unfold trim.
  pose proof (single_spaced_trimStart r b false H) as H1.
  destruct (trimEnd_prefix (trimStart r)) as [q Hq].
  rewrite Hq in H1. by apply single_spaced_prefix in H1.
Qed.

Lemma single_spaced_replace_spaces (s : str) (b : bool) :
  single_spaced (replace_spaces s b) b = true.
Proof.
  revert b. induction s as [|c s IH]; intros b; [done|].
  cbn [replace_spaces]. destruct (is_space c) eqn:Hc.
  - destruct b; [apply IH|]. cbn [single_spaced].
    change (is_space 32) with true. cbn. apply IH.
  - cbn [single_spaced]. rewrite Hc. apply IH.
Qed.

Lemma replace_spaces_single_spaced (r : str) (b : bool) :
  single_spaced r b = true -> replace_spaces r b = r.
Proof.
  revert b. induction r as [|c r IH]; intros b; [done|].
  cbn [single_spaced replace_spaces]. destruct (is_space c).
  - intros H. apply andb_prop in H as [H Hr].
    apply andb_prop in H as [Hc Hb]. apply negb_true_iff in Hb. subst b.
    apply N.eqb_eq in Hc. subst c. by rewrite (IH _ Hr).
  - intros H. by rewrite (IH _ H).
Qed.

(** X23: the text that [strip] returns has no white space but single
    spaces between other characters, none at either end, and [strip]
    leaves it as it is. *)
Theorem strip_normal_form (text : str) :
  single_spaced (strip text) false = true
  /\ trim (strip text) = strip text
  /\ strip (strip text) = strip text.
Proof.
  assert (Hs : single_spaced (strip text) false = true).
  { unfold strip. eapply single_spaced_trim.
    apply single_spaced_replace_spaces. }
  split; [exact Hs|]. split.
  - unfold strip. apply trim_trim.
  - unfold strip at 1. rewrite (replace_spaces_single_spaced _ _ Hs).
    unfold strip. apply trim_trim.
Qed.

(** ** HTML and XML serialization *)

Lemma element_chunks_html (o : Options) (name_ : str) (a : object str)
  (cs : list Node) (inner : list str) :
  has HTML_EMPTY name_ = false -> has HTML_NOEMPTY name_ = false ->
  element_chunks (with_html o) name_ a cs inner
  = element_chunks o name_ a cs inner.
Proof.
  intros He Hn. unfold element_chunks, html_empty.
  cbn [with_html opt_html]. rewrite He, Hn.
  destruct (opt_html o); cbn [andb]; by rewrite ?andb_false_r.
Qed.

Lemma iterXMLLines_html (o : Options) (n : Node) :
  no_html_names n = true ->
  iterXMLLines (with_html o) n = iterXMLLines o n.
Proof.
  assert (Hforest : forall cs,
             Forall (fun c => no_html_names c = true ->
                              iterXMLLines (with_html o) c
                              = iterXMLLines o c) cs ->
             forallb no_html_names cs = true ->
             map (iterXMLLines (with_html o)) cs
             = map (iterXMLLines o) cs).
  { intros cs Hcs Hall. induction Hcs as [|c cs Hc Hcs IH]; [done|].
    cbn [forallb] in Hall. apply andb_prop in Hall as [H1 H2].
    cbn [map]. by rewrite (Hc H1), (IH H2). }
  induction n as [cs IH|cs IH|name_ a cs IH|name_ a cs IH|d|d]
    using Node_induction; cbn [iterXMLLines no_html_names]; intros Hn.
  - by rewrite (Hforest cs IH Hn).
  - by rewrite (Hforest cs IH Hn).
  - apply andb_prop in Hn as [Hn Hcs]. apply andb_prop in Hn as [He Hne].
    apply negb_true_iff in He. apply negb_true_iff in Hne.
    rewrite (Hforest cs IH Hcs). by apply element_chunks_html.
  - apply andb_prop in Hn as [He Hne].
    apply negb_true_iff in He. apply negb_true_iff in Hne.
    by apply element_chunks_html.
  - done.
  - done.
Qed.

(** X24: [toHTML] and [toXML] write the same text for a tree in which no
    element has the name of a void element or the name [slot], in any of
    the three spellings that the tables hold. *)
Theorem toHTML_is_toXML_without_html_names (o : Options) (n : Node) :
  no_html_names n = true -> toHTML o n = toXML o n.
Proof.
  intros Hn. unfold toHTML, toXML, toXMLLines.
  by rewrite (iterXMLLines_html o n Hn).
Qed.

Lemma toHTML_is_toXML_without_html_names_witness :
  toHTML no_options round_trip_sample_tree
  = toXML no_options round_trip_sample_tree.
Proof.
  apply (toHTML_is_toXML_without_html_names no_options
           round_trip_sample_tree).
  vm_compute. reflexivity.
Defined.

(** ** Removing a namespaced attribute *)

Section remove_ns_facts.
Import DomMore.

Lemma obj_get_obj_update_eq {V : Type} (k : str) (v v0 : V)
  (o : object V) :
  obj_get k o = Some v0 -> obj_get k (obj_update k v o) = Some v.
Proof.
  induction o as [|[k' v'] o IH]; cbn [obj_get obj_update]; [done|].
  destruct (str_eqb k k') eqn:E; cbn [obj_get]; rewrite E; [done|].
  apply IH.
Qed.

Lemma obj_get_obj_update_ne {V : Type} (k k' : str) (v : V)
  (o : object V) :
  k' <> k -> obj_get k' (obj_update k v o) = obj_get k' o.
Proof.
  intros Hne. apply str_eqb_neq in Hne.
  induction o as [|[k1 v1] o IH]; cbn [obj_get obj_update]; [done|].
  destruct (str_eqb k k1) eqn:E; cbn [obj_get].
  - apply str_eqb_eq in E as <-. by rewrite Hne.
  - by rewrite IH.
Qed.

Lemma obj_get_map_delete_ne {V : Type} (k k' : str) (o : object V) :
  k' <> k -> obj_get k' (map_delete k o) = obj_get k' o.
Proof.
  intros Hne. apply str_eqb_neq in Hne.
  induction o as [|[k1 v1] o IH]; cbn [obj_get map_delete]; [done|].
  destruct (str_eqb k k1) eqn:E; cbn [obj_get].
  - apply str_eqb_eq in E as <-. by rewrite Hne.
  - by rewrite IH.
Qed.

(** X25: [removeAttributeNS(ns, name)] leaves [hasAttributeNS(ns, name)]
    false, and touches neither the attributes without a namespace nor any
    other namespaced attribute. *)
Theorem removeAttributeNS_removes (h : Store) (this : ref)
  (ns name : str) (w : Object) (e : ElementFields) :
  h !! this = Some w -> element w = Some e ->
  exists h',
    removeAttributeNS h this ns name = Some h'
    /\ hasAttributeNS h' this ns name = Some false
    /\ (forall name', hasAttribute h' this name' = hasAttribute h this name')
    /\ (forall ns' name', ns' <> ns \/ name' <> name ->
          hasAttributeNS h' this ns' name'
          = hasAttributeNS h this ns' name').
Proof.
  intros Hw He. unfold removeAttributeNS. rewrite Hw.
  cbn [mbind option_bind]. rewrite He. cbn [mbind option_bind].
  destruct (obj_get ns (e_attributesNS e)) as [m|] eqn:Hm.
  - eexists. split; [reflexivity|].
    unfold hasAttributeNS, hasAttribute, getAttributeNodeNS.
    rewrite lookup_insert_eq, Hw. cbn [mbind option_bind set_element element].
    rewrite He. cbn [mbind option_bind e_attributesNS e_attributes].
    rewrite (obj_get_obj_update_eq _ _ _ _ Hm), obj_get_map_delete.
    split; [by rewrite bool_decide_eq_false_2 by (by intros [? ?])|].
    split; [done|].
    intros ns' name' Hne. f_equal.
    destruct (decide (ns' = ns)) as [->|Hns].
    + destruct Hne as [|Hname]; [done|].
      rewrite (obj_get_obj_update_eq _ _ _ _ Hm), Hm.
      by rewrite (obj_get_map_delete_ne _ _ _ Hname).
    + by rewrite (obj_get_obj_update_ne _ _ _ _ Hns).
  - exists h. split; [done|].
    unfold hasAttributeNS, hasAttribute, getAttributeNodeNS.
    rewrite Hw. cbn [mbind option_bind]. rewrite He.
    cbn [mbind option_bind]. rewrite Hm. done.
Qed.

Lemma removeAttributeNS_removes_witness :
  exists h',
    removeAttributeNS xlink_store 0 XLINK "href" = Some h'
    /\ hasAttributeNS h' 0 XLINK "href" = Some false
    /\ (forall name', hasAttribute h' 0 name'
                      = hasAttribute xlink_store 0 name')
    /\ (forall ns' name', ns' <> XLINK \/ name' <> ("href" : str) ->
          hasAttributeNS h' 0 ns' name'
          = hasAttributeNS xlink_store 0 ns' name').
Proof.
  apply (removeAttributeNS_removes xlink_store 0 XLINK "href"
           (default (new_Element "a") (xlink_store !! 0))
           (default {| e_namespace := None; e_style := [];
                       e_attributes := []; e_attributesNS := [];
                       e_content := None |}
              (xlink_store !! 0 ≫= element)));
    vm_compute; reflexivity.
Defined.

End remove_ns_facts.

(** ** The tokenizer gives the whole text *)

Lemma substring_nat (s : str) (a b : nat) :
  a <= b -> b <= length s ->
  substring s (Z.of_nat a) (Z.of_nat b) = take (b - a) (drop a s).
Proof. apply substring_take_drop. Qed.

Lemma rawtext_range (text : str) (a b : nat) :
  a <= b -> b <= length text ->
  rawtext {| source := text; f_start := Z.of_nat a; f_end := Z.of_nat b |}
  = take (b - a) (drop a text).
Proof. intros Ha Hb. unfold rawtext. cbn. by apply substring_take_drop. Qed.

(** The three slices that the tokenizer takes of a comment, a CDATA
    section or a DOCTYPE: the first [k] characters, the last [m], and
    what is between them. *)
Lemma slices_partition (text : str) (s len k m : nat) :
  0 < k -> 0 < m -> k + m <= len -> s + len <= length text ->
  let f := {| source := text; f_start := Z.of_nat s;
              f_end := Z.of_nat (s + len) |} in
  rawtext (slice f 0 (Some (Z.of_nat k)))
  ++ rawtext (slice f (Z.of_nat k) (Some (- Z.of_nat m)%Z))
  ++ rawtext (slice f (- Z.of_nat m)%Z None)
  = take len (drop s text).
Proof.
  intros Hk Hm Hlen Htext f.
  assert (H1 : slice f 0 (Some (Z.of_nat k))
               = {| source := text; f_start := Z.of_nat s;
                    f_end := Z.of_nat (s + k) |}).
  { unfold slice, f. cbn [source f_start f_end].
    replace (0 <=? 0)%Z with true by done.
    replace (Z.of_nat k =? 0)%Z with false by (symmetry; apply Z.eqb_neq; lia).
    replace (0 <=? Z.of_nat k)%Z with true by (symmetry; apply Z.leb_le; lia).
    cbn [negb andb]. f_equal; lia. }
  assert (H2 : slice f (Z.of_nat k) (Some (- Z.of_nat m)%Z)
               = {| source := text; f_start := Z.of_nat (s + k);
                    f_end := Z.of_nat (s + len - m) |}).
  { unfold slice, f. cbn [source f_start f_end].
    replace (0 <=? Z.of_nat k)%Z with true by (symmetry; apply Z.leb_le; lia).
    replace (0 <=? - Z.of_nat m)%Z with false
      by (symmetry; apply Z.leb_gt; lia).
    rewrite andb_false_r. f_equal; lia. }
  assert (H3 : slice f (- Z.of_nat m)%Z None
               = {| source := text; f_start := Z.of_nat (s + len - m);
                    f_end := Z.of_nat (s + len) |}).
  { unfold slice, f. cbn [source f_start f_end].
    replace (0 <=? - Z.of_nat m)%Z with false
      by (symmetry; apply Z.leb_gt; lia).
    f_equal; lia. }
  rewrite H1, H2, H3. rewrite !rawtext_range by lia.
  replace (s + k - s) with k by lia.
  replace (s + len - m - (s + k)) with (len - m - k) by lia.
  replace (s + len - (s + len - m)) with m by lia.
  set (u := drop s text).
  replace (drop (s + k) text) with (drop k u) by (unfold u; by rewrite drop_drop).
  replace (drop (s + len - m) text) with (drop (len - m) u)
    by (unfold u; rewrite drop_drop; f_equal; lia).
  rewrite app_assoc, take_take_drop.
  replace (k + (len - m - k)) with (len - m) by lia.
  rewrite take_take_drop. f_equal. lia.
Qed.

Lemma match_DOCTYPE_groups (s : str) (len : nat) (g : TagGroups) :
  match_DOCTYPE s = Some (len, g) ->
  12 <= len /\ g_CDATA g = None /\ g_COMMENT g = None.
Proof.
  unfold match_DOCTYPE. destruct (starts_with _ s); [|done].
  set (r := drop 9 s). set (x := span _ r).
  destruct x as [|w [|w' x']] eqn:Hx; [done..|].
  destruct (is_space w); [|done].
  destruct (drop (length (w :: w' :: x')) r) as [|a [|b [|c rest]]];
    [done..| |].
  - destruct (_ && _); [|done]. intros [= <- <-]. cbn. split; [lia | done].
  - destruct (_ && _ && _); [intros [= <- <-]; cbn; split; [lia | done]|].
    destruct (_ && _); [|done]. intros [= <- <-]. cbn. split; [lia | done].
Qed.

Lemma match_COMMENT_groups (s : str) (len : nat) (g : TagGroups) :
  match_COMMENT s = Some (len, g) ->
  7 <= len /\ g_CDATA g = None /\ g_DOCTYPE g = None.
Proof.
  unfold match_COMMENT.
  destruct (match_delimited _ _ s) as [l|] eqn:H; [|done].
  intros [= <- <-]. apply match_delimited_length in H. cbn in *.
  split; [lia | done].
Qed.

Lemma match_CDATA_groups (s : str) (len : nat) (g : TagGroups) :
  match_CDATA s = Some (len, g) ->
  12 <= len /\ g_DOCTYPE g = None /\ g_COMMENT g = None.
Proof.
  unfold match_CDATA.
  destruct (match_delimited _ _ s) as [l|] eqn:H; [|done].
  intros [= <- <-]. apply match_delimited_length in H. cbn in *.
  split; [lia | done].
Qed.

Lemma match_tag_groups (s : str) (len : nat) (g : TagGroups) :
  match_tag s = Some (len, g) ->
  g_CDATA g = None /\ g_DOCTYPE g = None /\ g_COMMENT g = None.
Proof.
  unfold match_tag. destruct s as [|lt r0]; [done|].
  destruct (chr_eqb lt _); [|done].
  destruct (match_qualname _) as [[[ns nm] k]|]; [|done].
  destruct (match_tag_end _) as [[attrs e]|]; [|done].
  by intros [= <- <-].
Qed.

(** A match with a truthy group [CDATA], [DOCTYPE] or [COMMENT] is long
    enough for the three slices that the tokenizer takes of it. *)
Lemma RE_TAG_groups (s : str) (len : nat) (g : TagGroups) :
  RE_TAG s = Some (len, g) ->
  (truthy (g_CDATA g) = true -> 12 <= len)
  /\ (truthy (g_DOCTYPE g) = true -> 12 <= len)
  /\ (truthy (g_COMMENT g) = true -> 7 <= len).
Proof.
  unfold RE_TAG.
  destruct (match_DOCTYPE s) as [[l1 g1]|] eqn:H1.
  { intros [= <- <-].
    apply match_DOCTYPE_groups in H1 as (Hl & -> & ->). done. }
  destruct (match_COMMENT s) as [[l2 g2]|] eqn:H2.
  { intros [= <- <-].
    apply match_COMMENT_groups in H2 as (Hl & -> & ->). done. }
  destruct (match_CDATA s) as [[l3 g3]|] eqn:H3.
  { intros [= <- <-].
    apply match_CDATA_groups in H3 as (Hl & -> & ->). done. }
  intros H. apply match_tag_groups in H as (-> & -> & ->). done.
Qed.

Lemma concat_single (x : str) : concat [x] = x.
Proof. cbn. apply app_nil_r. Qed.

(** The markers of a match: their texts make up the match. *)
Lemma markers_of_matched_cover (text : str) (m : RegExpExecArray)
  (ms : list Marker) :
  is_match text m ->
  markers_of (matched_fragment text m) = Some ms ->
  concat (map marker_text ms) = m0 m.
Proof.
  intros (Hre & Hm0 & Hlen).
  destruct (RE_TAG_groups _ _ _ Hre) as (Hcdata & Hdoctype & Hcomment).
  assert (Hwhole : rawtext (mf_fragment (matched_fragment text m)) = m0 m).
  { unfold matched_fragment. cbn [mf_fragment].
    rewrite rawtext_range by lia. rewrite Hm0 at 2. f_equal. lia. }
  assert (Hslices : forall k e : nat, 0 < k -> 0 < e ->
             k + e <= length (m0 m) ->
             concat (map marker_text
               [mk_marker Start
                  (slice (mf_fragment (matched_fragment text m)) 0
                     (Some (Z.of_nat k))) None [];
                mk_marker Content
                  (slice (mf_fragment (matched_fragment text m))
                     (Z.of_nat k) (Some (- Z.of_nat e)%Z)) None [];
                mk_marker End_
                  (slice (mf_fragment (matched_fragment text m))
                     (- Z.of_nat e)%Z None) None []])
             = m0 m).
  { intros k e Hk He Hke. cbn [map concat]. unfold marker_text.
    cbn [mk_marker fragment]. rewrite app_nil_r.
    unfold matched_fragment. cbn [mf_fragment].
    rewrite (slices_partition text (index m) (length (m0 m)) k e) by lia.
    by rewrite <- Hm0. }
  unfold markers_of. cbn [matched_fragment mf_match mf_fragment].
  destruct (truthy (g_CDATA (groups m))) eqn:E1.
  { intros [= <-]. specialize (Hcdata eq_refl).
    apply (Hslices 9 3); lia. }
  destruct (truthy (g_DOCTYPE (groups m))) eqn:E2.
  { intros [= <-]. specialize (Hdoctype eq_refl).
    apply (Hslices 10 2); lia. }
  destruct (truthy (g_COMMENT (groups m))) eqn:E3.
  { intros [= <-]. specialize (Hcomment eq_refl).
    apply (Hslices 4 3); lia. }
  destruct (if truthy (g_attrs (groups m)) then _ else _) as [attrs|];
    [|done].
  destruct (truthy (g_closing (groups m)));
    [|destruct (ends_with _ _)]; intros [= <-];
    cbn [map]; rewrite concat_single; exact Hwhole.
Qed.

Lemma RE_TAG_exec_is_match (text : str) (lastIndex lastIndex' : nat)
  (m : RegExpExecArray) :
  RE_TAG_exec text lastIndex = (Some m, lastIndex') ->
  is_match text m /\ lastIndex <= index m
  /\ lastIndex' = index m + length (m0 m) /\ 2 <= length (m0 m).
Proof.
  unfold RE_TAG_exec, exec.
  destruct (length text <? lastIndex) eqn:Hlt; [done|].
  apply Nat.ltb_ge in Hlt.
  destruct (scan RE_TAG _ _) as [[[i len] g]|] eqn:Hscan; [|done].
  intros [= <- <-]. cbn [index m0 groups].
  apply scan_Some in Hscan as (j & -> & Hj & Hpat).
  rewrite drop_drop in Hpat.
  pose proof (RE_TAG_length _ _ _ Hpat) as Hl. rewrite length_drop in *.
  assert (Htake : length (take len (drop (lastIndex + j) text)) = len)
    by (rewrite length_take, length_drop; lia).
  unfold is_match. cbn [index m0 groups]. rewrite Htake.
  split; [split; [done | split; [done | lia]]|]. lia.
Qed.

Lemma unmatched_text (text : str) (a b : nat) :
  a <= b -> b <= length text ->
  markers_of (unmatched_fragment text a b)
  = Some [mk_marker Content (mf_fragment (unmatched_fragment text a b))
            None []]
  /\ rawtext (mf_fragment (unmatched_fragment text a b))
     = take (b - a) (drop a text).
Proof.
  intros Ha Hb. split; [done|].
  unfold unmatched_fragment. cbn [mf_fragment]. by apply rawtext_range.
Qed.

(** What the consumer of [iterMarkers] gets from a state on: the texts of
    the markers make up the text that is left. *)
Lemma drains_cover (text : str) (g : MarkerGen) (lastIndex : nat)
  (ms : list Marker) (lastIndex' : nat) :
  drains text g lastIndex ms lastIndex' ->
  generator_ok text g lastIndex ->
  concat (map marker_text ms)
  = concat (map marker_text (mg_queue g)) ++ tail_text text g.
Proof.
  induction 1 as [g L g' L' Hdone|g L mk g' L1 ms L' Hnext Hrest IH];
    intros Hok.
  - (* the end of the sequence *)
    unfold iterMarkers_next in Hdone.
    destruct (mg_queue g) as [|m q]; [|done].
    unfold tail_text. cbn [map concat app].
    destruct (mg_inner g) as [offset|m offset|] eqn:Hinner; [| |done].
    + destruct text as [|c r]; [by rewrite drop_nil|].
      rewrite IterMatches_next_AtLoop in Hdone by done.
      destruct (RE_TAG_exec (c :: r) L) as [[m|] L2] eqn:Hexec.
      * destruct (negb (offset =? index m)); [done|].
        pose proof (markers_of_nonempty (matched_fragment (c :: r) m)).
        by destruct (markers_of (matched_fragment (c :: r) m)) as [[|? ?]|].
      * destruct (offset <? length (c :: r)) eqn:Hlt; [done|].
        apply Nat.ltb_ge in Hlt. by rewrite drop_ge.
    + cbn [IterMatches_next] in Hdone.
      pose proof (markers_of_nonempty (matched_fragment text m)).
      by destruct (markers_of (matched_fragment text m)) as [[|? ?]|].
  - (* one more marker *)
    unfold iterMarkers_next in Hnext.
    destruct (mg_queue g) as [|m q] eqn:Hq.
    2:{ injection Hnext as <- <- <-.
        assert (Hok' : generator_ok text
                         {| mg_queue := q; mg_inner := mg_inner g |} L).
        { unfold generator_ok in *. cbn [mg_inner mg_queue].
          destruct (mg_inner g); [done | | done].
          destruct Hok as [Hnil _]. congruence. }
        cbn [map concat]. rewrite (IH Hok').
        cbn [mg_queue]. unfold tail_text. cbn [mg_inner].
        by rewrite <- app_assoc. }
    cbn [map concat app]. unfold generator_ok in Hok.
    unfold tail_text.
    destruct (mg_inner g) as [offset|m offset|] eqn:Hinner; [| |done].
    + destruct text as [|c r]; [done|]. set (text := c :: r) in *.
      rewrite IterMatches_next_AtLoop in Hnext by done.
      destruct (RE_TAG_exec text L) as [[m|] L2] eqn:Hexec.
      * apply RE_TAG_exec_is_match in Hexec as (Hm & Hle & -> & Hlen).
        pose proof Hm as (_ & Hm0 & Hfit).
        destruct (offset =? index m) eqn:Heq; cbn [negb] in Hnext.
        -- apply Nat.eqb_eq in Heq. subst offset.
           destruct (markers_of (matched_fragment text m)) as [[|mk' q]|]
             eqn:Hmarkers; [done| |done].
           injection Hnext as <- <- <-.
           rewrite IH.
           2:{ unfold generator_ok. cbn [mg_inner]. lia. }
           cbn [mg_queue]. unfold tail_text. cbn [mg_inner].
           pose proof (markers_of_matched_cover _ _ _ Hm Hmarkers) as Hcover.
           cbn [map concat] in Hcover. rewrite app_assoc, Hcover.
           replace (Nat.max (index m + 1) (index m + length (m0 m)))
             with (index m + length (m0 m)) by lia.
           rewrite Hm0 at 1. rewrite <- drop_drop. apply take_drop.
        -- apply Nat.eqb_neq in Heq.
           destruct (unmatched_text text offset (index m)) as [Hmk Htext];
             [lia | lia |].
           rewrite Hmk in Hnext. injection Hnext as <- <- <-.
           rewrite IH.
           2:{ unfold generator_ok. cbn [mg_inner mg_queue].
               split; [done|]. split; [done|]. lia. }
           cbn [mg_queue map concat app]. unfold tail_text. cbn [mg_inner].
           unfold marker_text. cbn [mk_marker fragment].
           rewrite rawtext_range by lia.
           replace (index m) with (offset + (index m - offset)) at 2 by lia.
           rewrite <- drop_drop. apply take_drop.
      * destruct (offset <? length text) eqn:Hlt; [|done].
        apply Nat.ltb_lt in Hlt.
        destruct (unmatched_text text offset (length text)) as [Hmk Htext];
          [lia | lia |].
        rewrite Hmk in Hnext. injection Hnext as <- <- <-.
        rewrite IH by done.
        cbn [mg_queue map concat app]. unfold tail_text. cbn [mg_inner].
        unfold marker_text. cbn [mk_marker fragment].
        rewrite app_nil_r. etransitivity; [exact Htext|].
        apply take_ge. rewrite length_drop. lia.
    + destruct Hok as (_ & Hm & Hle & ->).
      pose proof Hm as (_ & Hm0 & Hfit).
      pose proof (RE_TAG_length _ _ _ (proj1 Hm)) as [Hlen _].
      cbn [IterMatches_next] in Hnext.
      destruct (markers_of (matched_fragment text m)) as [[|mk' q]|]
        eqn:Hmarkers; [done| |done].
      injection Hnext as <- <- <-.
      rewrite IH.
      2:{ unfold generator_ok. cbn [mg_inner]. lia. }
      cbn [mg_queue]. unfold tail_text. cbn [mg_inner].
      pose proof (markers_of_matched_cover _ _ _ Hm Hmarkers) as Hcover.
      cbn [map concat] in Hcover. rewrite app_assoc, Hcover.
      replace (Nat.max (offset + 1) (index m + length (m0 m)))
        with (index m + length (m0 m)) by lia.
      rewrite Hm0 at 1. rewrite <- drop_drop. apply take_drop.
Qed.

(** X26: the tokenizer drops no character: when [iterMarkers] reaches the
    end of its sequence, the texts of the markers it has given, in order,
    make up the input text, whatever the state of the pattern was at the
    start. *)
Theorem iterMarkers_gives_the_whole_text (text : str) (k : nat)
  (ms : list Marker) (li : nat) :
  drains text iterMarkers_start k ms li ->
  concat (map marker_text ms) = text.
Proof.
  intros H. apply drains_cover in H.
  - by rewrite H.
  - unfold generator_ok. cbn. lia.
Qed.

Lemma iterMarkers_gives_the_whole_text_witness :
  exists ms,
    drains comment_markup iterMarkers_start 0 ms 0
    /\ concat (map marker_text ms) = comment_markup.
Proof.
  assert (H : exists ms, drains comment_markup iterMarkers_start 0 ms 0).
  { eexists.
    repeat (eapply drains_yield; [vm_compute; reflexivity|]).
    eapply drains_done. vm_compute. reflexivity. }
  destruct H as [ms H]. exists ms. split; [exact H|].
  exact (iterMarkers_gives_the_whole_text comment_markup 0 ms 0 H).
Defined.

(** ** Attribute names without a value *)

Lemma bare_name_facts (w : str) :
  bare_name w = true ->
  w <> [] /\ forallb (fun c => negb (is_attr_sep c)) w = true
  /\ forallb (fun c => negb (is_space c)) w = true
  /\ forallb (fun c => negb (chr_eqb " "%char c)) w = true.
Proof.
  unfold bare_name. intros H. apply andb_prop in H as [H _].
  apply andb_prop in H as [Hne Hsep].
  apply negb_true_iff, str_eqb_neq in Hne.
  split; [done|]. split; [done|].
  split; apply forallb_forall; intros c Hc;
    apply (proj1 (forallb_forall _ _) Hsep) in Hc;
    apply negb_true_iff in Hc; apply negb_true_iff;
    unfold is_attr_sep in Hc; apply orb_false_elim in Hc as [_ Hc].
  - done.
  - destruct (chr_eqb " "%char c) eqn:E; [|done].
    apply N.eqb_eq in E. by subst c.
Qed.

Lemma join_words_ends (ws : list str) :
  ws <> [] -> forallb bare_name ws = true ->
  (exists c r, join " " ws = c :: r /\ is_space c = false)
  /\ (exists r e, join " " ws = r ++ [e] /\ is_space e = false).
Proof.
  induction ws as [|w ws IH]; [done|]. intros _ Hall.
  cbn [forallb] in Hall. apply andb_prop in Hall as [Hw Hws].
  destruct (bare_name_facts w Hw) as (Hne & _ & Hsp & _).
  assert (Hhead : exists c r, w = c :: r /\ is_space c = false).
  { destruct w as [|c r]; [done|]. exists c, r. split; [done|].
    cbn [forallb] in Hsp. apply andb_prop in Hsp as [Hc _].
    by apply negb_true_iff in Hc. }
  assert (Hlast : exists r e, w = r ++ [e] /\ is_space e = false).
  { destruct w as [|e r] using rev_ind; [done|]. exists r, e.
    split; [done|]. rewrite forallb_app in Hsp.
    apply andb_prop in Hsp as [_ He]. cbn [forallb] in He.
    apply andb_prop in He as [He _]. by apply negb_true_iff in He. }
  destruct ws as [|w' ws'].
  - done.
  - rewrite join_cons_cons.
    destruct (IH ltac:(done) Hws) as [_ (r2 & e2 & -> & He2)].
    destruct Hhead as (c & r & -> & Hc). split.
    + by exists c, (r ++ (" " : str) ++ r2 ++ [e2]).
    + exists ((c :: r) ++ (" " : str) ++ r2), e2. split; [|done].
      by rewrite <- !app_assoc.
Qed.

Lemma trim_join_words (ws : list str) :
  ws <> [] -> forallb bare_name ws = true ->
  trim (join " " ws) = join " " ws.
Proof.
  intros Hne Hall.
  destruct (join_words_ends ws Hne Hall)
    as [(c & r & H1 & Hc) (r' & e & H2 & He)].
  by apply (trim_id _ c e r r').
Qed.

(** The last name of the text. *)
Lemma parseAttributes_last_name (w : str) (acc : attr_map) (fuel : nat) :
  bare_name w = true ->
  parseAttributes (S fuel) w acc = Some (obj_set w None acc).
Proof.
  intros Hw. destruct (bare_name_facts w Hw) as (Hne & Hsep & Hsp & Hblank).
  assert (Hmatch : RE_ATTR_SEP_match w = None).
  { unfold RE_ATTR_SEP_match. by rewrite (find_first_none _ _ Hsep). }
  assert (Hidx : indexOf w " "%char 0 = (-1)%Z).
  { unfold indexOf, clamp.
    replace (Z.to_nat (Z.min (Z.max 0 0) (Z.of_nat (length w)))) with 0
      by lia.
    by rewrite drop_0, (find_first_none _ _ Hblank). }
  assert (Hset : set_named (trim w) None acc = obj_set w None acc).
  { rewrite (trim_nospace _ Hsp). unfold set_named. by destruct w. }
  destruct w as [|c r]; [done|].
  cbn [parseAttributes]. rewrite Hmatch, Hidx. cbn [Z.eqb Pos.eqb].
  by rewrite Hset.
Qed.

(** A name followed by a space and more text. *)
Lemma parseAttributes_name_step (w R : str) (acc : attr_map) (fuel : nat) :
  bare_name w = true ->
  parseAttributes (S fuel) (w ++ 32%N :: R) acc
  = parseAttributes fuel (trim R) (obj_set w None acc).
Proof.
  intros Hw. destruct (bare_name_facts w Hw) as (Hne & Hsep & Hsp & _).
  set (text := w ++ 32%N :: R).
  assert (Hlen : length text = length w + 1 + length R).
  { unfold text. rewrite length_app. simpl. lia. }
  assert (Hmatch : RE_ATTR_SEP_match text = Some (length w, 32%N)).
  { unfold RE_ATTR_SEP_match, text.
    rewrite (find_first_app_hit is_attr_sep w _ 32%N Hsep eq_refl).
    by rewrite lookup_app_at. }
  assert (Hname : trim (substring text 0 (Z.of_nat (length w))) = w).
  { change 0%Z with (Z.of_nat 0).
    rewrite (substring_take_drop text 0 (length w)) by lia.
    rewrite drop_0, Nat.sub_0_r. unfold text. rewrite take_app_length.
    by apply trim_nospace. }
  assert (Hnext : substring_from text (Z.of_nat (length w) + 1) = R).
  { replace (Z.of_nat (length w) + 1)%Z with (Z.of_nat (length w + 1))
      by lia.
    rewrite substring_from_drop by lia.
    unfold text. rewrite drop_app_ge by lia.
    by replace (length w + 1 - length w) with 1 by lia. }
  clearbody text. destruct text as [|c t]; [simpl in Hlen; lia|].
  cbn [parseAttributes]. rewrite Hmatch.
  change (chr_eqb 32%N "="%char) with false. cbv iota.
  rewrite Hname, Hnext. unfold set_named.
  by destruct w.
Qed.

Lemma parseAttributes_names (ws : list str) :
  forall acc fuel,
    ws <> [] -> forallb bare_name ws = true -> length ws <= fuel ->
    parseAttributes fuel (join " " ws) acc
    = Some (fold_left (fun m w => obj_set w None m) ws acc).
Proof.
  induction ws as [|w ws IH]; [done|]. intros acc fuel _ Hall Hfuel.
  cbn [forallb] in Hall. apply andb_prop in Hall as [Hw Hws].
  destruct fuel as [|fuel]; [simpl in Hfuel; lia|].
  destruct ws as [|w' ws'].
  - cbn [join fold_left]. by apply parseAttributes_last_name.
  - rewrite join_cons_cons. change ((" " : str) ++ ?x) with (32%N :: x).
    rewrite (parseAttributes_name_step w _ acc fuel Hw).
    rewrite (trim_join_words (w' :: ws') ltac:(done) Hws).
    cbn [fold_left]. apply IH; [done | done |]. simpl in *. lia.
Qed.

(** X27: attribute names without values: for names of one character or
    more without [=] and white space, other than [__proto__],
    [parseAttributes] of the names
    separated by single spaces, after the space that follows the tag
    name, returns, with every name bound to [null], in the order in which
    an object lists its keys. *)
Theorem parseAttributes_bare_names (ws : list str) :
  forallb bare_name ws = true ->
  parseAttributes_run ((" " : str) ++ join " " ws) []
  = Some (fold_left (fun m w => obj_set w None m) ws []).
Proof.
  intros Hall. unfold parseAttributes_run.
  change ((" " : str) ++ ?x) with (32%N :: x). cbn [length].
  rewrite parseAttributes_leading_space.
  destruct ws as [|w ws'] eqn:E; [done|]. rewrite <- E in *.
  assert (Hne : ws <> []) by (by rewrite E).
  rewrite (trim_join_words ws Hne Hall).
  apply parseAttributes_names; [done | done |].
  clear E. assert (Hlen : length ws <= length (join " " ws)); [|lia].
  clear Hne. induction ws as [|x ws IH]; [done|].
  cbn [forallb] in Hall. apply andb_prop in Hall as [Hx Hws].
  destruct (bare_name_facts x Hx) as (Hxne & _).
  destruct ws as [|y ws].
  - destruct x; [done | simpl; lia].
  - rewrite join_cons_cons, !length_app. specialize (IH Hws).
    simpl in *. lia.
Qed.

Lemma parseAttributes_bare_names_witness :
  parseAttributes_run
    ((" " : str) ++ join " " [("disabled" : str); ("checked" : str)]) []
  = Some (fold_left (fun m w => obj_set w None m)
            [("disabled" : str); ("checked" : str)] []).
Proof.
  apply (parseAttributes_bare_names [("disabled" : str); ("checked" : str)]).
  vm_compute. reflexivity.
Defined.

(** ** Template elements *)

Section template_facts.
Import DomMore.

(** X28: [appendChild(node)] on a template element, for a node that is
    not a fragment and has no parent, adds the node to the content
    fragment of the template: the template gets no child, and the parent
    of the node is the fragment, not the template. *)
Theorem appendChild_template_content (fuel : nat) (h : Store)
  (A F N : ref) (a f n : Object) :
  h !! A = Some a -> template_content a = Some F ->
  h !! F = Some f -> template_content f = None ->
  h !! N = Some n -> nodeType n <> DOCUMENT_FRAGMENT_NODE ->
  parentNode n = None ->
  exists h' a' f' n',
    appendChild (S (S fuel)) h A N = Ok A h'
    /\ h' !! A = Some a' /\ childNodes a' = childNodes a
    /\ h' !! F = Some f' /\ childNodes f' = childNodes f ++ [N]
    /\ h' !! N = Some n' /\ parentNode n' = Some F.
Proof.
  intros HA Htpl HF HtplF HN Hfrag Hpar.
  assert (HAF : A <> F).
  { intros ->. rewrite HA in HF. injection HF as <-. congruence. }
  cbn [appendChild]. rewrite HA, HN, Htpl, HF, HtplF.
  destruct (N.eqb_spec (nodeType n) DOCUMENT_FRAGMENT_NODE) as [|_]; [done|].
  unfold append_node. rewrite HN. cbn [mbind option_bind]. rewrite Hpar.
  cbn [mbind option_bind]. rewrite HF. cbn [mbind option_bind].
  set (h2 := <[F := set_childNodes (childNodes f ++ [N]) f]> h).
  assert (Hn2 : exists n2, h2 !! N = Some n2
                  /\ (N = F -> childNodes n2 = childNodes f ++ [N])
                  /\ (N <> F -> n2 = n)).
  { destruct (decide (N = F)) as [->|Hne].
    - eexists. unfold h2. rewrite lookup_insert_eq. done.
    - exists n. unfold h2. by rewrite lookup_insert_ne. }
  destruct Hn2 as (n2 & Hn2 & HnF & HnN). rewrite Hn2.
  cbn [mbind option_bind].
  set (h' := <[N := set_parentNode (Some F) n2]> h2).
  assert (HA' : exists a', h' !! A = Some a'
                  /\ childNodes a' = childNodes a).
  { destruct (decide (A = N)) as [->|Hne].
    - eexists. unfold h'. rewrite lookup_insert_eq. split; [done|].
      cbn [set_parentNode childNodes]. rewrite (HnN ltac:(done)).
      rewrite HA in HN. by injection HN as <-.
    - exists a. unfold h', h2. by rewrite !lookup_insert_ne. }
  assert (HF' : exists f', h' !! F = Some f'
                  /\ childNodes f' = childNodes f ++ [N]).
  { destruct (decide (F = N)) as [Heq|Hne].
    - eexists. unfold h'. rewrite Heq at 1. rewrite lookup_insert_eq.
      split; [done|]. cbn [set_parentNode childNodes]. by apply HnF.
    - eexists. unfold h', h2. rewrite lookup_insert_ne by done.
      rewrite lookup_insert_eq. done. }
  destruct HA' as (a' & HA' & Hca). destruct HF' as (f' & HF' & Hcf).
  exists h', a', f', (set_parentNode (Some F) n2).
  split; [done|]. split; [done|]. split; [done|]. split; [done|].
  split; [done|]. split; [apply lookup_insert_eq | done].
Qed.

Lemma appendChild_template_content_witness :
  exists h' a' f' n',
    appendChild 2 template_store 0 2 = Ok 0 h'
    /\ h' !! 0 = Some a' /\ childNodes a' = []
    /\ h' !! 1 = Some f' /\ childNodes f' = [] ++ [2]
    /\ h' !! 2 = Some n' /\ parentNode n' = Some 1.
Proof.
  apply (appendChild_template_content 0 template_store 0 1 2
           (set_element
              {| e_namespace := None; e_style := []; e_attributes := [];
                 e_attributesNS := []; e_content := Some 1 |}
              (new_Node "template" ELEMENT_NODE))
           (new_Node "document-fragment" DOCUMENT_FRAGMENT_NODE)
           (new_Node "p" ELEMENT_NODE));
    try reflexivity.
  discriminate.
Defined.

End template_facts.

(** ** markish: [markdown] *)

Lemma newline_runs_mono (s : str) (r1 r2 : nat) :
  r1 <= r2 -> newline_runs s r2 = true -> newline_runs s r1 = true.
Proof.
  revert r1 r2. induction s as [|c s IH]; intros r1 r2 Hle; [done|].
  cbn [newline_runs]. destruct (chr_eqb c LF); [|done].
  intros H. apply andb_prop in H as [Hr Hs]. apply Nat.ltb_lt in Hr.
  apply andb_true_intro. split; [apply Nat.ltb_lt; lia|].
  apply (IH (S r1) (S r2)); [lia | done].
Qed.

Lemma newline_runs_collapse (s : str) (run : nat) :
  newline_runs (collapse_newlines s run) run = true.
Proof.
  revert run. induction s as [|c s IH]; intros run; [done|].
  cbn [collapse_newlines]. destruct (chr_eqb c LF) eqn:Hc.
  - destruct (run <? 2) eqn:Hrun.
    + cbn [newline_runs]. by rewrite Hc, Hrun, IH.
    + apply (newline_runs_mono _ run (S run)); [lia | apply IH].
  - cbn [newline_runs]. by rewrite Hc, IH.
Qed.

Lemma newline_runs_suffix (p s : str) (run : nat) :
  newline_runs (p ++ s) run = true -> newline_runs s 0 = true.
Proof.
  revert run. induction p as [|c p IH]; intros run; cbn [app].
  - apply newline_runs_mono. lia.
  - cbn [newline_runs]. destruct (chr_eqb c LF).
    + intros H. apply andb_prop in H as [_ H]. by apply IH in H.
    + apply IH.
Qed.

Lemma newline_runs_prefix (s q : str) (run : nat) :
  newline_runs (s ++ q) run = true -> newline_runs s run = true.
Proof.
  revert run. induction s as [|c s IH]; intros run; [done|].
  cbn [app newline_runs]. destruct (chr_eqb c LF).
  - intros H. apply andb_prop in H as [H1 H2]. by rewrite H1, (IH _ H2).
  - apply IH.
Qed.

Lemma newline_runs_trim (s : str) :
  newline_runs s 0 = true -> newline_runs (trim s) 0 = true.
Proof.
  intros H. unfold trim.
  destruct (trimStart_suffix s) as [p Hp].
  rewrite Hp in H. apply newline_runs_suffix in H.
  destruct (trimEnd_prefix (trimStart s)) as [q Hq].
  rewrite Hq in H. by apply newline_runs_prefix in H.
Qed.

Lemma newline_runs_no_triple (s : str) (run : nat) :
  newline_runs s run = true -> find_sub [LF; LF; LF] s = None.
Proof.
  revert run. induction s as [|c s IH]; intros run H; [done|].
  cbn [find_sub].
  assert (Hstart : starts_with [LF; LF; LF] (c :: s) = false).
  { destruct (starts_with [LF; LF; LF] (c :: s)) eqn:E; [|done].
    destruct s as [|c2 [|c3 s']]; cbn [starts_with] in E;
      rewrite ?andb_false_r in E; try done.
    apply andb_prop in E as [E1 E]. apply andb_prop in E as [E2 E].
    apply andb_prop in E as [E3 _]. unfold chr_eqb in E1, E2, E3.
    apply N.eqb_eq in E1. apply N.eqb_eq in E2. apply N.eqb_eq in E3.
    subst. cbn in H. destruct run as [|[|run]]; done. }
  rewrite Hstart. cbn [newline_runs] in H.
  destruct (chr_eqb c LF).
  - apply andb_prop in H as [_ H]. by rewrite (IH _ H).
  - by rewrite (IH _ H).
Qed.

Lemma markdown_of_normal_form (items : list MdItem) :
  trim (markdown_of items) = markdown_of items
  /\ find_sub [LF; LF; LF] (markdown_of items) = None.
Proof.
  unfold markdown_of. split; [apply trim_trim|].
  apply (newline_runs_no_triple _ 0), newline_runs_trim.
  apply newline_runs_collapse.
Qed.

(** X29: what [markdown] returns, for a node or for an array of nodes,
    neither begins nor ends with white space and never has three line
    feeds in a row. *)
Theorem markdown_normal_form (node : Node) (nodes : list Node) :
  (trim (markdown node) = markdown node
   /\ find_sub [LF; LF; LF] (markdown node) = None)
  /\ (trim (markdown_all nodes) = markdown_all nodes
      /\ find_sub [LF; LF; LF] (markdown_all nodes) = None).
Proof. split; apply markdown_of_normal_form. Qed.

Lemma single_spaced_no_newline (s : str) (b : bool) :
  single_spaced s b = true ->
  forallb (fun c => negb (chr_eqb c LF)) s = true.
Proof.
  revert b. induction s as [|c s IH]; intros b; [done|].
  cbn [single_spaced forallb]. destruct (is_space c) eqn:Hc.
  - intros H. apply andb_prop in H as [H Hs]. apply andb_prop in H as [H _].
    unfold chr_eqb in H. apply N.eqb_eq in H. subst c.
    by rewrite (IH _ Hs).
  - intros H. rewrite (IH _ H), andb_true_r.
    destruct (chr_eqb c LF) eqn:E; [|done].
    unfold chr_eqb in E. apply N.eqb_eq in E. by subst c.
Qed.

Lemma collapse_newlines_plain (s : str) (run : nat) :
  forallb (fun c => negb (chr_eqb c LF)) s = true ->
  collapse_newlines s run = s.
Proof.
  revert run. induction s as [|c s IH]; intros run; [done|].
  cbn [forallb collapse_newlines]. intros H. apply andb_prop in H as [Hc Hs].
  apply negb_true_iff in Hc. by rewrite Hc, (IH _ Hs).
Qed.

Lemma trim_snoc_space (s : str) (c e : N) (r r' : str) :
  s = c :: r -> s = r' ++ [e] -> is_space c = false -> is_space e = false ->
  trim (s ++ [32%N]) = s.
Proof.
  intros H1 H2 Hc He. unfold trim.
  assert (Hstart : trimStart (s ++ [32%N]) = s ++ [32%N]).
  { rewrite H1. cbn [app]. by apply trimStart_id. }
  rewrite Hstart. unfold trimEnd. rewrite rev_app_distr. cbn [rev app].
  cbn [trimStart]. change (is_space 32) with true. cbv iota.
  rewrite H2 at 1. rewrite rev_app_distr. cbn [rev app].
  rewrite (trimStart_id e _ He).
  change (e :: rev r') with (rev [e] ++ rev r').
  by rewrite <- rev_app_distr, rev_involutive.
Qed.

(** X30: the Markdown of a Text node is its data with every run of
    white space made one space and none left at the ends. *)
Theorem markdown_text_node (d : str) :
  markdown (TextNode d) = strip d.
Proof.
  unfold markdown, markdown_of. cbn [imarkdown].
  destruct (strip_normal_form d) as (Hs & Htrim & _).
  destruct (strip d) as [|c t] eqn:E; [done|]. rewrite <- E in *.
  assert (Hplain : forallb (fun x => negb (chr_eqb x LF)) (strip d) = true)
    by (by apply (single_spaced_no_newline _ false)).
  assert (Hone : str_eqb (strip d) [LF] = false).
  { apply str_eqb_neq. intros Heq. rewrite Heq in Hplain. done. }
  cbn [md_pushed]. rewrite Hone. cbn [app concat]. rewrite app_nil_r.
  rewrite collapse_newlines_plain.
  2:{ rewrite forallb_app, Hplain. done. }
  destruct (trim_cases (replace_spaces d false))
    as [Hnil|(c' & r & e & r' & H1 & H2 & Hc & He)].
  - unfold strip in E. rewrite Hnil in E. done.
  - change (js " ") with [32%N].
    by apply (trim_snoc_space (strip d) c' e r r').
Qed.
